(** * bsync: the Sequencer of [src/sequence.js]

    A shallow embedding of the [Sequencer] class (configuration
    acceptance, stage dispatch, fan-in of task completions, termination)
    and the properties of its runs. *)

From stdpp Require Import gmap strings list fin_maps pretty.

Set Warnings "-register-all".
Open Scope string_scope.
Open Scope list_scope.
Open Scope nat_scope.

(** ** JavaScript values *)

(** The values the Sequencer handles.  Numbers are the integers; a
    function is named by an index into a table of behaviours and carries
    its source text (what string conversion yields); [VObj] is a plain
    object (object literal), [VInst] any other object (class instance,
    [Error], ...) with the text of its [toString()]; [VThis] is a
    reference to the Sequencer, as stored in [opts.sequence]. *)
Inductive Value : Type :=
| VUndefined
| VNull
| VBool (b : bool)
| VNum (n : Z)
| VStr (s : string)
| VFun (id : nat) (src : string)
| VArr (items : list Value)
| VObj (fields : gmap string Value)
| VInst (repr : string) (fields : gmap string Value)
| VThis.

(** [if (v)] *)
Definition truthy (v : Value) : bool :=
  match v with
  | VUndefined | VNull => false
  | VBool b => b
  | VNum n => negb (n =? 0)%Z
  | VStr s => negb (String.eqb s "")
  | _ => true
  end.

(** [Function.isFunction] is installed by the package entry point, which
    is not part of [src/]; it is the [typeof v === 'function'] test. *)
Definition isFunction (v : Value) : bool :=
  match v with VFun _ _ => true | _ => false end.

(** [Array.isArray] *)
Definition isArray (v : Value) : bool :=
  match v with VArr _ => true | _ => false end.

(** [isPlainObject] of the npm package [is-plain-object], which is not
    part of [src/]: it accepts the objects made by an object literal.  An
    object with an own [constructor] property is not told apart here
    (the package looks at [o.constructor]); where the answer matters,
    the theorems ask that the object has none, see [own]. *)
Definition isPlainObject (v : Value) : bool :=
  match v with VObj _ => true | _ => false end.

(** [o.k] on an object; a missing property reads as [undefined]. *)
Definition prop (o : Value) (k : string) : Value :=
  match o with
  | VObj m | VInst _ m => default VUndefined (m !! k)
  | _ => VUndefined
  end.

(** Whether [o] has an own property [k]. *)
Definition own (o : Value) (k : string) : bool :=
  match o with
  | VObj m | VInst _ m => bool_decide (is_Some (m !! k))
  | _ => false
  end.

(** [a[i]] and [a.length] on an array or an [arguments] object. *)
Definition index (a : Value) (i : nat) : Value :=
  match a with
  | VArr l => nth i l VUndefined
  | _ => VUndefined
  end.

Definition items_of (a : Value) : list Value :=
  match a with VArr l => l | _ => [] end.

(** String conversion, as [x + " "] performs it. *)
Fixpoint to_string (v : Value) : string :=
  match v with
  | VUndefined => "undefined"
  | VNull => "null"
  | VBool true => "true"
  | VBool false => "false"
  | VNum n => pretty n
  | VStr s => s
  | VFun _ src => src
  | VArr l =>
      let el x := match x with VUndefined | VNull => "" | _ => to_string x end in
      (fix join (l : list Value) : string :=
         match l with
         | [] => ""
         | [x] => el x
         | x :: r => el x +:+ "," +:+ join r
         end) l
  | VObj _ => "[object Object]"
  | VInst r _ => r
  | VThis => "[object Object]"
  end.

(** The values whose conversion to a string [to_string] gives as
    JavaScript does: the primitive values, a number being an integer
    that a JavaScript number holds exactly.  (Larger numbers are
    rounded and, from [1e21] on, printed with an exponent; the
    conversion of an object may run code of its own.) *)
Definition prints (v : Value) : bool :=
  match v with
  | VUndefined | VNull | VBool _ | VStr _ => true
  | VNum n => (Z.abs n <? 2 ^ 53)%Z
  | _ => false
  end.

(** The properties a [for (prop in v)] loop visits, with their values.
    [None]: looping over the Sequencer itself is outside the model (its
    [pendingData] would come to contain itself). *)
Definition indexed {A} (f : A → Value) (l : list A) : gmap string Value :=
  list_to_map (imap (λ i x, (pretty i, f x)) l).

Definition enumerable (v : Value) : option (gmap string Value) :=
  match v with
  | VObj m | VInst _ m => Some m
  | VArr l => Some (indexed id l)
  | VStr s => Some (indexed (λ c, VStr (String c "")) (String.list_ascii_of_string s))
  | VThis => None
  | _ => Some ∅
  end.

(** A map without the key [__proto__].  The assignment
    [target[prop] = v] that copies a property sets the prototype of
    [target] when [prop] is [__proto__], and defines no property; the
    maps of the model hold own properties only, so what they say about
    the contents of [pendingData], of [opts] and of the terminal data is
    said of maps without that key. *)
Definition ordinary (m : gmap string Value) : bool :=
  bool_decide (m !! "__proto__" = None).

(** ** The Sequencer object *)

Record Sequencer : Type := mkSequencer {
  isConstructing : bool;
  sequence : Value;
  callback : Value;
  args : Value;
  startupErrorText : Value;
  currentSequenceIdx : nat;
  pendingData : gmap string Value;
  concurrentFunctions : nat;
  pendingErr : Value
}.

Definition set_isConstructing (b : bool) (s : Sequencer) : Sequencer :=
  mkSequencer b (sequence s) (callback s) (args s) (startupErrorText s)
    (currentSequenceIdx s) (pendingData s) (concurrentFunctions s) (pendingErr s).
Definition set_sequence (v : Value) (s : Sequencer) : Sequencer :=
  mkSequencer (isConstructing s) v (callback s) (args s) (startupErrorText s)
    (currentSequenceIdx s) (pendingData s) (concurrentFunctions s) (pendingErr s).
Definition set_callback (v : Value) (s : Sequencer) : Sequencer :=
  mkSequencer (isConstructing s) (sequence s) v (args s) (startupErrorText s)
    (currentSequenceIdx s) (pendingData s) (concurrentFunctions s) (pendingErr s).
Definition set_args (v : Value) (s : Sequencer) : Sequencer :=
  mkSequencer (isConstructing s) (sequence s) (callback s) v (startupErrorText s)
    (currentSequenceIdx s) (pendingData s) (concurrentFunctions s) (pendingErr s).
Definition set_startupErrorText (v : Value) (s : Sequencer) : Sequencer :=
  mkSequencer (isConstructing s) (sequence s) (callback s) (args s) v
    (currentSequenceIdx s) (pendingData s) (concurrentFunctions s) (pendingErr s).
Definition set_currentSequenceIdx (n : nat) (s : Sequencer) : Sequencer :=
  mkSequencer (isConstructing s) (sequence s) (callback s) (args s) (startupErrorText s)
    n (pendingData s) (concurrentFunctions s) (pendingErr s).
Definition set_pendingData (m : gmap string Value) (s : Sequencer) : Sequencer :=
  mkSequencer (isConstructing s) (sequence s) (callback s) (args s) (startupErrorText s)
    (currentSequenceIdx s) m (concurrentFunctions s) (pendingErr s).
Definition set_concurrentFunctions (n : nat) (s : Sequencer) : Sequencer :=
  mkSequencer (isConstructing s) (sequence s) (callback s) (args s) (startupErrorText s)
    (currentSequenceIdx s) (pendingData s) n (pendingErr s).
Definition set_pendingErr (v : Value) (s : Sequencer) : Sequencer :=
  mkSequencer (isConstructing s) (sequence s) (callback s) (args s) (startupErrorText s)
    (currentSequenceIdx s) (pendingData s) (concurrentFunctions s) v.

(** The object [new] hands to the constructor: no property assigned yet.
    [construct] assigns every field but [isConstructing] and [pendingErr]
    before reading it. *)
Definition fresh : Sequencer :=
  mkSequencer false VUndefined VUndefined VUndefined VUndefined 0 ∅ 0 VUndefined.

(** ** Observable effects *)

(** What a run does, in order: the stages it starts (the index read by
    [processNextSequenceFunction] and the [opts] built for it), the tasks
    it invokes (stage, function and the [opts] handed over), the
    completions it receives through [handlePartialSequenceComplete], and
    the calls of the terminal callback.  Console output is not recorded. *)
Inductive Event : Type :=
| EStage (stage : nat) (opts : gmap string Value)
| EInvoke (stage : nat) (f : nat) (opts : gmap string Value)
| EComplete (err data : Value)
| ECallback (err data : Value).

(** How a call ends.  [Unmodelled]: the call left the model (see
    [enumerable] and [stages_of]). *)
Inductive Outcome : Type :=
| Returned
| Threw (v : Value)
| OutOfFuel
| Unmodelled.

Record World : Type := mkWorld {
  this : Sequencer;
  trace : list Event
}.

(** A method body: it changes the object, appends to the trace, and
    returns or throws. *)
Definition Step : Type := World → Outcome * World.

Definition ret : Step := λ w, (Returned, w).
Definition throw (v : Value) : Step := λ w, (Threw v, w).
Definition andThen (a b : Step) : Step :=
  λ w, match a w with
       | (Returned, w') => b w'
       | r => r
       end.
Definition update (f : Sequencer → Sequencer) : Step :=
  λ w, (Returned, mkWorld (f (this w)) (trace w)).
Definition emit (e : Event) : Step :=
  λ w, (Returned, mkWorld (this w) (trace w ++ [e])).
(** The rest of the body reads the object. *)
Definition reading (k : Sequencer → Step) : Step := λ w, k (this w) w.

Notation "a >> b" := (andThen a b) (at level 62, right associativity).

(** The [TypeError] of calling what is not a function. *)
Definition TypeError : Value := VInst "TypeError" ∅.

(** [f(a, b)] for the terminal callback [f]: the call is recorded; the
    callback's own body is the caller's and is taken not to re-enter the
    Sequencer. *)
Definition call_callback (f a b : Value) : Step :=
  if isFunction f then emit (ECallback a b) else throw TypeError.

(** ** Configuration acceptance *)

Definition invalidCallback : string :=
  "Invalid callback function passed to Sequencer.construct. A function or null must be passed.".
Definition invalidSequence : string :=
  "Invalid sequence passed to Sequencer.construct. An array of functions (and arrays) or a single function must be passed.".
Definition invalidArgs : string :=
  "Invalid function args passed to Sequencer.construct. An object<k, v> containing arguments must be passed.".
Definition tooManyArguments : string :=
  "No more than 3 arguments can be passed to Sequencer.construct.".
Definition errNullArguments : string :=
  "arguments passed to Sequencer.constructor were null. Nothing to run. Returning".

(** [objConstructor(argObj)] *)
Definition objConstructor (argObj : Value) : Step :=
  update (set_sequence (if truthy (prop argObj "sequence") then prop argObj "sequence" else VNull)) >>
  update (set_args (if truthy (prop argObj "args") then prop argObj "args" else VNull)) >>
  update (set_callback (if truthy (prop argObj "callback") then prop argObj "callback" else VNull)) >>
  (if truthy (prop argObj "callback") then
     if isFunction (prop argObj "callback") then
       update (set_callback (prop argObj "callback"))
     else throw (VStr invalidCallback)
   else ret) >>
  reading (λ s,
    if truthy (startupErrorText s) then ret else
    if isArray (prop argObj "sequence") || isFunction (prop argObj "sequence") then
      update (set_sequence (prop argObj "sequence")) >>
      (if truthy (prop argObj "args") then
         if isPlainObject (prop argObj "args") then
           update (set_args (prop argObj "args"))
         else update (set_startupErrorText (VStr invalidArgs))
       else ret)
    else update (set_startupErrorText (VStr invalidSequence))).

(** [arrConstructor(argArray)].  [arguments] is the argument list of this
    very call, and [argArray] its first element: the method reads the
    sequence from [argArray[0]], but the callback from [arguments[2]] and
    the args from [arguments[1]]. *)
Definition arrConstructor (arguments : list Value) : Step :=
  let argArray := nth 0 arguments VUndefined in
  reading (λ s,
    if negb (truthy (startupErrorText s)) && (3 <? length (items_of argArray))%nat then
      update (set_startupErrorText (VStr tooManyArguments))
    else ret) >>
  (if truthy (nth 2 arguments VUndefined) then
     if isFunction (nth 2 arguments VUndefined) then
       update (set_callback (nth 2 arguments VUndefined))
     else throw (VStr invalidCallback)
   else ret) >>
  reading (λ s,
    if truthy (startupErrorText s) then ret else
    if isArray (index argArray 0) || isFunction (index argArray 0) then
      update (set_sequence (index argArray 0)) >>
      (if truthy (nth 1 arguments VUndefined) then
         if isPlainObject (nth 1 arguments VUndefined) then
           update (set_args (nth 1 arguments VUndefined))
         else update (set_startupErrorText (VStr invalidArgs))
       else ret)
    else update (set_startupErrorText (VStr invalidSequence))).

(** [construct(...arguments)] *)
Definition construct (arguments : list Value) : Step :=
  update (set_sequence (VArr [])) >>
  update (set_callback VNull) >>
  update (set_args VNull) >>
  update (set_startupErrorText VNull) >>
  update (set_currentSequenceIdx 0) >>
  update (set_pendingData ∅) >>
  update (set_concurrentFunctions 0) >>
  reading (λ s,
    if (length arguments =? 0)%nat && isConstructing s then ret else
    (if (length arguments =? 0)%nat then
       update (set_startupErrorText (VStr errNullArguments))
     else ret) >>
    (if negb (isFunction (nth 0 arguments VUndefined))
        && (length arguments =? 1)%nat
        && isPlainObject (nth 0 arguments VUndefined)
     then objConstructor (nth 0 arguments VUndefined)
     else arrConstructor [VArr arguments]) >>
    reading (λ s,
      if truthy (startupErrorText s) then
        if truthy (callback s) then
          call_callback (callback s) (startupErrorText s) VNull
        else ret
      else ret)).

(** [new Sequencer(...arguments)] *)
Definition constructor (arguments : list Value) : Step :=
  update (set_isConstructing true) >>
  construct arguments >>
  update (set_isConstructing false).

(** ** Tasks *)

(** What a task does inside its own call, before it returns: it may call
    [opts.sequence.terminate()] and invoke its [complete] callback, any
    number of times and in any order.  Completions that a task delivers
    later (from a timer, an I/O callback) are inputs of the run, see
    [Input]. *)
Inductive Action : Type :=
| ATerminate
| AComplete (err data : Value).

(** [this.sequence], when it is an array.  The engine indexes it and reads
    its [length]; other values (array-like objects among them) are outside
    the model. *)
Definition stages_of (v : Value) : option (list Value) :=
  match v with VArr l => Some l | _ => None end.

Definition unmodelled : Step := λ w, (Unmodelled, w).

Section Engine.

(** The behaviour of every function, as a task: the actions of its
    call on the [opts] it receives. *)
Variable behaviour : nat → gmap string Value → list Action.

(** [terminate()] *)
Definition terminate : Step :=
  reading (λ s,
    match stages_of (sequence s) with
    | Some l => update (set_currentSequenceIdx (length l))
    | None => unmodelled
    end).

(** [handleSequenceFunctionComplete()]; [next] is the method
    [processNextSequenceFunction]. *)
Definition handleSequenceFunctionComplete (next : Step) : Step :=
  reading (λ s,
    match stages_of (sequence s) with
    | Some l =>
        if (length l <=? currentSequenceIdx s + 1)%nat then
          if truthy (callback s) then
            call_callback (callback s) (pendingErr s) (VObj (pendingData s))
          else ret
        else
          update (set_currentSequenceIdx (currentSequenceIdx s + 1)) >> next
    | None => unmodelled
    end).

(** [handlePartialSequenceComplete(err, data)] *)
Definition handlePartialSequenceComplete (next : Step) (err data : Value) : Step :=
  emit (EComplete err data) >>
  update (λ s, if (concurrentFunctions s =? 0)%nat then s
               else set_concurrentFunctions (concurrentFunctions s - 1) s) >>
  (if truthy data then
     match enumerable data with
     | Some m => update (λ s, set_pendingData (m ∪ pendingData s) s)
     | None => unmodelled
     end
   else ret) >>
  (if truthy err then
     update (λ s,
       let joined := VStr (to_string (pendingErr s) +:+ " " +:+ to_string err) in
       set_pendingErr (if truthy joined then joined else err) s)
   else ret) >>
  reading (λ s,
    if (concurrentFunctions s =? 0)%nat then handleSequenceFunctionComplete next
    else ret).

(** The body of a task, run inside the call that invoked it; an
    exception raised under [complete] ends it. *)
Fixpoint run_body (next : Step) (body : list Action) : Step :=
  match body with
  | [] => ret
  | ATerminate :: rest => terminate >> run_body next rest
  | AComplete err data :: rest =>
      handlePartialSequenceComplete next err data >> run_body next rest
  end.

(** [f(opts, this.handlePartialSequenceComplete.bind(this))] *)
Definition call_task (next : Step) (stage : nat) (f : Value)
    (opts : gmap string Value) : Step :=
  match f with
  | VFun id _ => emit (EInvoke stage id opts) >> run_body next (behaviour id opts)
  | _ => throw TypeError
  end.

(** [for (var fIdx in whatToExecute) whatToExecute[fIdx](opts, ...)] *)
Fixpoint dispatch (next : Step) (stage : nat) (fs : list Value)
    (opts : gmap string Value) : Step :=
  match fs with
  | [] => ret
  | f :: rest => call_task next stage f opts >> dispatch next stage rest opts
  end.

(** The [opts] of the next stage: [{sequence: this}], then the own
    properties of [args], then those of [pendingData], later writes
    replacing earlier ones. *)
Definition base_opts (args : Value) : option (gmap string Value) :=
  a ← (if truthy args then enumerable args else Some ∅);
  Some (a ∪ {["sequence" := VThis]}).

Definition build_opts (s : Sequencer) : option (gmap string Value) :=
  base ← base_opts (args s);
  Some (pendingData s ∪ base).

(** The body of [processNextSequenceFunction()], with [next] for the
    method itself where a completion re-enters it. *)
Definition processNext_body (next : Step) : Step :=
  reading (λ s,
    match build_opts s with
    | None => unmodelled
    | Some opts =>
        emit (EStage (currentSequenceIdx s) opts) >>
        update (set_pendingData ∅) >>
        match stages_of (sequence s) with
        | None => unmodelled
        | Some l =>
            let stage := currentSequenceIdx s in
            match nth stage l VUndefined with
            | VArr fs =>
                update (set_concurrentFunctions (length fs)) >>
                dispatch next stage fs opts
            | whatToExecute => call_task next stage whatToExecute opts
            end
        end
    end).

(** [processNextSequenceFunction()].  The method re-enters itself
    through the completions of the tasks it invokes, each time one
    stage further; [fuel] bounds the nesting. *)
Fixpoint processNextSequenceFunction (fuel : nat) : Step :=
  match fuel with
  | O => λ w, (OutOfFuel, w)
  | S fuel' => processNext_body (processNextSequenceFunction fuel')
  end.

(** One more nesting than there are stages is enough, see
    [go_fuel_enough]. *)
Definition fuel_of (s : Sequencer) : nat := S (length (items_of (sequence s))).

(** [go()] *)
Definition go : Step :=
  reading (λ s, processNextSequenceFunction (fuel_of s)).

(** A completion delivered after the task's call has returned. *)
Definition complete (err data : Value) : Step :=
  reading (λ s,
    handlePartialSequenceComplete (processNextSequenceFunction (fuel_of s)) err data).

(** What reaches the Sequencer once [go()] has returned: the late
    completions of its tasks and calls of [terminate()] by whoever holds
    the object. *)
Inductive Input : Type :=
| ILate (err data : Value)
| IStop.

Definition input (i : Input) : Step :=
  match i with
  | ILate err data => complete err data
  | IStop => terminate
  end.

(** The inputs are handled one at a time, each to its end; an exception
    goes to the caller of that input and the next one is handled as
    usual. *)
Fixpoint inputs (ins : list Input) (w : World) : World :=
  match ins with
  | [] => w
  | i :: rest => inputs rest (input i w).2
  end.

(** The exported [sequence(...arguments)]: [new Sequencer()], then
    [construct] on the caller's arguments, then [go()]. *)
Definition bsync_sequence (arguments : list Value) : Step :=
  constructor [] >> construct arguments >> go.

(** A run: the call of [sequence(...arguments)] on a new object, then the
    inputs. *)
Definition run (arguments : list Value) (ins : list Input) : World :=
  inputs ins (bsync_sequence arguments (mkWorld fresh [])).2.

End Engine.

(** ** Runs of well-behaved tasks *)

(** A task that keeps the task contract inside its own call: it invokes
    [complete(err, data)] once, with a plain object; [t_stop] says whether
    it calls [opts.sequence.terminate()] first. *)
Record Task : Type := mkTask {
  t_fun : nat;
  t_src : string;
  t_stop : bool;
  t_err : Value;
  t_data : gmap string Value
}.

Definition task_value (t : Task) : Value := VFun (t_fun t) (t_src t).

Definition task_body (t : Task) : list Action :=
  (if t_stop t then [ATerminate] else []) ++ [AComplete (t_err t) (VObj (t_data t))].

(** A stage of the sequence: one task, or an array of tasks. *)
Inductive Stage : Type :=
| Single (t : Task)
| Group (ts : list Task).

Definition stage_tasks (st : Stage) : list Task :=
  match st with Single t => [t] | Group ts => ts end.

Definition stage_value (st : Stage) : Value :=
  match st with
  | Single t => task_value t
  | Group ts => VArr (map task_value ts)
  end.

Definition obeys (behaviour : nat → gmap string Value → list Action) (t : Task) : Prop :=
  ∀ opts, behaviour (t_fun t) opts = task_body t.

(** [pendingErr] after one more completion. *)
Definition join_err (acc err : Value) : Value :=
  if truthy err then VStr (to_string acc +:+ " " +:+ to_string err) else acc.

(** [pendingErr] and [pendingData] after the completions of [ts], in that
    order. *)
Definition joined (e0 : Value) (ts : list Task) : Value :=
  foldl (λ acc t, join_err acc (t_err t)) e0 ts.

Definition merged_onto (d0 : gmap string Value) (ts : list Task) : gmap string Value :=
  foldl (λ acc t, t_data t ∪ acc) d0 ts.

Definition merged (ts : list Task) : gmap string Value := merged_onto ∅ ts.

(** The events of one stage: it starts, then every task is invoked on the
    same [opts] and completes before the next one is invoked. *)
Definition task_events (k : nat) (opts : gmap string Value) (ts : list Task) : list Event :=
  ts ≫= (λ t, [EInvoke k (t_fun t) opts; EComplete (t_err t) (VObj (t_data t))]).

Definition stage_events (k : nat) (opts : gmap string Value) (ts : list Task) : list Event :=
  EStage k opts :: task_events k opts ts.

(** The events of consecutive stages from index [k] on; [prev] is what the
    stage before merged and [base] the part of [opts] that never changes. *)
Fixpoint play (k : nat) (base prev : gmap string Value) (stages : list Stage) : list Event :=
  match stages with
  | [] => []
  | st :: rest =>
      stage_events k (prev ∪ base) (stage_tasks st) ++
      play (S k) base (merged (stage_tasks st)) rest
  end.

Definition stops (st : Stage) : bool := existsb t_stop (stage_tasks st).

Definition is_empty_group (st : Stage) : bool :=
  match stage_tasks st with [] => true | _ => false end.

(** The call of the terminal callback [cb], if it is made. *)
Definition terminal_events (cb err : Value) (data : gmap string Value) : list Event :=
  if truthy cb && isFunction cb then [ECallback err (VObj data)] else [].

Definition terminal_outcome (cb : Value) : Outcome :=
  if truthy cb && negb (isFunction cb) then Threw TypeError else Returned.

(** The calls of the terminal callback in a trace. *)
Definition terminal_calls (tr : list Event) : list (Value * Value) :=
  omap (λ e, match e with ECallback err data => Some (err, data) | _ => None end) tr.

(** The tasks invoked in a trace: stage, function and [opts]. *)
Definition invocations (tr : list Event) : list (nat * nat * gmap string Value) :=
  omap (λ e, match e with EInvoke k f opts => Some (k, f, opts) | _ => None end) tr.

(** ** The task contract on a trace *)

(** The tasks invoked and not yet completed after [e], given their number
    before; [None] once a completion arrives that no invoked task is left
    to account for. *)
Definition balance (acc : option nat) (e : Event) : option nat :=
  match acc with
  | None => None
  | Some o =>
      match e with
      | EInvoke _ _ _ => Some (S o)
      | EComplete _ _ => match o with O => None | S o' => Some o' end
      | EStage _ _ | ECallback _ _ => Some o
      end
  end.

Definition outstanding (tr : list Event) : option nat := foldl balance (Some 0) tr.

(** Every completion in the trace is the first one of a task invoked
    before it. *)
Definition respects_contract (tr : list Event) : Prop := outstanding tr ≠ None.

(** The configuration object [{sequence: sq, args: ar, callback: cb}]. *)
Definition config (sq ar cb : Value) : Value :=
  VObj (<["sequence" := sq]> (<["args" := ar]> {["callback" := cb]})).

(** The invocations of consecutive stages: stage index, function and
    [opts], in the order of [play]. *)
Fixpoint contexts (k : nat) (base prev : gmap string Value) (stages : list Stage)
    : list (nat * nat * gmap string Value) :=
  match stages with
  | [] => []
  | st :: rest =>
      map (λ t, (k, t_fun t, prev ∪ base)) (stage_tasks st) ++
      contexts (S k) base (merged (stage_tasks st)) rest
  end.

(** What stage [i] merges into [pendingData]. *)
Definition result_of (stages : list Stage) (i : nat) : gmap string Value :=
  from_option (λ st, merged (stage_tasks st)) ∅ (stages !! i).

(** The part of [opts] that is the same at every stage, for the plain
    object [a] as [args]. *)
Definition base_of (a : gmap string Value) : gmap string Value :=
  a ∪ {["sequence" := VThis]}.

(** The tasks of consecutive stages in the order of their invocation:
    stage index and function. *)
Fixpoint schedule (k : nat) (stages : list Stage) : list (nat * nat) :=
  match stages with
  | [] => []
  | st :: rest => map (λ t, (k, t_fun t)) (stage_tasks st) ++ schedule (S k) rest
  end.

(** ** What the trace tells about the object *)

(** The stages started in a trace, with their [opts]. *)
Definition stage_starts (tr : list Event) : list (nat * gmap string Value) :=
  omap (λ e, match e with EStage k opts => Some (k, opts) | _ => None end) tr.

(** The index of the stage started last. *)
Definition last_start (tr : list Event) : option nat := fst <$> last (stage_starts tr).

(** What a completion with [data] merges into [pendingData]: nothing
    where the loop over [data] leaves the model. *)
Definition results (data : Value) : gmap string Value :=
  if truthy data then default ∅ (enumerable data) else ∅.

(** Whether the loop over [data] stays in the model. *)
Definition readable (data : Value) : bool :=
  if truthy data then match enumerable data with Some _ => true | None => false end
  else true.

(** [pendingData] after one more event: a stage start empties it, a
    completion merges its results. *)
Definition absorb (pd : gmap string Value) (e : Event) : gmap string Value :=
  match e with
  | EStage _ _ => ∅
  | EComplete _ data => results data ∪ pd
  | _ => pd
  end.

Definition received (pd0 : gmap string Value) (tr : list Event) : gmap string Value :=
  foldl absorb pd0 tr.

(** [pendingErr] after one more event. *)
Definition hear (pe : Value) (e : Event) : Value :=
  match e with
  | EComplete err data => if readable data then join_err pe err else pe
  | _ => pe
  end.

Definition reported (pe0 : Value) (tr : list Event) : Value := foldl hear pe0 tr.

(** Key [x] is among the results of a completion that [tr] received after
    its last stage start. *)
Definition received_since_start (tr : list Event) (x : string) : Prop :=
  ∃ t0 err data seg,
    tr = t0 ++ EComplete err data :: seg ∧ stage_starts seg = [] ∧ x ∈ dom (results data).

(** What the Sequencer, started from [s0], must have done for event [e]
    to follow the events [t1]. *)
Definition accounted (s0 : Sequencer) (t1 : list Event) (e : Event) : Prop :=
  match e with
  | EStage k opts =>
      (∃ base, base_opts (args s0) = Some base ∧
               opts = received (pendingData s0) t1 ∪ base) ∧
      (∀ i, last_start t1 = Some i → k = i + 1)
  | EInvoke k f opts => (k, opts) ∈ stage_starts t1
  | EComplete _ _ => True
  | ECallback err data =>
      err = reported (pendingErr s0) t1 ∧ data = VObj (received (pendingData s0) t1)
  end.

Definition faithful (s0 : Sequencer) (tr : list Event) : Prop :=
  ∀ t1 e t2, tr = t1 ++ e :: t2 → accounted s0 t1 e.

(** ** Runs that differ only in the errors reported *)

(** An event with the error taken out. *)
Definition blind (e : Event) : Event :=
  match e with
  | EComplete _ data => EComplete VUndefined data
  | ECallback _ data => ECallback VUndefined data
  | e => e
  end.

Definition same_action (a a' : Action) : Prop :=
  match a, a' with
  | ATerminate, ATerminate => True
  | AComplete _ data, AComplete _ data' => data = data'
  | _, _ => False
  end.

(** Two behaviours whose tasks do the same but for the errors they
    report. *)
Definition same_but_errors (b b' : nat → gmap string Value → list Action) : Prop :=
  ∀ id opts, Forall2 same_action (b id opts) (b' id opts).

Definition same_input (i i' : Input) : Prop :=
  match i, i' with
  | IStop, IStop => True
  | ILate _ data, ILate _ data' => data = data'
  | _, _ => False
  end.

(** ** The scenarios of the specification *)

(** [taskA], [taskB], [taskC]: synchronous successes with one result key
    each.  [mergeTask] checks the three results in its [opts], as the
    test of the repository does, and completes with [{done: true}];
    [twice] invokes [complete] two times; the terminal callback is
    [onComplete]. *)
Definition taskA : Task := mkTask 0 "taskA" false VNull {["taskA" := VNum 1]}.
Definition taskB : Task := mkTask 1 "taskB" false VNull {["taskB" := VNum 2]}.
Definition taskC : Task := mkTask 2 "taskC" false VNull {["taskC" := VNum 3]}.
Definition mergeTask : Value := VFun 3 "mergeTask".
Definition twice : Value := VFun 4 "twice".
Definition failing : Task := mkTask 5 "failing" false (VStr "boom") {["partial" := VNum 0]}.
Definition stopping : Task := mkTask 6 "stopping" true VNull {["funcTerminate" := VNum 5]}.
Definition later : Value := VFun 7 "later".
Definition onComplete : Value := VFun 9 "onComplete".

Definition scenario (id : nat) (opts : gmap string Value) : list Action :=
  match id with
  | 0 => task_body taskA
  | 1 => task_body taskB
  | 2 => task_body taskC
  | 3 =>
      match opts !! "taskA", opts !! "taskB", opts !! "taskC" with
      | Some (VNum 1), Some (VNum 2), Some (VNum 3) =>
          [AComplete VNull (VObj {["done" := VBool true]})]
      | _, _, _ => []
      end
  | 4 => [AComplete VNull (VObj {["first" := VNum 1]});
          AComplete VNull (VObj {["second" := VNum 2]})]
  | 5 => task_body failing
  | 6 => task_body stopping
  | _ => []
  end.

Definition x_is_1 : gmap string Value := {["x" := VNum 1]}.

Definition abc_union : gmap string Value :=
  <["taskA" := VNum 1]> (<["taskB" := VNum 2]> {["taskC" := VNum 3]}).

(** A run with late completions: a group of two tasks, then one task,
    none of which completes inside its call. *)
Definition C1_state : Sequencer :=
  mkSequencer false (VArr [VArr [later; later]; later]) onComplete VNull VNull 0 ∅ 0 VUndefined.
Definition C1_inputs : list Input :=
  [ILate VNull (VObj ∅); ILate (VStr "late") (VObj ∅); IStop; ILate VNull (VObj ∅)].

(** A task, then a group of two tasks that complete late, then an empty
    array, then [mergeTask]; the two late completions, and what arrives
    afterwards. *)
Definition C10_state : Sequencer :=
  mkSequencer false (VArr [task_value taskA; VArr [later; later]; VArr []; mergeTask])
    onComplete VNull VNull 0 ∅ 0 VUndefined.
Definition C10_before : list Input :=
  [ILate VNull (VObj {["one" := VNum 1]}); ILate VNull (VObj {["two" := VNum 2]})].
Definition C10_after : list Input := [IStop; IStop].

(** The Sequencer that [sequence({sequence: [taskA, taskB, taskC], args:
    {x: 1}, callback: onComplete})] constructs, the [opts] of its three
    stages, the invocations of its run, and the events of that run
    before and after the start of stage 1. *)
Definition abc_state : Sequencer :=
  mkSequencer false (VArr (map task_value [taskA; taskB; taskC])) onComplete (VObj x_is_1)
    VNull 0 ∅ 0 VUndefined.

Definition abc_opts0 : gmap string Value := <["x" := VNum 1]> {["sequence" := VThis]}.
Definition abc_opts1 : gmap string Value := <["taskA" := VNum 1]> abc_opts0.
Definition abc_opts2 : gmap string Value := <["taskB" := VNum 2]> abc_opts0.

Definition abc_contexts : list (nat * nat * gmap string Value) :=
  [(0, 0, abc_opts0); (1, 1, abc_opts1); (2, 2, abc_opts2)].

Definition abc_before_stage1 : list Event :=
  [EStage 0 abc_opts0; EInvoke 0 0 abc_opts0; EComplete VNull (VObj {["taskA" := VNum 1]})].
Definition abc_after_stage1 : list Event :=
  [EInvoke 1 1 abc_opts1; EComplete VNull (VObj {["taskB" := VNum 2]});
   EStage 2 abc_opts2; EInvoke 2 2 abc_opts2; EComplete VNull (VObj {["taskC" := VNum 3]});
   ECallback VUndefined (VObj {["taskC" := VNum 3]})].

(** The behaviour in which no task reports an error. *)
Definition quiet (a : Action) : Action :=
  match a with
  | AComplete _ data => AComplete VNull data
  | ATerminate => ATerminate
  end.

Definition hushed (b : nat → gmap string Value → list Action)
    : nat → gmap string Value → list Action :=
  λ id opts, map quiet (b id opts).

(** ** Predicates of the proofs *)

(** [hoare P a Q]: from a world that satisfies [P], the body [a] ends in
    an outcome and a world that satisfy [Q]. *)
Definition hoare (P : World → Prop) (a : Step) (Q : Outcome → World → Prop) : Prop :=
  ∀ w, P w → Q (a w).1 (a w).2.

(** The sequence is the array [l] and at most [m] stages lie at or after
    the current index. *)
Definition within (l : list Value) (m : nat) (w : World) : Prop :=
  stages_of (sequence (this w)) = Some l ∧
  length l - currentSequenceIdx (this w) ≤ m.

(** The body neither runs out of fuel nor leaves [within l m]. *)
Definition safe (l : list Value) (m : nat) (a : Step) : Prop :=
  hoare (within l m) a (λ o w, o ≠ OutOfFuel ∧ within l m w).

(** What a body asks of the method it re-enters. *)
Definition safe_next (l : list Value) (m : nat) (next : Step) : Prop :=
  hoare (λ w, within l m w ∧ 1 ≤ length l - currentSequenceIdx (this w)) next
        (λ o w, o ≠ OutOfFuel ∧ within l m w).

(** The index after the tasks [ts] of a sequence [l]: the end of the
    sequence if one of them called [terminate()]. *)
Definition idx_after (l : list Value) (idx : nat) (ts : list Task) : nat :=
  if existsb t_stop ts then length l else idx.

(** A stage that hands over to the next one. *)
Definition passes (st : Stage) : Prop := is_empty_group st = false ∧ stops st = false.

(** How often the terminal callback was called. *)
Definition callbacks (tr : list Event) : nat := length (terminal_calls tr).

(** The stage at the current index, [undefined] past the end. *)
Definition stage_now (w : World) : Value :=
  nth (currentSequenceIdx (this w)) (items_of (sequence (this w))) VUndefined.

(** The invariant of a run, as long as the contract is respected, with
    [o] tasks invoked and not completed and [p] tasks of the current
    stage still to be invoked by the loop that dispatches it: the
    counter [concurrentFunctions] covers them all (or the stage is a
    single task); once the terminal callback has been called nothing is
    left; and at an empty array nothing is left and the callback has not
    been called. *)
Definition settled (p : nat) (w : World) : Prop :=
  match outstanding (trace w) with
  | None => True
  | Some o =>
      (o + p ≤ concurrentFunctions (this w) ∨
       (concurrentFunctions (this w) = 0 ∧ o + p ≤ 1)) ∧
      (callbacks (trace w) = 0 ∨ (callbacks (trace w) = 1 ∧ o + p = 0)) ∧
      (stage_now w = VArr [] → o + p = 0 ∧ callbacks (trace w) = 0)
  end.

(** Between two stages. *)
Definition ready (p : nat) (w : World) : Prop :=
  match outstanding (trace w) with
  | None => True
  | Some o =>
      o = 0 ∧ p = 0 ∧ concurrentFunctions (this w) = 0 ∧ callbacks (trace w) = 0
  end.

(** The last task of the current stage has completed. *)
Definition finished (p : nat) (w : World) : Prop :=
  match outstanding (trace w) with
  | None => True
  | Some o =>
      o = 0 ∧ p = 0 ∧ concurrentFunctions (this w) = 0 ∧ callbacks (trace w) = 0 ∧
      stage_now w ≠ VArr []
  end.

(** Right after a completion has been counted. *)
Definition counted (p : nat) (w : World) : Prop :=
  match outstanding (trace w) with
  | None => True
  | Some o =>
      o + p ≤ concurrentFunctions (this w) ∧ callbacks (trace w) = 0 ∧
      stage_now w ≠ VArr []
  end.

(** A completion has been recorded and [concurrentFunctions] not yet
    decremented. *)
Definition arrived (p : nat) (w : World) : Prop :=
  match outstanding (trace w) with
  | None => True
  | Some o =>
      (o + p + 1 ≤ concurrentFunctions (this w) ∨
       (concurrentFunctions (this w) = 0 ∧ o + p = 0)) ∧
      callbacks (trace w) = 0 ∧
      stage_now w ≠ VArr []
  end.

Definition keeps (P : World → Prop) (a : Step) : Prop := hoare P a (λ _, P).

Definition next_ok (next : Step) : Prop :=
  ∀ p, hoare (ready p) next (λ _, settled p).

(** Stage [k] lies at or before the current index, inside the sequence,
    and is not an empty array. *)
Definition at_stage (k : nat) (w : World) : Prop :=
  k ≤ currentSequenceIdx (this w) ∧
  k < length (items_of (sequence (this w))) ∧
  nth k (items_of (sequence (this w))) VUndefined ≠ VArr [].

(** Every task invoked so far belongs to such a stage, and so do the
    stages [ks] whose tasks are being dispatched. *)
Definition behind (ks : list nat) (w : World) : Prop :=
  (∀ k f opts, (k, f, opts) ∈ invocations (trace w) → at_stage k w) ∧
  Forall (λ k, at_stage k w) ks.

Definition next_behind (next : Step) : Prop := ∀ ks, keeps (behind ks) next.

(** What [new Sequencer()] leaves behind. *)
Definition blank : Sequencer :=
  mkSequencer false (VArr []) VNull VNull VNull 0 ∅ 0 VUndefined.

(** A handler that is a function or absent, and [args] that are a plain
    object or absent. *)
Definition acceptable_callback (cb : Value) : Prop :=
  isFunction cb = true ∨ truthy cb = false.
Definition acceptable_args (ar : Value) : Prop :=
  isPlainObject ar = true ∨ truthy ar = false.

Definition or_null (v : Value) : Value := if truthy v then v else VNull.

(** The bodies that keep a property [P] of the trace. *)
Definition lasting (P : list Event → Prop) (a : Step) : Prop :=
  hoare (λ w, P (trace w)) a (λ _ w, P (trace w)).

(** The invariants of a run started from [s0]; [ks] are the stages whose
    tasks are being dispatched. *)
Definition kept (s0 : Sequencer) (ks : list (nat * gmap string Value)) (w : World) : Prop :=
  args (this w) = args s0 ∧ sequence (this w) = sequence s0 ∧ faithful s0 (trace w) ∧
  Forall (λ ko, ko ∈ stage_starts (trace w)) ks.

Definition booked (s0 : Sequencer) (w : World) : Prop :=
  pendingData (this w) = received (pendingData s0) (trace w) ∧
  pendingErr (this w) = reported (pendingErr s0) (trace w).

(** The index is that of the stage started last, or at the end. *)
Definition numbered (w : World) : Prop :=
  ∀ i, last_start (trace w) = Some i →
       currentSequenceIdx (this w) = i ∨
       length (items_of (sequence (this w))) ≤ currentSequenceIdx (this w).

(** The index has just moved on from the stage started last. *)
Definition stepped (w : World) : Prop :=
  ∀ i, last_start (trace w) = Some i → currentSequenceIdx (this w) = i + 1.

Definition ledger (s0 : Sequencer) (ks : list (nat * gmap string Value)) (w : World) : Prop :=
  kept s0 ks w ∧ booked s0 w ∧ numbered w.

(** The body keeps [P], unless it runs out of fuel. *)
Definition fed (P : World → Prop) (a : Step) : Prop :=
  hoare P a (λ o w, o ≠ OutOfFuel → P w).

Definition next_ledger (s0 : Sequencer) (next : Step) : Prop :=
  ∀ ks, hoare (λ w, kept s0 ks w ∧ booked s0 w ∧ stepped w) next
          (λ o w, o ≠ OutOfFuel → ledger s0 ks w).

(** Two worlds that differ in [pendingErr] and in the errors of their
    events at most. *)
Definition alike (w w' : World) : Prop :=
  set_pendingErr VUndefined (this w) = set_pendingErr VUndefined (this w') ∧
  map blind (trace w) = map blind (trace w').

(** Two bodies that end alike from worlds that are alike. *)
Definition sim (a a' : Step) : Prop :=
  ∀ w w', alike w w' → (a w).1 = (a' w').1 ∧ alike (a w).2 (a' w').2.

(** ** Further definitions *)

(** The error [construct] records for a configuration object: the stage
    list is looked at before the args. *)
Definition shape_error (sq ar : Value) : Value :=
  if negb (isArray sq || isFunction sq) then VStr invalidSequence
  else if truthy ar && negb (isPlainObject ar) then VStr invalidArgs
  else VNull.

(** The body keeps a property of the object. *)
Definition steady (Q : Sequencer → Prop) (a : Step) : Prop :=
  keeps (λ w, Q (this w)) a.

(** A completion that arrives late, as an input and as an event: its
    error and its data. *)
Definition late (c : Value * Value) : Input := ILate c.1 c.2.
Definition completion (c : Value * Value) : Event := EComplete c.1 c.2.

(** How many completions a trace holds. *)
Definition completions (tr : list Event) : nat :=
  length (omap (λ e, match e with EComplete err data => Some (err, data) | _ => None end) tr).

(** The terminal callback has been called at most as often as
    completions were received, [c] of which are still to be handled. *)
Definition paid (c : nat) (w : World) : Prop :=
  callbacks (trace w) + c ≤ completions (trace w).

(** A group of three tasks that complete late, once dispatched; two of
    their completions; and two single tasks that complete late. *)
Definition group_state : Sequencer :=
  mkSequencer false (VArr [VArr [later; later; later]; later]) onComplete VNull VNull
    0 ∅ 3 VUndefined.
Definition two_late : list (Value * Value) :=
  [(VNull, VObj {["one" := VNum 1]}); (VStr "late", VObj {["two" := VNum 2]})].
Definition pair_state : Sequencer :=
  mkSequencer false (VArr [later; later]) onComplete VNull VNull 0 ∅ 0 VUndefined.

(** ** Predicates of the runs as a whole *)

(** A stage the engine can run: a function, or an array of functions
    that is not empty. *)
Definition runnable (v : Value) : bool :=
  match v with
  | VFun _ _ => true
  | VArr fs => negb (length fs =? 0) && forallb isFunction fs
  | _ => false
  end.

(** Every completion of the trace carries data that the model reads. *)
Definition legible (tr : list Event) : bool :=
  forallb (λ e, match e with EComplete _ data => readable data | _ => true end) tr.

(** The runs the count of completions is proved for: the contract is
    respected and the data are read. *)
Definition good (tr : list Event) : Prop := respects_contract tr ∧ legible tr = true.

(** The configuration of the run. *)
Definition fixed (l : list Value) (cb ar : Value) (w : World) : Prop :=
  sequence (this w) = VArr l ∧ callback (this w) = cb ∧ args (this w) = ar.

(** A stage is running: with [o] tasks invoked and not completed and [p]
    tasks still to be invoked by the loop, the counter awaits exactly
    these, or the stage is a single task. *)
Definition busy (p : nat) (w : World) : Prop :=
  ∃ o, outstanding (trace w) = Some o ∧ callbacks (trace w) = 0 ∧ 1 ≤ o + p ∧
       (concurrentFunctions (this w) = o + p ∨
        (concurrentFunctions (this w) = 0 ∧ o + p = 1)).

(** The terminal callback has been called, at the last stage or after
    [terminate()]: nothing is awaited, and nothing has happened since. *)
Definition over (l : list Value) (p : nat) (w : World) : Prop :=
  outstanding (trace w) = Some 0 ∧ p = 0 ∧ callbacks (trace w) = 1 ∧
  concurrentFunctions (this w) = 0 ∧
  length l ≤ currentSequenceIdx (this w) + 1 ∧
  ∃ t1 err data, trace w = t1 ++ [ECallback err data].

Definition live (l : list Value) (p : nat) (w : World) : Prop := busy p w ∨ over l p w.

(** Between two stages, the next one inside the sequence. *)
Definition idle (l : list Value) (p : nat) (w : World) : Prop :=
  outstanding (trace w) = Some 0 ∧ p = 0 ∧ callbacks (trace w) = 0 ∧
  concurrentFunctions (this w) = 0 ∧ currentSequenceIdx (this w) < length l.

(** A completion has been recorded and the counter not yet decremented;
    it has been decremented; the last task of the stage has completed. *)
Definition landed (data : Value) (p : nat) (w : World) : Prop :=
  readable data = true ∧
  ∃ o, outstanding (trace w) = Some o ∧ callbacks (trace w) = 0 ∧
       (concurrentFunctions (this w) = o + p + 1 ∨
        (concurrentFunctions (this w) = 0 ∧ o + p = 0)).

Definition taken (data : Value) (p : nat) (w : World) : Prop :=
  readable data = true ∧
  ∃ o, outstanding (trace w) = Some o ∧ callbacks (trace w) = 0 ∧
       concurrentFunctions (this w) = o + p.

Definition complete_stage (p : nat) (w : World) : Prop :=
  outstanding (trace w) = Some 0 ∧ p = 0 ∧ callbacks (trace w) = 0 ∧
  concurrentFunctions (this w) = 0.

(** How a body ends in a good run: it returns, in a world that satisfies
    [S]. *)
Definition cond (S : World → Prop) (o : Outcome) (w : World) : Prop :=
  o ≠ OutOfFuel → good (trace w) → o = Returned ∧ S w.

(** The configuration stays, and in a good run the body returns in a
    world that satisfies [S]. *)
Definition held (l : list Value) (cb ar : Value) (S : World → Prop) (o : Outcome) (w : World)
    : Prop :=
  fixed l cb ar w ∧ cond S o w.

(** What the proofs about the count ask of [processNextSequenceFunction]. *)
Definition next_tally (l : list Value) (cb ar : Value) (next : Step) : Prop :=
  ∀ p, hoare (held l cb ar (idle l p) Returned) next (held l cb ar (live l p)).

(** A body that begins by calling [terminate()]. *)
Definition stops_first (body : list Action) : bool :=
  match body with ATerminate :: _ => true | _ => false end.

(** The invocation of a task that begins by calling [terminate()]. *)
Definition terminating (behaviour : nat → gmap string Value → list Action) (e : Event) : bool :=
  match e with EInvoke _ f opts => stops_first (behaviour f opts) | _ => false end.

Definition halted (behaviour : nat → gmap string Value → list Action) (tr : list Event) : bool :=
  existsb (terminating behaviour) tr.

(** No stage is started once such a task has been invoked. *)
Definition halts (behaviour : nat → gmap string Value → list Action) (tr : list Event) : Prop :=
  ∀ t1 j opts t2, tr = t1 ++ EStage j opts :: t2 → halted behaviour t1 = false.

(** The sequence is the array [l]; no stage has been started after a
    terminating task, and once there is one the index is at the end. *)
Definition halt (behaviour : nat → gmap string Value → list Action) (l : list Value)
    (w : World) : Prop :=
  sequence (this w) = VArr l ∧ halts behaviour (trace w) ∧
  (halted behaviour (trace w) = true → length l ≤ currentSequenceIdx (this w)).

Definition next_halt (behaviour : nat → gmap string Value → list Action) (l : list Value)
    (next : Step) : Prop :=
  hoare (λ w, halt behaviour l w ∧ halted behaviour (trace w) = false) next
        (λ _, halt behaviour l).

(** The index is at or past the end of the sequence [l], and the tasks
    invoked and the stages started are [inv] and [sts]. *)
Definition stopped (l : list Value) (inv : list (nat * nat * gmap string Value))
    (sts : list (nat * gmap string Value)) (w : World) : Prop :=
  stages_of (sequence (this w)) = Some l ∧ length l ≤ currentSequenceIdx (this w) ∧
  invocations (trace w) = inv ∧ stage_starts (trace w) = sts.

(** A task that never calls [terminate()] inside its call. *)
Definition quiet_body (body : list Action) : bool :=
  forallb (λ a, match a with ATerminate => false | AComplete _ _ => true end) body.

(** No task invoked in the trace calls [terminate()] inside its call. *)
Definition calm (behaviour : nat → gmap string Value → list Action) (tr : list Event) : bool :=
  forallb (λ e, match e with EInvoke _ f opts => quiet_body (behaviour f opts) | _ => true end) tr.

(** No input is a call of [terminate()]. *)
Definition unstopped (ins : list Input) : bool :=
  forallb (λ i, match i with IStop => false | ILate _ _ => true end) ins.

(** The sequence is the array [l]; as long as no task has called
    [terminate()], [phi] holds and the index is inside the sequence. *)
Definition inside (behaviour : nat → gmap string Value → list Action) (l : list Value)
    (phi : Prop) (w : World) : Prop :=
  sequence (this w) = VArr l ∧
  (calm behaviour (trace w) = true → phi ∧ currentSequenceIdx (this w) < length l).

Definition next_inside (behaviour : nat → gmap string Value → list Action) (l : list Value)
    (next : Step) : Prop :=
  ∀ phi, keeps (inside behaviour l phi) next.

(** The state [terminate()] leaves, with [cb] as callback: [stopped], and
    the calls made so far have returned. *)
Definition ended (l : list Value) (cb : Value) (inv : list (nat * nat * gmap string Value))
    (sts : list (nat * gmap string Value)) (o : Outcome) (w : World) : Prop :=
  o = Returned ∧ stopped l inv sts w ∧ callback (this w) = cb.

(** No completion of the trace carries a property [__proto__]. *)
Definition plain (tr : list Event) : bool :=
  forallb (λ e, match e with EComplete _ data => ordinary (results data) | _ => true end) tr.

(** The errors reported in a trace, in the order of their completions. *)
Definition errors (tr : list Event) : list Value :=
  omap (λ e, match e with
             | EComplete err _ => if truthy err then Some err else None
             | _ => None
             end) tr.

(** The texts of errors, each after a space. *)
Definition texts (es : list Value) : string :=
  foldr (λ e acc, " " +:+ to_string e +:+ acc) "" es.

(** The function a function value names. *)
Definition fun_id (f : Value) : nat := match f with VFun id _ => id | _ => 0 end.

(** A function whose call on [opts] completes with data the model
    reads. *)
Definition able (behaviour : nat → gmap string Value → list Action)
    (opts : gmap string Value) (f : Value) : bool :=
  isFunction f &&
  forallb (λ a, match a with AComplete _ data => readable data | ATerminate => true end)
          (behaviour (fun_id f) opts).

(** ** Further scenarios *)

(** A run like the test of the repository for [terminate()] from inside
    a task: a task that completes late, then a task that calls
    [terminate()] and completes, then [taskB]; the completion of the
    first task; and the events of that run before and after the
    invocation of the second task. *)
Definition C4_state : Sequencer :=
  mkSequencer false (VArr [later; task_value stopping; task_value taskB]) onComplete
    VNull VNull 0 ∅ 0 VUndefined.
Definition C4_inputs : list Input := [ILate VNull (VObj {["wait" := VNum 1]})].
Definition C4_opts1 : gmap string Value := <["wait" := VNum 1]> {["sequence" := VThis]}.
Definition C4_before : list Event :=
  [EStage 0 {["sequence" := VThis]}; EInvoke 0 7 {["sequence" := VThis]};
   EComplete VNull (VObj {["wait" := VNum 1]})].
Definition C4_after : list Event :=
  [EComplete VNull (VObj {["funcTerminate" := VNum 5]});
   ECallback VUndefined (VObj {["funcTerminate" := VNum 5]})].

(** A group of a task that completes late and a task that fails, then a
    task that completes late; and the two late completions, the first
    with an error. *)
Definition C7_state : Sequencer :=
  mkSequencer false (VArr [VArr [later; task_value failing]; later]) onComplete
    (VObj x_is_1) VNull 0 ∅ 0 VUndefined.
Definition C7_inputs : list Input :=
  [ILate (VStr "late") (VObj {["one" := VNum 1]}); ILate VNull (VObj {["two" := VNum 2]})].

(** A group whose first member calls [terminate()], in a sequence of
    two stages. *)
Definition X16_state : Sequencer :=
  mkSequencer false (VArr [VArr [task_value stopping; later; task_value taskA]; later])
    onComplete VNull VNull 0 ∅ 0 VUndefined.

(** * Reasoning about method bodies *)

Lemma hoare_ret (P : World → Prop) (Q : Outcome → World → Prop) :
  (∀ w, P w → Q Returned w) → hoare P ret Q.
Proof. intros H w Hw. by apply H. Qed.

Lemma hoare_throw (P : World → Prop) (Q : Outcome → World → Prop) v :
  (∀ w, P w → Q (Threw v) w) → hoare P (throw v) Q.
Proof. intros H w Hw. by apply H. Qed.

Lemma hoare_unmodelled (P : World → Prop) (Q : Outcome → World → Prop) :
  (∀ w, P w → Q Unmodelled w) → hoare P unmodelled Q.
Proof. intros H w Hw. by apply H. Qed.

Lemma hoare_update (P : World → Prop) (Q : Outcome → World → Prop) f :
  (∀ w, P w → Q Returned (mkWorld (f (this w)) (trace w))) → hoare P (update f) Q.
Proof. intros H w Hw. by apply H. Qed.

Lemma hoare_emit (P : World → Prop) (Q : Outcome → World → Prop) e :
  (∀ w, P w → Q Returned (mkWorld (this w) (trace w ++ [e]))) → hoare P (emit e) Q.
Proof. intros H w Hw. by apply H. Qed.

Lemma hoare_reading (P : World → Prop) (Q : Outcome → World → Prop) k :
  (∀ s, hoare (λ w, P w ∧ this w = s) (k s) Q) → hoare P (reading k) Q.
Proof. intros H w Hw. unfold reading. by apply (H (this w)). Qed.

Lemma hoare_seq (P : World → Prop) (R Q : Outcome → World → Prop) a b :
  hoare P a R →
  (∀ o w, o ≠ Returned → R o w → Q o w) →
  hoare (R Returned) b Q →
  hoare P (a >> b) Q.
Proof.
  intros Ha Hstop Hb w Hw. unfold andThen.
  specialize (Ha w Hw). destruct (a w) as [o w']; simpl in *.
  destruct o; try (by apply Hstop). by apply Hb.
Qed.

Lemma hoare_weaken (P P' : World → Prop) (Q Q' : Outcome → World → Prop) a :
  hoare P' a Q' → (∀ w, P w → P' w) → (∀ o w, Q' o w → Q o w) → hoare P a Q.
Proof. intros H HP HQ w Hw. apply HQ, H, HP, Hw. Qed.

Lemma hoare_call_callback (P : World → Prop) (Q : Outcome → World → Prop) f a b :
  (∀ w, P w → Q Returned (mkWorld (this w) (trace w ++ [ECallback a b]))) →
  (∀ w, P w → Q (Threw TypeError) w) →
  hoare P (call_callback f a b) Q.
Proof.
  intros H1 H2. unfold call_callback. destruct (isFunction f).
  - by apply hoare_emit.
  - by apply hoare_throw.
Qed.

(** When the first part always returns. *)
Lemma hoare_then (P R : World → Prop) (Q : Outcome → World → Prop) a b :
  hoare P a (λ o w, o = Returned ∧ R w) → hoare R b Q → hoare P (a >> b) Q.
Proof.
  intros Ha Hb. eapply hoare_seq; [exact Ha | by intros o w Ho [? _] | ].
  eapply hoare_weaken; [exact Hb | by intros w [_ ?] | done].
Qed.

(** * The fuel of [go] is enough *)

Section Fuel.

Variable behaviour : nat → gmap string Value → list Action.
Variable l : list Value.

Lemma safe_seq m a b : safe l m a → safe l m b → safe l m (a >> b).
Proof.
  intros Ha Hb. eapply hoare_seq; [exact Ha | by intros | ].
  eapply hoare_weaken; [exact Hb | by intros ? [] | done].
Qed.

Lemma safe_ret m : safe l m ret.
Proof. by apply hoare_ret. Qed.

Lemma safe_throw m v : safe l m (throw v).
Proof. by apply hoare_throw. Qed.

Lemma safe_unmodelled m : safe l m unmodelled.
Proof. by apply hoare_unmodelled. Qed.

Lemma safe_emit m e : safe l m (emit e).
Proof. by apply hoare_emit. Qed.

Lemma safe_update m f :
  (∀ s, sequence (f s) = sequence s ∧ currentSequenceIdx (f s) = currentSequenceIdx s) →
  safe l m (update f).
Proof.
  intros Hf. apply hoare_update. intros w [Hl Hm]. split; [done|].
  unfold within; simpl. destruct (Hf (this w)) as [-> ->]. done.
Qed.

Lemma safe_reading m k : (∀ s, safe l m (k s)) → safe l m (reading k).
Proof.
  intros H. apply hoare_reading. intros s.
  eapply hoare_weaken; [apply (H s) | by intros ? [] | done].
Qed.

Lemma safe_terminate m : safe l m terminate.
Proof.
  unfold terminate. apply hoare_reading. intros s.
  destruct (stages_of (sequence s)) as [l'|] eqn:Hs.
  - apply hoare_update. intros w [[Hl Hm] <-]. split; [done|].
    rewrite Hs in Hl. injection Hl as ->. split; simpl; [done|lia].
  - apply hoare_unmodelled. by intros w [? _].
Qed.

Lemma safe_handleSequenceFunctionComplete m next :
  safe_next l m next → safe l (S m) (handleSequenceFunctionComplete next).
Proof.
  intros Hnext. unfold handleSequenceFunctionComplete.
  apply hoare_reading. intros s.
  destruct (stages_of (sequence s)) as [l'|] eqn:Hs.
  2: { apply hoare_unmodelled. by intros w [? _]. }
  destruct (length l' <=? currentSequenceIdx s + 1)%nat eqn:Hlast.
  - destruct (truthy (callback s)).
    + apply hoare_call_callback; intros w [[Hl Hm] _]; (split; [done | by split]).
    + apply hoare_ret. by intros w [? _].
  - apply Nat.leb_gt in Hlast.
    eapply hoare_seq with
      (R := λ o w, o = Returned ∧ within l m w ∧ 1 ≤ length l - currentSequenceIdx (this w)).
    + apply hoare_update. intros w [[Hl Hm] <-]. rewrite Hs in Hl. injection Hl as ->.
      split; [done|]. unfold within; simpl. rewrite Hs. split; [split; [done|lia] | lia].
    + by intros o w Ho [? _].
    + eapply hoare_weaken; [exact Hnext | by intros w (_ & ? & ?) | ].
      intros o w [? [? ?]]. split; [done|]. split; [done|lia].
Qed.

Lemma safe_handlePartialSequenceComplete m next err data :
  safe_next l m next → safe l (S m) (handlePartialSequenceComplete next err data).
Proof.
  intros Hnext. unfold handlePartialSequenceComplete.
  repeat apply safe_seq.
  - apply safe_emit.
  - apply safe_update. intros s. by destruct (concurrentFunctions s =? 0)%nat.
  - destruct (truthy data); [|apply safe_ret].
    destruct (enumerable data); [|apply safe_unmodelled].
    by apply safe_update.
  - destruct (truthy err); [|apply safe_ret]. by apply safe_update.
  - apply safe_reading. intros s. destruct (concurrentFunctions s =? 0)%nat.
    + by apply safe_handleSequenceFunctionComplete.
    + apply safe_ret.
Qed.

Lemma safe_run_body m next body :
  safe_next l m next → safe l (S m) (run_body next body).
Proof.
  intros Hnext. induction body as [|[|err data] rest IH]; simpl.
  - apply safe_ret.
  - apply safe_seq; [apply safe_terminate | exact IH].
  - apply safe_seq; [by apply safe_handlePartialSequenceComplete | exact IH].
Qed.

Lemma safe_call_task m next stage f opts :
  safe_next l m next → safe l (S m) (call_task behaviour next stage f opts).
Proof.
  intros Hnext. destruct f; simpl; try apply safe_throw.
  apply safe_seq; [apply safe_emit | by apply safe_run_body].
Qed.

Lemma safe_dispatch m next stage fs opts :
  safe_next l m next → safe l (S m) (dispatch behaviour next stage fs opts).
Proof.
  intros Hnext. induction fs as [|f rest IH]; simpl.
  - apply safe_ret.
  - apply safe_seq; [by apply safe_call_task | exact IH].
Qed.

Lemma safe_processNext_body m next :
  safe_next l m next → safe l (S m) (processNext_body behaviour next).
Proof.
  intros Hnext. unfold processNext_body. apply safe_reading. intros s.
  destruct (build_opts s) as [opts|]; [|apply safe_unmodelled].
  apply safe_seq; [apply safe_emit|].
  apply safe_seq; [by apply safe_update|].
  destruct (stages_of (sequence s)) as [l'|]; [|apply safe_unmodelled].
  destruct (nth (currentSequenceIdx s) l' VUndefined);
    try (by apply safe_call_task).
  apply safe_seq; [by apply safe_update | by apply safe_dispatch].
Qed.

Lemma safe_processNextSequenceFunction fuel :
  safe_next l fuel (processNextSequenceFunction behaviour fuel).
Proof.
  induction fuel as [|fuel IH]; simpl.
  - intros w [[_ Hm] Hpos]. lia.
  - eapply hoare_weaken; [by apply safe_processNext_body | by intros w [? _] | done].
Qed.

End Fuel.

(** [go()] on an array of stages always ends: it returns or throws, it
    does not run out of fuel. *)
Lemma go_fuel_enough behaviour (w : World) :
  isArray (sequence (this w)) = true → (go behaviour w).1 ≠ OutOfFuel.
Proof.
  intros Harr. destruct (sequence (this w)) as [| | | | | |l| | |] eqn:Hseq; try done.
  unfold go, reading, fuel_of. rewrite Hseq. simpl items_of.
  change (processNextSequenceFunction behaviour (S (length l)))
    with (processNext_body behaviour (processNextSequenceFunction behaviour (length l))).
  apply (safe_processNext_body behaviour l (length l)).
  - apply safe_processNextSequenceFunction.
  - split; [by rewrite Hseq | lia].
Qed.

(** A late completion likewise. *)
Lemma complete_fuel_enough behaviour err data (w : World) :
  isArray (sequence (this w)) = true → (complete behaviour err data w).1 ≠ OutOfFuel.
Proof.
  intros Harr. destruct (sequence (this w)) as [| | | | | |l| | |] eqn:Hseq; try done.
  unfold complete, reading, fuel_of. rewrite Hseq. simpl items_of.
  apply (safe_handlePartialSequenceComplete l (S (length l))).
  - apply safe_processNextSequenceFunction.
  - split; [by rewrite Hseq | lia].
Qed.

(** * One stage of well-behaved tasks *)

Lemma andThen_ret_r (a : Step) w : (a >> ret) w = a w.
Proof. unfold andThen, ret. by destruct (a w) as [[] ?]. Qed.

Lemma truthy_joined a b : truthy (VStr (a +:+ " " +:+ b)) = true.
Proof. by destruct a. Qed.

Lemma complete_object next err d ic sq cb ar st idx pd cf pe tr :
  handlePartialSequenceComplete next err (VObj d)
    (mkWorld (mkSequencer ic sq cb ar st idx pd cf pe) tr) =
  let w' := mkWorld (mkSequencer ic sq cb ar st idx (d ∪ pd) (pred cf) (join_err pe err))
                    (tr ++ [EComplete err (VObj d)]) in
  if (pred cf =? 0)%nat then handleSequenceFunctionComplete next w' else (Returned, w').
Proof.
  unfold handlePartialSequenceComplete, andThen, emit, update, reading, join_err.
  change (truthy (VObj d)) with true. cbv iota.
  destruct (truthy err) eqn:He; destruct cf as [|cf];
    cbn -[truthy to_string String.append];
    rewrite ?truthy_joined, ?Nat.sub_0_r; try done;
    by destruct (cf =? 0)%nat.
Qed.

Section Stage.

Variable behaviour : nat → gmap string Value → list Action.
Variable l : list Value.

Lemma call_obeying next k t opts ic cb ar st idx pd cf pe tr :
  obeys behaviour t →
  call_task behaviour next k (task_value t) opts
    (mkWorld (mkSequencer ic (VArr l) cb ar st idx pd cf pe) tr) =
  let w' := mkWorld (mkSequencer ic (VArr l) cb ar st (idx_after l idx [t])
                       (t_data t ∪ pd) (pred cf) (join_err pe (t_err t)))
                    (tr ++ task_events k opts [t]) in
  if (pred cf =? 0)%nat then handleSequenceFunctionComplete next w' else (Returned, w').
Proof.
  intros Ht. unfold call_task, task_value, idx_after, task_events. simpl existsb.
  rewrite Ht. unfold task_body, andThen at 1, emit. cbv iota beta.
  rewrite orb_false_r.
  destruct (t_stop t); simpl app; simpl run_body.
  - unfold andThen at 1, terminate, reading, update, set_currentSequenceIdx. simpl.
    rewrite andThen_ret_r, complete_object. by rewrite <- app_assoc.
  - rewrite andThen_ret_r, complete_object. by rewrite <- app_assoc.
Qed.

Lemma merged_onto_cons d t ts : merged_onto d (t :: ts) = merged_onto (t_data t ∪ d) ts.
Proof. done. Qed.

Lemma joined_cons e t ts : joined e (t :: ts) = joined (join_err e (t_err t)) ts.
Proof. done. Qed.

Lemma dispatch_obeying next k opts ic cb ar st t rest : ∀ idx pd pe tr,
  Forall (obeys behaviour) (t :: rest) →
  dispatch behaviour next k (map task_value (t :: rest)) opts
    (mkWorld (mkSequencer ic (VArr l) cb ar st idx pd (S (length rest)) pe) tr) =
  handleSequenceFunctionComplete next
    (mkWorld (mkSequencer ic (VArr l) cb ar st (idx_after l idx (t :: rest))
                (merged_onto pd (t :: rest)) 0 (joined pe (t :: rest)))
             (tr ++ task_events k opts (t :: rest))).
Proof.
  revert t. induction rest as [|t' rest IH]; intros t idx pd pe tr Hall.
  - apply Forall_cons in Hall as [Ht _].
    change (dispatch behaviour next k (map task_value [t]) opts)
      with (call_task behaviour next k (task_value t) opts >> ret).
    by rewrite andThen_ret_r, call_obeying.
  - apply Forall_cons in Hall as [Ht Hrest].
    change (dispatch behaviour next k (map task_value (t :: t' :: rest)) opts)
      with (call_task behaviour next k (task_value t) opts >>
            dispatch behaviour next k (map task_value (t' :: rest)) opts).
    unfold andThen at 1. rewrite call_obeying by done. simpl pred. simpl Nat.eqb.
    cbv iota zeta beta. rewrite IH by done.
    rewrite merged_onto_cons, joined_cons. f_equal. f_equal.
    + unfold idx_after. simpl existsb. by destruct (t_stop t), (t_stop t'), (existsb t_stop rest).
    + rewrite <- app_assoc. done.
Qed.

Lemma body_obeying next st ic cb ar se idx pd pe tr base :
  base_opts ar = Some base →
  nth idx l VUndefined = stage_value st →
  Forall (obeys behaviour) (stage_tasks st) →
  processNext_body behaviour next
    (mkWorld (mkSequencer ic (VArr l) cb ar se idx pd 0 pe) tr) =
  let ts := stage_tasks st in
  let w' := mkWorld (mkSequencer ic (VArr l) cb ar se (idx_after l idx ts)
                       (merged ts) 0 (joined pe ts))
                    (tr ++ stage_events idx (pd ∪ base) ts) in
  if is_empty_group st then (Returned, w') else handleSequenceFunctionComplete next w'.
Proof.
  intros Hbase Hnth Hall.
  unfold processNext_body, reading, build_opts. cbn [this args pendingData].
  rewrite Hbase. cbn [mbind option_bind].
  unfold andThen at 1, emit. cbn [this trace currentSequenceIdx].
  unfold andThen at 1, update, set_pendingData.
  cbn [this trace sequence currentSequenceIdx stages_of isConstructing callback args
       startupErrorText concurrentFunctions pendingErr].
  rewrite Hnth. unfold stage_events.
  destruct st as [t|[|t rest]]; cbn [stage_value stage_tasks is_empty_group task_value].
  - change (VFun (t_fun t) (t_src t)) with (task_value t).
    apply Forall_cons in Hall as [Ht _]. rewrite call_obeying by done.
    cbv zeta. by rewrite <- app_assoc.
  - unfold andThen, update, set_concurrentFunctions, idx_after, task_events. simpl.
    done.
  - unfold andThen at 1, update, set_concurrentFunctions.
    cbn [this trace sequence currentSequenceIdx stages_of isConstructing callback args
         startupErrorText concurrentFunctions pendingErr pendingData].
    change (length (map task_value (t :: rest))) with (S (length (map task_value rest))).
    rewrite length_map, dispatch_obeying by done. cbv zeta. by rewrite <- app_assoc.
Qed.

Lemma stage_done next ic cb ar se idx pd pe tr :
  handleSequenceFunctionComplete next
    (mkWorld (mkSequencer ic (VArr l) cb ar se idx pd 0 pe) tr) =
  if (length l <=? idx + 1)%nat then
    (terminal_outcome cb,
     mkWorld (mkSequencer ic (VArr l) cb ar se idx pd 0 pe) (tr ++ terminal_events cb pe pd))
  else
    next (mkWorld (mkSequencer ic (VArr l) cb ar se (idx + 1) pd 0 pe) tr).
Proof.
  unfold handleSequenceFunctionComplete, reading. simpl.
  destruct (length l <=? idx + 1)%nat; [|done].
  unfold terminal_outcome, terminal_events, call_callback.
  destruct (truthy cb), (isFunction cb); simpl; rewrite ?app_nil_r; done.
Qed.

End Stage.

(** * Runs of well-behaved tasks *)

Lemma joined_app e ts1 ts2 : joined e (ts1 ++ ts2) = joined (joined e ts1) ts2.
Proof. apply foldl_app. Qed.

(** The engine on stages of well-behaved tasks: the stages [init] are
    played in order, then [final], where the run ends with the terminal
    callback or, on an empty group, without it; the stages [post] are
    never reached. *)
Lemma play_run behaviour cb ar base init : ∀ final post pre fuel ic se pd pe tr,
  base_opts ar = Some base →
  Forall passes init →
  Forall (obeys behaviour) ((init ++ [final]) ≫= stage_tasks) →
  post = [] ∨ stops final = true ∨ is_empty_group final = true →
  length init < fuel →
  let l := pre ++ map stage_value init ++ stage_value final :: post in
  let r := processNextSequenceFunction behaviour fuel
             (mkWorld (mkSequencer ic (VArr l) cb ar se (length pre) pd 0 pe) tr) in
  r.1 = (if is_empty_group final then Returned else terminal_outcome cb) ∧
  trace r.2 =
    tr ++ play (length pre) base pd (init ++ [final]) ++
    (if is_empty_group final then []
     else terminal_events cb (joined pe ((init ++ [final]) ≫= stage_tasks))
            (merged (stage_tasks final))) ∧
  (stops final = true →
   sequence (this r.2) = VArr l ∧ currentSequenceIdx (this r.2) = length l).
Proof.
  induction init as [|st init IH]; intros final post pre fuel ic se pd pe tr
    Hbase Hpass Hobey Hend Hfuel l r; subst r;
    (destruct fuel as [|fuel]; [lia|]);
    change (processNextSequenceFunction behaviour (S fuel))
      with (processNext_body behaviour (processNextSequenceFunction behaviour fuel)).
  - simpl in Hobey. rewrite app_nil_r in Hobey.
    rewrite (body_obeying behaviour l _ final _ _ _ _ _ _ _ _ base); [|done| |done].
    2: { subst l. simpl. by rewrite nth_middle. }
    cbv zeta. cbn [app play mbind list_bind]. rewrite !app_nil_r.
    destruct (is_empty_group final) eqn:Hempty.
    { rewrite app_nil_r. repeat split; try done;
        unfold is_empty_group, stops in *; by destruct (stage_tasks final). }
    rewrite stage_done.
    assert ((length l <=? idx_after l (length pre) (stage_tasks final) + 1) = true) as ->.
    { apply Nat.leb_le. unfold idx_after. destruct Hend as [->|[Hstop|?]]; [| |congruence].
      - subst l. simpl. rewrite length_app. simpl. destruct (existsb _ _); lia.
      - unfold stops in Hstop. rewrite Hstop. lia. }
    simpl. split; [done|]. split; [by rewrite <- app_assoc|].
    intros Hstop. split; [done|]. unfold idx_after. unfold stops in Hstop. by rewrite Hstop.
  - apply Forall_cons in Hpass as [[Hne Hns] Hpass].
    cbn [app mbind list_bind] in Hobey. apply Forall_app in Hobey as [Hst Hobey].
    rewrite (body_obeying behaviour l _ st _ _ _ _ _ _ _ _ base); [|done| |done].
    2: { subst l. simpl. by rewrite nth_middle. }
    cbv zeta. rewrite Hne, stage_done.
    unfold stops in Hns. unfold idx_after. rewrite Hns.
    assert ((length l <=? length pre + 1) = false) as ->.
    { apply Nat.leb_gt. subst l. rewrite length_app. simpl. rewrite length_app. simpl. lia. }
    assert (l = (pre ++ [stage_value st]) ++ map stage_value init ++ stage_value final :: post) as Hl.
    { subst l. by rewrite <- app_assoc. }
    assert (length pre + 1 = length (pre ++ [stage_value st])) as ->.
    { rewrite length_app. simpl. lia. }
    rewrite Hl.
    destruct (IH final post (pre ++ [stage_value st]) fuel ic se
                (merged (stage_tasks st)) (joined pe (stage_tasks st))
                (tr ++ stage_events (length pre) (pd ∪ base) (stage_tasks st)))
      as (Hout & Htr & Hstop); [done..|simpl in Hfuel; lia|].
    cbv zeta in Hout, Htr, Hstop. split; [exact Hout|]. split; [|exact Hstop].
    rewrite Htr. cbn [app play mbind list_bind].
    rewrite joined_app, length_app, <- !app_assoc. simpl length.
    by rewrite Nat.add_1_r.
Qed.

(** * The terminal callback under the task contract *)

Lemma outstanding_snoc tr e : outstanding (tr ++ [e]) = balance (outstanding tr) e.
Proof. unfold outstanding. by rewrite foldl_app. Qed.

Lemma callbacks_snoc tr e :
  callbacks (tr ++ [e]) =
  callbacks tr + match e with ECallback _ _ => 1 | _ => 0 end.
Proof.
  unfold callbacks, terminal_calls. rewrite omap_app, length_app.
  by destruct e.
Qed.

Section Contract.

Variable behaviour : nat → gmap string Value → list Action.

Ltac tally :=
  repeat match goal with
         | H : _ ∧ _ |- _ => destruct H
         | H : _ ∨ _ |- _ => destruct H
         | |- _ ∧ _ => split
         | |- _ → _ => intro
         end;
  try done; try lia; try (left; lia); try (right; lia);
  try match goal with H : ?a = VArr [] → _, E : ?a = VArr [] |- _ => specialize (H E); tally end.

Lemma keeps_seq P a b : keeps P a → keeps P b → keeps P (a >> b).
Proof. intros Ha Hb. eapply hoare_seq; [exact Ha | by intros | exact Hb]. Qed.

Lemma items_of_stages v l : stages_of v = Some l → items_of v = l.
Proof. destruct v; try done. by intros [= ->]. Qed.

Lemma settled_mono p p' w : p' ≤ p → settled p w → settled p' w.
Proof.
  unfold settled. intros Hp. destruct (outstanding (trace w)); [|done]. tally.
Qed.

Lemma ready_settled p w : ready p w → settled p w.
Proof.
  unfold ready, settled. destruct (outstanding (trace w)); [|done]. tally.
Qed.

Lemma finished_settled p w : finished p w → settled p w.
Proof.
  unfold finished, settled. destruct (outstanding (trace w)); [|done]. tally.
Qed.

Lemma counted_settled p w : counted p w → settled p w.
Proof.
  unfold counted, settled. destruct (outstanding (trace w)); [|done]. tally.
Qed.

Lemma arrived_settled p w : arrived p w → settled p w.
Proof.
  unfold arrived, settled. destruct (outstanding (trace w)); [|done]. tally.
Qed.

Lemma settled_terminate p : keeps (settled p) terminate.
Proof.
  unfold terminate. apply hoare_reading. intros s.
  destruct (stages_of (sequence s)) as [l|] eqn:Hl.
  - apply hoare_update. intros w [H <-]. revert H. unfold settled, stage_now. simpl.
    rewrite (items_of_stages _ _ Hl), (nth_overflow l VUndefined (Nat.le_refl (length l))).
    destruct (outstanding (trace w)); [|done]. tally.
  - apply hoare_unmodelled. by intros w [? _].
Qed.

Lemma settled_handleSequenceFunctionComplete next p :
  next_ok next →
  hoare (finished p) (handleSequenceFunctionComplete next) (λ _, settled p).
Proof.
  intros Hnext. unfold handleSequenceFunctionComplete.
  apply hoare_reading. intros s. destruct (stages_of (sequence s)) as [l|].
  2: { apply hoare_unmodelled. intros w [? _]. by apply finished_settled. }
  destruct (length l <=? currentSequenceIdx s + 1).
  - destruct (truthy (callback s)).
    + apply hoare_call_callback; intros w [H _]; [|by apply finished_settled].
      revert H. unfold finished, settled, stage_now. simpl.
      rewrite outstanding_snoc, callbacks_snoc.
      destruct (outstanding (trace w)); [|done]. simpl. tally.
    + apply hoare_ret. intros w [? _]. by apply finished_settled.
  - eapply hoare_seq with (R := λ _, ready p).
    + apply hoare_update. intros w [H _]. revert H. unfold finished, ready. simpl.
      destruct (outstanding (trace w)); [|done]. tally.
    + intros o w _. apply ready_settled.
    + apply Hnext.
Qed.

Lemma settled_handlePartialSequenceComplete next p err data :
  next_ok next →
  keeps (settled p) (handlePartialSequenceComplete next err data).
Proof.
  intros Hnext. unfold handlePartialSequenceComplete.
  eapply hoare_seq with (R := λ _, arrived p);
    [|intros ? ? _; apply arrived_settled|].
  { apply hoare_emit. intros w. unfold settled, arrived, stage_now. simpl.
    rewrite outstanding_snoc, callbacks_snoc.
    destruct (outstanding (trace w)) as [[|o]|]; simpl; [done| |done].
    intros (H1 & H2 & H3). split; [tally|]. split; [tally|].
    intros He. specialize (H3 He). lia. }
  eapply hoare_seq with (R := λ _, counted p);
    [|intros ? ? _; apply counted_settled|].
  { apply hoare_update. intros w. unfold arrived, counted, stage_now. cbn [trace this].
    destruct (outstanding (trace w)); [|done].
    destruct (concurrentFunctions (this w) =? 0) eqn:Hcf; simpl.
    - apply Nat.eqb_eq in Hcf. tally.
    - apply Nat.eqb_neq in Hcf. tally. }
  eapply hoare_seq with (R := λ _, counted p);
    [|intros ? ? _; apply counted_settled|].
  { destruct (truthy data); [|by apply hoare_ret].
    destruct (enumerable data); [by apply hoare_update | by apply hoare_unmodelled]. }
  eapply hoare_seq with (R := λ _, counted p);
    [|intros ? ? _; apply counted_settled|].
  { destruct (truthy err); [by apply hoare_update | by apply hoare_ret]. }
  apply hoare_reading. intros s.
  destruct (concurrentFunctions s =? 0) eqn:Hcf.
  - apply Nat.eqb_eq in Hcf.
    eapply hoare_weaken; [by apply (settled_handleSequenceFunctionComplete next p)| |done].
    intros w [H <-]. revert H. unfold counted, finished.
    destruct (outstanding (trace w)); [|done]. tally.
  - apply hoare_ret. intros w [? _]. by apply counted_settled.
Qed.

Lemma settled_run_body next p body :
  next_ok next → keeps (settled p) (run_body next body).
Proof.
  intros Hnext. induction body as [|[|err data] rest IH]; simpl.
  - by apply hoare_ret.
  - apply keeps_seq; [apply settled_terminate | exact IH].
  - apply keeps_seq; [by apply settled_handlePartialSequenceComplete | exact IH].
Qed.

Lemma settled_call_task next p stage f opts :
  next_ok next →
  hoare (settled (S p)) (call_task behaviour next stage f opts) (λ _, settled p).
Proof.
  intros Hnext.
  assert (hoare (settled (S p)) (throw TypeError) (λ _, settled p)) as Hthrow.
  { apply hoare_throw. intros w. apply settled_mono. lia. }
  destruct f; simpl; try exact Hthrow.
  eapply hoare_seq with (R := λ _, settled p); [|done|by apply settled_run_body].
  apply hoare_emit. intros w. unfold settled, stage_now. simpl.
  rewrite outstanding_snoc, callbacks_snoc.
  destruct (outstanding (trace w)) as [o|]; simpl; [|done].
  intros (H1 & H2 & H3). split; [tally|]. split; [tally|].
  intros He. specialize (H3 He). lia.
Qed.

Lemma settled_dispatch next p stage fs opts :
  next_ok next →
  hoare (settled (length fs + p)) (dispatch behaviour next stage fs opts) (λ _, settled p).
Proof.
  intros Hnext. induction fs as [|f rest IH]; simpl.
  - by apply hoare_ret.
  - eapply hoare_seq with (R := λ _, settled (length rest + p)).
    + by apply settled_call_task.
    + intros o w _. apply settled_mono. lia.
    + exact IH.
Qed.

Lemma settled_processNext_body next : next_ok next → next_ok (processNext_body behaviour next).
Proof.
  intros Hnext p. unfold processNext_body. apply hoare_reading. intros s.
  destruct (build_opts s) as [opts|].
  2: { apply hoare_unmodelled. intros w [? _]. by apply ready_settled. }
  eapply hoare_seq with
    (R := λ _ w, ready p w ∧ sequence (this w) = sequence s ∧
                 currentSequenceIdx (this w) = currentSequenceIdx s).
  { apply hoare_emit. intros w [H <-]. split; [|done]. revert H. unfold ready. simpl.
    rewrite outstanding_snoc, callbacks_snoc.
    destruct (outstanding (trace w)); simpl; [|done]. tally. }
  { intros o w _ [? _]. by apply ready_settled. }
  eapply hoare_seq with
    (R := λ _ w, ready p w ∧ sequence (this w) = sequence s ∧
                 currentSequenceIdx (this w) = currentSequenceIdx s).
  { by apply hoare_update. }
  { intros o w _ [? _]. by apply ready_settled. }
  destruct (stages_of (sequence s)) as [l|] eqn:Hl.
  2: { apply hoare_unmodelled. intros w [? _]. by apply ready_settled. }
  apply items_of_stages in Hl.
  assert (∀ f, f ≠ VArr [] → nth (currentSequenceIdx s) l VUndefined = f →
               hoare (λ w, ready p w ∧ sequence (this w) = sequence s ∧
                           currentSequenceIdx (this w) = currentSequenceIdx s)
                 (call_task behaviour next (currentSequenceIdx s) f opts)
                 (λ _, settled p)) as Hsingle.
  { intros f Hf Hnth. eapply hoare_weaken; [by apply (settled_call_task next p)| |done].
    intros w (H & Hsq & Hidx). revert H. unfold ready, settled, stage_now.
    rewrite Hsq, Hidx, Hl, Hnth.
    destruct (outstanding (trace w)); [|done]. tally. }
  destruct (nth (currentSequenceIdx s) l VUndefined) as [| | | | | |fs| | |] eqn:Hnth;
    try (by apply Hsingle).
  eapply hoare_seq with (R := λ _, settled (length fs + p)).
  - apply hoare_update. intros w (H & Hsq & Hidx). revert H.
    unfold ready, settled, stage_now. simpl. rewrite Hsq, Hidx, Hl, Hnth.
    destruct (outstanding (trace w)); [|done].
    intros (-> & -> & _ & ->). split; [left; lia|]. split; [by left|].
    intros [= ->]. done.
  - intros o w _. apply settled_mono. lia.
  - by apply settled_dispatch.
Qed.

Lemma settled_processNextSequenceFunction fuel :
  next_ok (processNextSequenceFunction behaviour fuel).
Proof.
  induction fuel as [|fuel IH]; simpl.
  - intros p w. apply ready_settled.
  - by apply settled_processNext_body.
Qed.

Lemma settled_input i : keeps (settled 0) (input behaviour i).
Proof.
  destruct i as [err data|]; simpl.
  - unfold complete. apply hoare_reading. intros s.
    eapply hoare_weaken;
      [apply (settled_handlePartialSequenceComplete _ 0),
         settled_processNextSequenceFunction | by intros w [? _] | done].
  - apply settled_terminate.
Qed.

Lemma settled_inputs ins w : settled 0 w → settled 0 (inputs behaviour ins w).
Proof.
  revert w. induction ins as [|i rest IH]; intros w Hw; simpl; [done|].
  apply IH. by apply settled_input.
Qed.

Lemma settled_go : hoare (ready 0) (go behaviour) (λ _, settled 0).
Proof.
  unfold go. apply hoare_reading. intros s.
  eapply hoare_weaken; [apply settled_processNextSequenceFunction | by intros w [? _] | done].
Qed.

End Contract.

(** * Construction from a configuration object *)

Lemma prop_config_sequence sq ar cb : prop (config sq ar cb) "sequence" = sq.
Proof. reflexivity. Qed.
Lemma prop_config_args sq ar cb : prop (config sq ar cb) "args" = ar.
Proof. reflexivity. Qed.
Lemma prop_config_callback sq ar cb : prop (config sq ar cb) "callback" = cb.
Proof. reflexivity. Qed.

Lemma constructor_blank : constructor [] (mkWorld fresh []) = (Returned, mkWorld blank []).
Proof. reflexivity. Qed.

Lemma construct_config l ar cb :
  acceptable_callback cb → acceptable_args ar →
  construct [config (VArr l) ar cb] (mkWorld blank []) =
  (Returned,
   mkWorld (mkSequencer false (VArr l) (or_null cb) (or_null ar) VNull 0 ∅ 0 VUndefined) []).
Proof.
  intros Hcb Har. unfold construct, blank, or_null.
  cbn [length Nat.eqb andb nth]. 
  change (isFunction (config (VArr l) ar cb)) with false.
  change (isPlainObject (config (VArr l) ar cb)) with true.
  cbn [negb andb]. unfold objConstructor.
  rewrite !prop_config_sequence, !prop_config_args, !prop_config_callback.
  change (truthy (VArr l)) with true. change (isArray (VArr l)) with true.
  destruct Hcb as [Hf|Ht], Har as [Hp|Ha];
    rewrite ?Ht, ?Ha, ?Hf, ?Hp.
  - assert (truthy cb = true) as -> by (by destruct cb).
    assert (truthy ar = true) as -> by (by destruct ar). reflexivity.
  - assert (truthy cb = true) as -> by (by destruct cb). reflexivity.
  - assert (truthy ar = true) as -> by (by destruct ar). reflexivity.
  - reflexivity.
Qed.

Lemma run_config behaviour l ar cb ins :
  acceptable_callback cb → acceptable_args ar →
  run behaviour [config (VArr l) ar cb] ins =
  inputs behaviour ins
    (go behaviour
       (mkWorld (mkSequencer false (VArr l) (or_null cb) (or_null ar) VNull 0 ∅ 0 VUndefined) [])).2.
Proof.
  intros Hcb Har. unfold run, bsync_sequence, andThen.
  by rewrite constructor_blank, construct_config.
Qed.

(** * What the trace keeps *)

Section Lasting.

Variable behaviour : nat → gmap string Value → list Action.

(** A property of the trace that no further event undoes. *)
Variable P : list Event → Prop.
Hypothesis P_lasts : ∀ tr e, P tr → P (tr ++ [e]).

Lemma lasting_seq a b : lasting P a → lasting P b → lasting P (a >> b).
Proof. intros Ha Hb. eapply hoare_seq; [exact Ha | by intros | exact Hb]. Qed.

Lemma lasting_update f : lasting P (update f).
Proof. by apply hoare_update. Qed.

Lemma lasting_emit e : lasting P (emit e).
Proof. apply hoare_emit. intros w. apply P_lasts. Qed.

Lemma lasting_reading k : (∀ s, lasting P (k s)) → lasting P (reading k).
Proof.
  intros H. apply hoare_reading. intros s.
  eapply hoare_weaken; [apply (H s) | by intros ? [] | done].
Qed.

Lemma lasting_terminate : lasting P terminate.
Proof.
  apply lasting_reading. intros s. destruct (stages_of (sequence s)).
  - apply lasting_update.
  - by apply hoare_unmodelled.
Qed.

Lemma lasting_handleSequenceFunctionComplete next :
  lasting P next → lasting P (handleSequenceFunctionComplete next).
Proof.
  intros Hnext. apply lasting_reading. intros s.
  destruct (stages_of (sequence s)); [|by apply hoare_unmodelled].
  destruct (_ <=? _).
  - destruct (truthy (callback s)); [|by apply hoare_ret].
    apply hoare_call_callback; [|done]. intros w. apply P_lasts.
  - apply lasting_seq; [apply lasting_update | exact Hnext].
Qed.

Lemma lasting_handlePartialSequenceComplete next err data :
  lasting P next → lasting P (handlePartialSequenceComplete next err data).
Proof.
  intros Hnext. unfold handlePartialSequenceComplete. repeat apply lasting_seq.
  - apply lasting_emit.
  - apply lasting_update.
  - destruct (truthy data); [|by apply hoare_ret].
    destruct (enumerable data); [apply lasting_update | by apply hoare_unmodelled].
  - destruct (truthy err); [apply lasting_update | by apply hoare_ret].
  - apply lasting_reading. intros s. destruct (_ =? _); [|by apply hoare_ret].
    by apply lasting_handleSequenceFunctionComplete.
Qed.

Lemma lasting_run_body next body : lasting P next → lasting P (run_body next body).
Proof.
  intros Hnext. induction body as [|[|err data] rest IH]; simpl.
  - by apply hoare_ret.
  - apply lasting_seq; [apply lasting_terminate | exact IH].
  - apply lasting_seq; [by apply lasting_handlePartialSequenceComplete | exact IH].
Qed.

Lemma lasting_call_task next stage f opts :
  lasting P next → lasting P (call_task behaviour next stage f opts).
Proof.
  intros Hnext. destruct f; simpl; try (by apply hoare_throw).
  apply lasting_seq; [apply lasting_emit | by apply lasting_run_body].
Qed.

Lemma lasting_dispatch next stage fs opts :
  lasting P next → lasting P (dispatch behaviour next stage fs opts).
Proof.
  intros Hnext. induction fs as [|f rest IH]; simpl.
  - by apply hoare_ret.
  - apply lasting_seq; [by apply lasting_call_task | exact IH].
Qed.

Lemma lasting_processNextSequenceFunction fuel :
  lasting P (processNextSequenceFunction behaviour fuel).
Proof.
  induction fuel as [|fuel IH]; simpl; [by intros w|].
  unfold processNext_body. apply lasting_reading. intros s.
  destruct (build_opts s); [|by apply hoare_unmodelled].
  apply lasting_seq; [apply lasting_emit|].
  apply lasting_seq; [apply lasting_update|].
  destruct (stages_of (sequence s)); [|by apply hoare_unmodelled].
  destruct (nth _ _ _); try (by apply lasting_call_task).
  apply lasting_seq; [apply lasting_update | by apply lasting_dispatch].
Qed.

Lemma lasting_input i : lasting P (input behaviour i).
Proof.
  destruct i as [err data|]; simpl; [|apply lasting_terminate].
  apply lasting_reading. intros s.
  apply lasting_handlePartialSequenceComplete, lasting_processNextSequenceFunction.
Qed.

Lemma lasting_inputs ins w : P (trace w) → P (trace (inputs behaviour ins w)).
Proof.
  revert w. induction ins as [|i rest IH]; intros w Hw; simpl; [done|].
  apply IH. by apply lasting_input.
Qed.

End Lasting.

(** Once the contract is broken it stays broken. *)
Lemma broken_lasts tr e : outstanding tr = None → outstanding (tr ++ [e]) = None.
Proof. intros H. by rewrite outstanding_snoc, H. Qed.

(** With no task outstanding, a run that respects the contract is over:
    whatever arrives, nothing more happens. *)
Lemma quiet_run_is_over behaviour ins : ∀ w,
  outstanding (trace w) = Some 0 →
  respects_contract (trace (inputs behaviour ins w)) →
  trace (inputs behaviour ins w) = trace w.
Proof.
  induction ins as [|[err data|] rest IH]; intros w Hquiet Hok; simpl in *; [done| |].
  - exfalso. apply Hok.
    apply (lasting_inputs behaviour _ broken_lasts).
    unfold complete, reading, handlePartialSequenceComplete.
    unfold andThen at 1. unfold emit at 1.
    set (w1 := mkWorld (this w) (trace w ++ [EComplete err data])).
    match goal with |- outstanding (trace (?a w1).2) = None =>
      assert (lasting (λ tr, outstanding tr = None) a) as Hrest end.
    { repeat apply lasting_seq; try apply broken_lasts.
      - apply lasting_update.
      - destruct (truthy data); [|by apply hoare_ret].
        destruct (enumerable data); [apply lasting_update | by apply hoare_unmodelled].
      - destruct (truthy err); [apply lasting_update | by apply hoare_ret].
      - apply lasting_reading. intros s. destruct (_ =? _); [|by apply hoare_ret].
        apply lasting_handleSequenceFunctionComplete; [apply broken_lasts|].
        apply lasting_processNextSequenceFunction, broken_lasts. }
    apply Hrest. subst w1. simpl. by rewrite outstanding_snoc, Hquiet.
  - assert (trace (terminate w).2 = trace w) as Htr.
    { unfold terminate, reading. by destruct (stages_of _). }
    rewrite <- Htr. apply IH; [by rewrite Htr | done].
Qed.

(** * The trace of well-behaved stages *)

Lemma balance_stage_events o k opts ts :
  foldl balance (Some o) (stage_events k opts ts) = Some o.
Proof. unfold stage_events. simpl. induction ts as [|t ts IH]; [done|]. exact IH. Qed.

Lemma balance_play o stages : ∀ k base prev,
  foldl balance (Some o) (play k base prev stages) = Some o.
Proof.
  induction stages as [|st rest IH]; intros k base prev; [done|].
  cbn [play]. by rewrite foldl_app, balance_stage_events.
Qed.

Lemma balance_terminal_events o cb err data :
  foldl balance (Some o) (terminal_events cb err data) = Some o.
Proof. unfold terminal_events. by destruct (_ && _). Qed.

Lemma terminal_calls_app tr1 tr2 :
  terminal_calls (tr1 ++ tr2) = terminal_calls tr1 ++ terminal_calls tr2.
Proof. apply omap_app. Qed.

Lemma invocations_app tr1 tr2 :
  invocations (tr1 ++ tr2) = invocations tr1 ++ invocations tr2.
Proof. apply omap_app. Qed.

Lemma terminal_calls_stage_events k opts ts : terminal_calls (stage_events k opts ts) = [].
Proof. unfold stage_events. simpl. induction ts as [|t ts IH]; [done|]. exact IH. Qed.

Lemma terminal_calls_play stages : ∀ k base prev,
  terminal_calls (play k base prev stages) = [].
Proof.
  induction stages as [|st rest IH]; intros k base prev; [done|].
  cbn [play]. by rewrite terminal_calls_app, terminal_calls_stage_events, IH.
Qed.

Lemma invocations_stage_events k opts ts :
  invocations (stage_events k opts ts) = map (λ t, (k, t_fun t, opts)) ts.
Proof.
  induction ts as [|t ts IH]; [done|].
  change (invocations (stage_events k opts (t :: ts)))
    with ((k, t_fun t, opts) :: invocations (stage_events k opts ts)).
  by rewrite IH.
Qed.

Lemma invocations_play stages : ∀ k base prev,
  invocations (play k base prev stages) = contexts k base prev stages.
Proof.
  induction stages as [|st rest IH]; intros k base prev; [done|].
  cbn [play contexts]. by rewrite invocations_app, invocations_stage_events, IH.
Qed.

Lemma invocations_terminal_events cb err data :
  invocations (terminal_events cb err data) = [].
Proof. unfold terminal_events. by destruct (_ && _). Qed.

(** Where an invocation of [contexts] comes from. *)
Lemma elem_of_contexts stages : ∀ k base prev j f opts,
  (j, f, opts) ∈ contexts k base prev stages →
  ∃ i st t, j = k + i ∧ stages !! i = Some st ∧ t ∈ stage_tasks st ∧ f = t_fun t ∧
            opts = (match i with O => prev | S i' => result_of stages i' end) ∪ base.
Proof.
  induction stages as [|st rest IH]; intros k base prev j f opts Hin; simpl in Hin.
  - by apply elem_of_nil in Hin.
  - apply elem_of_app in Hin as [Hin|Hin].
    + apply list_elem_of_fmap in Hin as (t & Heq & Ht). injection Heq as -> -> ->.
      exists 0, st, t. rewrite Nat.add_0_r. by repeat split.
    + apply IH in Hin as (i & st' & t & -> & Hst & Ht & -> & ->).
      exists (S i), st', t. repeat split; [lia|done..|].
      destruct i as [|i]; [done|]. done.
Qed.

(** A key that no task writes is not in what they merge. *)
Lemma merged_onto_lookup_None d ts x :
  d !! x = None → Forall (λ t, t_data t !! x = None) ts → merged_onto d ts !! x = None.
Proof.
  revert d. induction ts as [|t ts IH]; intros d Hd Hall; [done|].
  apply Forall_cons in Hall as [Ht Hall]. simpl. apply IH; [|done].
  by apply lookup_union_None.
Qed.

Lemma joined_no_error e ts :
  Forall (λ t, truthy (t_err t) = false) ts → joined e ts = e.
Proof.
  revert e. induction ts as [|t ts IH]; intros e Hall; [done|].
  apply Forall_cons in Hall as [Ht Hall]. rewrite joined_cons.
  unfold join_err. rewrite Ht. by apply IH.
Qed.

(** * Where the invoked tasks come from *)

Section Behind.

Variable behaviour : nat → gmap string Value → list Action.

Lemma behind_weaken k ks w : behind (k :: ks) w → behind ks w.
Proof. intros [? H]. split; [done|]. by apply Forall_cons in H as [_ ?]. Qed.

(** A change of the object that leaves the sequence alone and does not
    move the index back before a stage it has reached. *)
Lemma behind_move ks w s' :
  behind ks w →
  sequence s' = sequence (this w) →
  (∀ k, at_stage k w → k ≤ currentSequenceIdx s') →
  behind ks (mkWorld s' (trace w)).
Proof.
  intros [Hinv Hks] Hsq Hidx.
  assert (∀ k, at_stage k w → at_stage k (mkWorld s' (trace w))) as Hk.
  { intros k Hk. pose proof (Hidx k Hk). destruct Hk as (? & ? & ?).
    unfold at_stage. simpl. rewrite Hsq. auto. }
  split.
  - intros k g opts Hin. apply Hk. by apply (Hinv k g opts).
  - eapply Forall_impl; [exact Hks | exact Hk].
Qed.

Lemma behind_still ks f :
  (∀ s, sequence (f s) = sequence s ∧ currentSequenceIdx (f s) = currentSequenceIdx s) →
  keeps (behind ks) (update f).
Proof.
  intros Hf. apply hoare_update. intros w H. destruct (Hf (this w)) as [Hsq Hidx].
  apply behind_move; [done..|]. intros k (? & _). by rewrite Hidx.
Qed.

Lemma behind_emit ks e :
  (∀ k f opts, e = EInvoke k f opts → k ∈ ks) →
  keeps (behind ks) (emit e).
Proof.
  intros He. apply hoare_emit. intros w [Hinv Hks]. split; [|done].
  intros k g opts Hin. simpl in Hin. rewrite invocations_app in Hin.
  apply elem_of_app in Hin as [Hin|Hin]; [by apply (Hinv k g opts)|].
  destruct e; try (by apply elem_of_nil in Hin).
  apply list_elem_of_singleton in Hin. injection Hin as -> -> ->.
  rewrite Forall_forall in Hks. apply Hks. by eapply He.
Qed.

Lemma behind_reading ks k : (∀ s, keeps (behind ks) (k s)) → keeps (behind ks) (reading k).
Proof.
  intros H. apply hoare_reading. intros s.
  eapply hoare_weaken; [apply (H s) | by intros ? [] | done].
Qed.

Lemma behind_seq ks a b : keeps (behind ks) a → keeps (behind ks) b → keeps (behind ks) (a >> b).
Proof. intros Ha Hb. eapply hoare_seq; [exact Ha | by intros | exact Hb]. Qed.

Lemma behind_terminate ks : keeps (behind ks) terminate.
Proof.
  unfold terminate. apply hoare_reading. intros s.
  destruct (stages_of (sequence s)) as [l|] eqn:Hl.
  - apply hoare_update. intros w [H <-]. apply behind_move; [done..|].
    intros k (_ & Hk & _). simpl. rewrite (items_of_stages _ _ Hl) in Hk. lia.
  - apply hoare_unmodelled. by intros w [? _].
Qed.

Lemma behind_handleSequenceFunctionComplete ks next :
  next_behind next → keeps (behind ks) (handleSequenceFunctionComplete next).
Proof.
  intros Hnext. apply hoare_reading. intros s.
  destruct (stages_of (sequence s)); [|apply hoare_unmodelled; by intros w [? _]].
  destruct (_ <=? _).
  - destruct (truthy (callback s)); [|apply hoare_ret; by intros w [? _]].
    apply hoare_call_callback; [|by intros w [? _]].
    intros w [H _]. by apply (behind_emit ks (ECallback (pendingErr s) (VObj (pendingData s)))).
  - eapply hoare_seq with (R := λ _, behind ks); [|done|apply Hnext].
    apply hoare_update. intros w [H <-]. apply behind_move; [done..|].
    intros k (? & _). simpl. lia.
Qed.

Lemma behind_handlePartialSequenceComplete ks next err data :
  next_behind next → keeps (behind ks) (handlePartialSequenceComplete next err data).
Proof.
  intros Hnext. unfold handlePartialSequenceComplete. repeat apply behind_seq.
  - by apply behind_emit.
  - apply behind_still. intros s. by destruct (_ =? _).
  - destruct (truthy data); [|by apply hoare_ret].
    destruct (enumerable data); [by apply behind_still | by apply hoare_unmodelled].
  - destruct (truthy err); [by apply behind_still | by apply hoare_ret].
  - apply behind_reading. intros s. destruct (_ =? _); [|by apply hoare_ret].
    by apply behind_handleSequenceFunctionComplete.
Qed.

Lemma behind_run_body ks next body :
  next_behind next → keeps (behind ks) (run_body next body).
Proof.
  intros Hnext. induction body as [|[|err data] rest IH]; simpl.
  - by apply hoare_ret.
  - apply behind_seq; [apply behind_terminate | exact IH].
  - apply behind_seq; [by apply behind_handlePartialSequenceComplete | exact IH].
Qed.

Lemma behind_call_task ks next stage f opts :
  next_behind next → keeps (behind (stage :: ks)) (call_task behaviour next stage f opts).
Proof.
  intros Hnext. destruct f; simpl; try (by apply hoare_throw).
  apply behind_seq; [|by apply behind_run_body].
  apply behind_emit. intros k g o [= -> _ _]. apply list_elem_of_here.
Qed.

Lemma behind_dispatch ks next stage fs opts :
  next_behind next → keeps (behind (stage :: ks)) (dispatch behaviour next stage fs opts).
Proof.
  intros Hnext. induction fs as [|f rest IH]; simpl.
  - by apply hoare_ret.
  - apply behind_seq; [by apply behind_call_task | exact IH].
Qed.

Lemma behind_processNext_body next :
  next_behind next → next_behind (processNext_body behaviour next).
Proof.
  intros Hnext ks. unfold processNext_body. apply hoare_reading. intros s.
  destruct (build_opts s) as [opts|]; [|apply hoare_unmodelled; by intros w [? _]].
  eapply hoare_seq with
    (R := λ _ w, behind ks w ∧ sequence (this w) = sequence s ∧
                 currentSequenceIdx (this w) = currentSequenceIdx s).
  { apply hoare_emit. intros w [H <-]. split; [|done].
    by apply (behind_emit ks (EStage (currentSequenceIdx (this w)) opts)). }
  { by intros o w _ [? _]. }
  eapply hoare_seq with
    (R := λ _ w, behind ks w ∧ sequence (this w) = sequence s ∧
                 currentSequenceIdx (this w) = currentSequenceIdx s).
  { apply hoare_update. intros w (H & Hsq & Hidx). split; [|done].
    apply behind_move; [done..|]. by intros k (? & _). }
  { by intros o w _ [? _]. }
  destruct (stages_of (sequence s)) as [l|] eqn:Hl;
    [|apply hoare_unmodelled; by intros w [? _]].
  apply items_of_stages in Hl.
  (* a stage with something to call is a stage of the sequence *)
  assert (∀ w, nth (currentSequenceIdx s) l VUndefined ≠ VUndefined →
               nth (currentSequenceIdx s) l VUndefined ≠ VArr [] →
               behind ks w ∧ sequence (this w) = sequence s ∧
                 currentSequenceIdx (this w) = currentSequenceIdx s →
               behind (currentSequenceIdx s :: ks) w) as Hhere.
  { intros w Hdef Hne ([Hinv Hks] & Hsq & Hidx). split; [done|].
    apply Forall_cons. split; [|done]. unfold at_stage. rewrite Hsq, Hidx, Hl.
    split; [done|]. split; [|done].
    destruct (decide (currentSequenceIdx s < length l)) as [|Hge]; [done|].
    exfalso. apply Hdef, nth_overflow. lia. }
  assert (∀ a : Step, keeps (behind (currentSequenceIdx s :: ks)) a →
            nth (currentSequenceIdx s) l VUndefined ≠ VUndefined →
            nth (currentSequenceIdx s) l VUndefined ≠ VArr [] →
            hoare (λ w, behind ks w ∧ sequence (this w) = sequence s ∧
                        currentSequenceIdx (this w) = currentSequenceIdx s)
                  a (λ _, behind ks)) as Hloop.
  { intros a Ha Hdef Hne. eapply hoare_weaken; [exact Ha| |].
    - intros w. by apply Hhere.
    - intros o w. apply behind_weaken. }
  destruct (nth (currentSequenceIdx s) l VUndefined) as [| | | | | |fs| | |] eqn:Hnth;
    try (apply hoare_throw; by intros w [? _]).
  - apply Hloop; [|done..]. by apply (behind_call_task ks next _ (VFun id src)).
  - destruct fs as [|f fs].
    + eapply hoare_seq with (R := λ _, behind ks); [|done|by apply hoare_ret].
      apply hoare_update. intros w [H _]. apply behind_move; [done..|]. by intros k (? & _).
    + apply Hloop; [|done..]. apply behind_seq; [by apply behind_still|].
      by apply behind_dispatch.
Qed.

Lemma behind_processNextSequenceFunction fuel :
  next_behind (processNextSequenceFunction behaviour fuel).
Proof.
  induction fuel as [|fuel IH]; simpl; [by intros ks w|].
  by apply behind_processNext_body.
Qed.

Lemma behind_input i : keeps (behind []) (input behaviour i).
Proof.
  destruct i as [err data|]; simpl; [|apply behind_terminate].
  apply behind_reading. intros s.
  apply behind_handlePartialSequenceComplete, behind_processNextSequenceFunction.
Qed.

Lemma behind_inputs ins w : behind [] w → behind [] (inputs behaviour ins w).
Proof.
  revert w. induction ins as [|i rest IH]; intros w Hw; simpl; [done|].
  apply IH. by apply behind_input.
Qed.

Lemma behind_go : keeps (behind []) (go behaviour).
Proof.
  apply behind_reading. intros s. apply behind_processNextSequenceFunction.
Qed.

End Behind.

(** * The ledger of a run *)

(** Whatever the tasks do and whatever arrives, the trace accounts for
    the object: [pendingData] and [pendingErr] are what the completions
    since the last stage start have merged and joined, every stage is
    started on them, every task is invoked on the [opts] of its stage,
    and the terminal callback is called with them. *)

Lemma stage_starts_snoc tr e :
  stage_starts (tr ++ [e]) =
  stage_starts tr ++ match e with EStage k opts => [(k, opts)] | _ => [] end.
Proof. unfold stage_starts. rewrite omap_app. by destruct e. Qed.

Lemma last_start_snoc tr e :
  last_start (tr ++ [e]) = match e with EStage k _ => Some k | _ => last_start tr end.
Proof.
  unfold last_start. rewrite stage_starts_snoc.
  destruct e; rewrite ?app_nil_r; try done. by rewrite last_snoc.
Qed.

Lemma received_snoc pd0 tr e : received pd0 (tr ++ [e]) = absorb (received pd0 tr) e.
Proof. unfold received. by rewrite foldl_app. Qed.

Lemma reported_snoc pe0 tr e : reported pe0 (tr ++ [e]) = hear (reported pe0 tr) e.
Proof. unfold reported. by rewrite foldl_app. Qed.

Lemma faithful_nil s0 : faithful s0 [].
Proof. intros t1 e t2 H. by destruct t1. Qed.

Lemma faithful_snoc s0 tr e : faithful s0 tr → accounted s0 tr e → faithful s0 (tr ++ [e]).
Proof.
  intros Htr He t1 e' t2. destruct t2 as [|x t2 _] using rev_ind; intros Heq.
  - apply app_inj_tail in Heq as [-> ->]. exact He.
  - rewrite app_comm_cons, app_assoc in Heq. apply app_inj_tail in Heq as [-> _].
    by apply (Htr t1 e' t2).
Qed.

Lemma fed_seq P a b : fed P a → fed P b → fed P (a >> b).
Proof.
  intros Ha Hb. eapply hoare_seq; [exact Ha | intros ? ? _ H; exact H | ].
  eapply hoare_weaken; [exact Hb | | done]. intros w H. by apply H.
Qed.

Lemma fed_ret P : fed P ret.
Proof. apply hoare_ret. by intros w H _. Qed.

Lemma fed_throw P v : fed P (throw v).
Proof. apply hoare_throw. by intros w H _. Qed.

Section Ledger.

Variable behaviour : nat → gmap string Value → list Action.
Variable s0 : Sequencer.
Variable base : gmap string Value.
Hypothesis base_built : base_opts (args s0) = Some base.

Lemma kept_weaken ko ks w : kept s0 (ko :: ks) w → kept s0 ks w.
Proof. intros (? & ? & ? & H). apply Forall_cons in H as [_ ?]. done. Qed.

Lemma ledger_weaken ko ks w : ledger s0 (ko :: ks) w → ledger s0 ks w.
Proof. intros (? & ? & ?). split; [by eapply kept_weaken|done]. Qed.

(** An event that changes neither the stage started last nor what is
    pending. *)
Lemma ledger_emit ks e :
  (∀ pd, absorb pd e = pd) → (∀ pe, hear pe e = pe) →
  (∀ k opts, e ≠ EStage k opts) →
  hoare (λ w, ledger s0 ks w ∧ accounted s0 (trace w) e) (emit e)
        (λ o w, o ≠ OutOfFuel → ledger s0 ks w).
Proof.
  intros Hpd Hpe Hne. apply hoare_emit.
  intros w [((Har & Hsq & Hf & Hks) & [Hd He] & Hn) Hacc] _.
  assert (stage_starts (trace w ++ [e]) = stage_starts (trace w)) as Hst.
  { rewrite stage_starts_snoc. destruct e; rewrite ?app_nil_r; try done.
    by destruct (Hne stage opts). }
  split; [|split].
  - split; [done|]. split; [done|]. split; [by apply faithful_snoc|]. simpl. by rewrite Hst.
  - split; simpl; [by rewrite received_snoc, Hpd | by rewrite reported_snoc, Hpe].
  - intros i. unfold last_start. simpl. rewrite Hst. apply Hn.
Qed.

(** A change of the object that leaves alone what the ledger reads. *)
Lemma ledger_still ks f :
  (∀ s, args (f s) = args s ∧ pendingData (f s) = pendingData s ∧
        pendingErr (f s) = pendingErr s ∧ sequence (f s) = sequence s ∧
        currentSequenceIdx (f s) = currentSequenceIdx s) →
  fed (ledger s0 ks) (update f).
Proof.
  intros Hf. apply hoare_update. intros w ((Har & Hsq & Hfa & Hks) & [Hd He] & Hn) _.
  destruct (Hf (this w)) as (E1 & E2 & E3 & E4 & E5).
  unfold ledger, kept, booked, numbered. simpl. rewrite E1, E2, E3, E4, E5. done.
Qed.

Lemma ledger_terminate ks : fed (ledger s0 ks) terminate.
Proof.
  unfold terminate. apply hoare_reading. intros s.
  destruct (stages_of (sequence s)) as [l|] eqn:Hl.
  - apply hoare_update. intros w [(Hk & Hb & Hn) <-] _. split; [done|]. split; [done|].
    intros i _. right. simpl. by rewrite (items_of_stages _ _ Hl).
  - apply hoare_unmodelled. by intros w [? _].
Qed.

Lemma ledger_handleSequenceFunctionComplete ks next :
  next_ledger s0 next → fed (ledger s0 ks) (handleSequenceFunctionComplete next).
Proof.
  intros Hnext. unfold handleSequenceFunctionComplete. apply hoare_reading. intros s.
  destruct (stages_of (sequence s)) as [l|] eqn:Hl;
    [|apply hoare_unmodelled; by intros w [? _]].
  destruct (length l <=? currentSequenceIdx s + 1) eqn:Hlast.
  - destruct (truthy (callback s)); [|apply hoare_ret; by intros w [? _]].
    apply hoare_call_callback; [|by intros w [? _]].
    intros w [H <-].
    apply (ledger_emit ks (ECallback (pendingErr (this w)) (VObj (pendingData (this w)))));
      [done..|]. split; [done|]. destruct H as (_ & [-> ->] & _). done.
  - apply Nat.leb_gt in Hlast.
    eapply hoare_seq with
      (R := λ o w, o = Returned ∧ kept s0 ks w ∧ booked s0 w ∧ stepped w).
    + apply hoare_update. intros w [(Hk & Hb & Hn) <-].
      split; [done|]. split; [done|]. split; [done|].
      intros i Hi. simpl. destruct (Hn i Hi) as [->|Hend]; [done|].
      rewrite (items_of_stages _ _ Hl) in Hend. lia.
    + by intros o w Ho [? _].
    + eapply hoare_weaken; [apply Hnext|by intros w [_ ?]|done].
Qed.

Lemma ledger_handlePartialSequenceComplete ks next err data :
  next_ledger s0 next → fed (ledger s0 ks) (handlePartialSequenceComplete next err data).
Proof.
  intros Hnext. unfold handlePartialSequenceComplete.
  (* the completion is recorded *)
  eapply hoare_then with
    (R := λ w, kept s0 ks w ∧ numbered w ∧
               received (pendingData s0) (trace w) = results data ∪ pendingData (this w) ∧
               reported (pendingErr s0) (trace w) =
                 if readable data then join_err (pendingErr (this w)) err
                 else pendingErr (this w)).
  { apply hoare_emit. intros w ((Har & Hsq & Hf & Hks) & [Hd He] & Hn).
    split; [done|]. unfold kept, numbered. cbn [trace this].
    split; [|split; [|split]].
    - split; [done|]. split; [done|]. split; [by apply faithful_snoc|].
      by rewrite stage_starts_snoc, app_nil_r.
    - intros i. rewrite last_start_snoc. apply Hn.
    - by rewrite received_snoc, Hd.
    - by rewrite reported_snoc, He. }
  eapply hoare_then with
    (R := λ w, kept s0 ks w ∧ numbered w ∧
               received (pendingData s0) (trace w) = results data ∪ pendingData (this w) ∧
               reported (pendingErr s0) (trace w) =
                 if readable data then join_err (pendingErr (this w)) err
                 else pendingErr (this w)).
  { apply hoare_update. intros w H. split; [done|].
    by destruct (concurrentFunctions (this w) =? 0). }
  (* its results are merged *)
  eapply hoare_seq with
    (R := λ o w, match o with
                 | Returned =>
                     kept s0 ks w ∧ numbered w ∧
                     pendingData (this w) = received (pendingData s0) (trace w) ∧
                     reported (pendingErr s0) (trace w) = join_err (pendingErr (this w)) err
                 | _ => ledger s0 ks w
                 end).
  { unfold results, readable.
    destruct (truthy data); [destruct (enumerable data) as [m|]|]; cbn [default].
    - apply hoare_update. intros w (Hk & Hn & Hd & He).
      split; [exact Hk|]. split; [exact Hn|]. split; [symmetry; exact Hd | exact He].
    - apply hoare_unmodelled. intros w (? & ? & Hd & He).
      rewrite (left_id_L ∅ (∪)) in Hd. done.
    - apply hoare_ret. intros w (? & ? & Hd & He).
      rewrite (left_id_L ∅ (∪)) in Hd. done. }
  { intros o w Ho H _. by destruct o. }
  (* its error is joined *)
  eapply hoare_then with (R := ledger s0 ks).
  { unfold join_err. destruct (truthy err).
    - apply hoare_update. intros w (? & ? & Hd & He). split; [done|].
      split; [done|]. split; [|done].
      split; [done|]. cbn [this pendingErr set_pendingErr]. by rewrite truthy_joined.
    - apply hoare_ret. by intros w (? & ? & Hd & He). }
  apply hoare_reading. intros s. destruct (_ =? _).
  - eapply hoare_weaken; [by apply ledger_handleSequenceFunctionComplete|by intros w [? _]|done].
  - apply hoare_ret. by intros w [? _].
Qed.

Lemma ledger_run_body ks next body :
  next_ledger s0 next → fed (ledger s0 ks) (run_body next body).
Proof.
  intros Hnext. induction body as [|[|err data] rest IH]; simpl.
  - apply fed_ret.
  - apply fed_seq; [apply ledger_terminate | exact IH].
  - apply fed_seq; [by apply ledger_handlePartialSequenceComplete | exact IH].
Qed.

Lemma ledger_call_task ks next stage f opts :
  next_ledger s0 next →
  fed (ledger s0 ((stage, opts) :: ks)) (call_task behaviour next stage f opts).
Proof.
  intros Hnext. destruct f; simpl; try apply fed_throw.
  apply fed_seq; [|by apply ledger_run_body].
  eapply hoare_weaken;
    [by apply (ledger_emit ((stage, opts) :: ks) (EInvoke stage id opts))| |done].
  intros w H. split; [done|]. destruct H as ((_ & _ & _ & Hks) & _).
  by apply Forall_cons in Hks as [? _].
Qed.

Lemma ledger_dispatch ks next stage fs opts :
  next_ledger s0 next →
  fed (ledger s0 ((stage, opts) :: ks)) (dispatch behaviour next stage fs opts).
Proof.
  intros Hnext. induction fs as [|f rest IH]; simpl.
  - apply fed_ret.
  - apply fed_seq; [by apply ledger_call_task | exact IH].
Qed.

Lemma ledger_processNext_body next :
  next_ledger s0 next → next_ledger s0 (processNext_body behaviour next).
Proof.
  intros Hnext ks. unfold processNext_body. apply hoare_reading. intros s.
  destruct (build_opts s) as [opts|] eqn:Hopts.
  2: { apply hoare_unmodelled. intros w [((Har & _) & _) <-]. exfalso. revert Hopts.
       unfold build_opts. by rewrite Har, base_built. }
  set (k := currentSequenceIdx s).
  eapply hoare_then with
    (R := λ w, kept s0 ((k, opts) :: ks) w ∧ numbered w ∧
               received (pendingData s0) (trace w) = ∅ ∧
               pendingErr (this w) = reported (pendingErr s0) (trace w)).
  { apply hoare_emit. intros w [((Har & Hsq & Hf & Hks) & [Hd He] & Hs) <-].
    assert (opts = received (pendingData s0) (trace w) ∪ base) as Hacc.
    { revert Hopts. unfold build_opts. rewrite Har, base_built, Hd. simpl. congruence. }
    split; [done|]. unfold kept, numbered. cbn [trace this].
    split; [|split; [|split]].
    - split; [done|]. split; [done|]. split.
      + apply faithful_snoc; [done|]. split; [by exists base|exact Hs].
      + rewrite stage_starts_snoc. apply Forall_cons. split.
        * apply elem_of_app. right. apply list_elem_of_here.
        * eapply Forall_impl; [exact Hks|]. intros ko Hko. apply elem_of_app. by left.
    - intros i. rewrite last_start_snoc. intros [= <-]. by left.
    - by rewrite received_snoc.
    - by rewrite reported_snoc. }
  eapply hoare_then with (R := ledger s0 ((k, opts) :: ks)).
  { apply hoare_update. intros w (Hk & Hn & Hd & He). split; [done|].
    split; [exact Hk|]. split; [|exact Hn]. split; [symmetry; exact Hd | exact He]. }
  assert (∀ a, fed (ledger s0 ((k, opts) :: ks)) a →
               hoare (ledger s0 ((k, opts) :: ks)) a (λ o w, o ≠ OutOfFuel → ledger s0 ks w))
    as Hloop.
  { intros a Ha. eapply hoare_weaken; [exact Ha|done|].
    intros o w H Ho. eapply ledger_weaken. by apply H. }
  destruct (stages_of (sequence s)) as [l|].
  2: { apply hoare_unmodelled. intros w H _. by eapply ledger_weaken. }
  apply Hloop.
  destruct (nth k l VUndefined); try (by apply ledger_call_task).
  apply fed_seq; [by apply ledger_still | by apply ledger_dispatch].
Qed.

Lemma ledger_processNextSequenceFunction fuel :
  next_ledger s0 (processNextSequenceFunction behaviour fuel).
Proof.
  induction fuel as [|fuel IH]; simpl; [by intros ks w|].
  by apply ledger_processNext_body.
Qed.

Lemma ledger_go :
  hoare (λ w, ledger s0 [] w ∧ trace w = []) (go behaviour)
        (λ o w, o ≠ OutOfFuel → ledger s0 [] w).
Proof.
  unfold go. apply hoare_reading. intros s.
  eapply hoare_weaken; [apply (ledger_processNextSequenceFunction _ [])| |done].
  intros w [[(? & ? & _) Htr] _]. split; [done|]. split; [done|].
  intros i. by rewrite Htr.
Qed.

Lemma ledger_input i : fed (ledger s0 []) (input behaviour i).
Proof.
  destruct i as [err data|]; simpl; [|apply ledger_terminate].
  apply hoare_reading. intros s.
  eapply hoare_weaken;
    [apply ledger_handlePartialSequenceComplete, ledger_processNextSequenceFunction
    |by intros w [? _]|done].
Qed.

Lemma ledger_inputs ins : ∀ w,
  isArray (sequence s0) = true →
  ledger s0 [] w → ledger s0 [] (inputs behaviour ins w).
Proof.
  induction ins as [|i rest IH]; intros w Harr Hw; simpl; [done|].
  apply IH; [done|]. apply ledger_input; [done|].
  destruct Hw as ((_ & Hsq & _) & _).
  destruct i as [err data|]; simpl.
  - apply complete_fuel_enough. by rewrite Hsq.
  - unfold terminate, reading. by destruct (stages_of _).
Qed.

(** The ledger of a run from [s0]. *)
Lemma ledger_run ins :
  isArray (sequence s0) = true →
  faithful s0 (trace (inputs behaviour ins (go behaviour (mkWorld s0 [])).2)).
Proof.
  intros Harr.
  assert (ledger s0 [] (mkWorld s0 [])) as H0.
  { split; [|split]; [|done|done]. split; [done|]. split; [done|].
    split; [apply faithful_nil|done]. }
  assert (ledger s0 [] (go behaviour (mkWorld s0 [])).2) as H1.
  { apply ledger_go; [done|]. by apply go_fuel_enough. }
  by destruct (ledger_inputs ins _ Harr H1) as ((_ & _ & ? & _) & _).
Qed.

End Ledger.

(** * What the ledger tells *)

(** The keys held for the next stage are those received since the last
    stage start. *)

Lemma stage_starts_app tr1 tr2 : stage_starts (tr1 ++ tr2) = stage_starts tr1 ++ stage_starts tr2.
Proof. apply omap_app. Qed.

Lemma received_since_start_snoc tr e x :
  received_since_start (tr ++ [e]) x ↔
  match e with
  | EStage _ _ => False
  | EComplete _ data => x ∈ dom (results data) ∨ received_since_start tr x
  | _ => received_since_start tr x
  end.
Proof.
  split.
  - intros (t0 & err & data & seg & Heq & Hq & Hx).
    destruct seg as [|y seg _] using rev_ind.
    + apply app_inj_tail in Heq as [-> ->]. by left.
    + rewrite app_comm_cons, app_assoc in Heq. apply app_inj_tail in Heq as [-> ->].
      rewrite stage_starts_snoc in Hq. apply app_eq_nil in Hq as [Hq Hy].
      assert (received_since_start (t0 ++ EComplete err data :: seg) x) as Hrec.
      { by exists t0, err, data, seg. }
      destruct y; try done. by right.
  - assert (received_since_start tr x → (∀ k o, e ≠ EStage k o) →
            received_since_start (tr ++ [e]) x) as Hold.
    { intros (t0 & err & data & seg & -> & Hq & Hx) Hne.
      exists t0, err, data, (seg ++ [e]). split; [by rewrite <- app_assoc|].
      split; [|done]. rewrite stage_starts_snoc, Hq. destruct e; try done.
      by destruct (Hne stage opts). }
    destruct e as [| |err data|]; try done; try (intros H; by apply Hold).
    intros [Hx|H]; [|by apply Hold]. by exists tr, err, data, [].
Qed.

(** What is pending holds the keys received since the last stage start,
    and those it held at first if no stage has started. *)
Lemma elem_of_dom_received pd0 tr x :
  x ∈ dom (received pd0 tr) ↔
  (stage_starts tr = [] ∧ x ∈ dom pd0) ∨ received_since_start tr x.
Proof.
  induction tr as [|e tr IH] using rev_ind.
  - split; [by left|]. intros [[_ ?]|(t0 & ? & ? & ? & H & _)]; [done|]. by destruct t0.
  - rewrite received_snoc, received_since_start_snoc, stage_starts_snoc.
    destruct e as [k o|k f o|err data|err data]; simpl; rewrite ?app_nil_r; try exact IH.
    + rewrite dom_empty_L, elem_of_empty. split; [done|].
      intros [[H _]|[]]. by apply app_eq_nil in H as [_ ?].
    + rewrite dom_union_L, elem_of_union, IH. tauto.
Qed.

Lemma elem_of_invocations tr k f opts :
  (k, f, opts) ∈ invocations tr ↔ EInvoke k f opts ∈ tr.
Proof.
  unfold invocations. rewrite list_elem_of_omap. split.
  - intros (e & He & Heq). destruct e; try done. by injection Heq as -> -> ->.
  - intros H. by exists (EInvoke k f opts).
Qed.

Lemma elem_of_stage_starts tr k opts :
  (k, opts) ∈ stage_starts tr ↔ EStage k opts ∈ tr.
Proof.
  unfold stage_starts. rewrite list_elem_of_omap. split.
  - intros (e & He & Heq). destruct e; try done. by injection Heq as -> ->.
  - intros H. by exists (EStage k opts).
Qed.

Lemma invocations_blind tr : invocations (map blind tr) = invocations tr.
Proof. induction tr as [|[] tr IH]; simpl; by rewrite ?IH. Qed.

Lemma stage_starts_blind tr : stage_starts (map blind tr) = stage_starts tr.
Proof. induction tr as [|[] tr IH]; simpl; by rewrite ?IH. Qed.

Lemma base_opts_acceptable ar : acceptable_args ar → is_Some (base_opts ar).
Proof.
  intros [H|H]; unfold base_opts.
  - by destruct ar.
  - by rewrite H.
Qed.

(** The first thing [go()] does is to start the stage at the current
    index, on what is pending and the base. *)
Lemma go_starts behaviour s base ins :
  base_opts (args s) = Some base →
  ∃ rest, trace (inputs behaviour ins (go behaviour (mkWorld s [])).2) =
          EStage (currentSequenceIdx s) (pendingData s ∪ base) :: rest.
Proof.
  intros Hbase.
  set (P := λ tr : list Event,
              ∃ rest, tr = EStage (currentSequenceIdx s) (pendingData s ∪ base) :: rest).
  assert (∀ tr e, P tr → P (tr ++ [e])) as Hlast.
  { intros tr e [rest ->]. by exists (rest ++ [e]). }
  apply (lasting_inputs behaviour P Hlast).
  unfold go, reading, fuel_of. cbn [this processNextSequenceFunction].
  unfold processNext_body, reading, build_opts. cbn [this]. rewrite Hbase. cbn [mbind option_bind].
  unfold andThen at 1. unfold emit at 1. cbn [this trace app].
  match goal with |- P (trace (?a ?w).2) => assert (lasting P a) as Hrest end.
  { apply lasting_seq; [by apply lasting_update|].
    destruct (stages_of (sequence s)); [|by apply hoare_unmodelled].
    destruct (nth _ _ _) as [| | | | |g src|fs| | |]; try (by apply hoare_throw).
    - apply (lasting_call_task behaviour P Hlast _ _ (VFun g src)).
      by apply lasting_processNextSequenceFunction.
    - apply lasting_seq; [by apply lasting_update|].
      apply lasting_dispatch; [done|]. by apply lasting_processNextSequenceFunction. }
  apply Hrest. by exists [].
Qed.

(** * Errors have no say *)

(** The engine on two behaviours that differ in the errors they report
    only: method by method, the two runs stay alike. *)

Lemma sim_ret : sim ret ret.
Proof. by intros w w' H. Qed.

Lemma sim_throw v : sim (throw v) (throw v).
Proof. by intros w w' H. Qed.

Lemma sim_unmodelled : sim unmodelled unmodelled.
Proof. by intros w w' H. Qed.

Lemma sim_seq a a' b b' : sim a a' → sim b b' → sim (a >> b) (a' >> b').
Proof.
  intros Ha Hb w w' H. unfold andThen. destruct (Ha w w' H) as [Ho Hw].
  destruct (a w) as [o w1], (a' w') as [o' w1']. simpl in *. subst o'.
  destruct o; try done. by apply Hb.
Qed.

Lemma sim_emit e e' : blind e = blind e' → sim (emit e) (emit e').
Proof.
  intros He w w' [Hs Ht]. split; [done|]. split; [done|].
  simpl. rewrite !map_app, Ht. simpl. by rewrite He.
Qed.

Lemma sim_update f f' :
  (∀ s s', set_pendingErr VUndefined s = set_pendingErr VUndefined s' →
           set_pendingErr VUndefined (f s) = set_pendingErr VUndefined (f' s')) →
  sim (update f) (update f').
Proof. intros Hf w w' [Hs Ht]. split; [done|]. split; [by apply Hf|done]. Qed.

Lemma sim_reading k k' :
  (∀ s s', set_pendingErr VUndefined s = set_pendingErr VUndefined s' → sim (k s) (k' s')) →
  sim (reading k) (reading k').
Proof. intros Hk w w' H. unfold reading. apply Hk; [|done]. by destruct H. Qed.

(** What two alike objects share. *)
Lemma alike_fields s s' :
  set_pendingErr VUndefined s = set_pendingErr VUndefined s' →
  sequence s = sequence s' ∧ callback s = callback s' ∧ args s = args s' ∧
  currentSequenceIdx s = currentSequenceIdx s' ∧ pendingData s = pendingData s' ∧
  concurrentFunctions s = concurrentFunctions s'.
Proof. destruct s, s'. unfold set_pendingErr. simpl. intros [=]. by subst. Qed.

Lemma alike_set (g : Sequencer → Sequencer) s s' :
  (∀ s v, set_pendingErr v (g s) = g (set_pendingErr v s)) →
  set_pendingErr VUndefined s = set_pendingErr VUndefined s' →
  set_pendingErr VUndefined (g s) = set_pendingErr VUndefined (g s').
Proof. intros Hg H. by rewrite !Hg, H. Qed.

Section Errors.

Variables behaviour behaviour' : nat → gmap string Value → list Action.
Hypothesis same : same_but_errors behaviour behaviour'.

Lemma sim_terminate : sim terminate terminate.
Proof.
  apply sim_reading. intros s s' H. destruct (alike_fields s s' H) as (<- & _).
  destruct (stages_of (sequence s)); [|apply sim_unmodelled].
  apply sim_update. intros t t' Ht. by apply (alike_set (set_currentSequenceIdx _)).
Qed.

Lemma sim_handleSequenceFunctionComplete next next' :
  sim next next' →
  sim (handleSequenceFunctionComplete next) (handleSequenceFunctionComplete next').
Proof.
  intros Hnext. apply sim_reading. intros s s' H.
  destruct (alike_fields s s' H) as (<- & <- & _ & <- & <- & _).
  destruct (stages_of (sequence s)); [|apply sim_unmodelled].
  destruct (_ <=? _).
  - destruct (truthy (callback s)); [|apply sim_ret].
    unfold call_callback. destruct (isFunction (callback s)); [|apply sim_throw].
    by apply sim_emit.
  - apply sim_seq; [|done]. apply sim_update. intros t t' Ht.
    by apply (alike_set (set_currentSequenceIdx _)).
Qed.

Lemma sim_handlePartialSequenceComplete next next' err err' data :
  sim next next' →
  sim (handlePartialSequenceComplete next err data)
      (handlePartialSequenceComplete next' err' data).
Proof.
  intros Hnext. unfold handlePartialSequenceComplete. repeat apply sim_seq.
  - by apply sim_emit.
  - apply sim_update. intros t t' Ht.
    destruct (alike_fields t t' Ht) as (_ & _ & _ & _ & _ & <-).
    destruct (_ =? _); [done|]. by apply (alike_set (set_concurrentFunctions _)).
  - destruct (truthy data); [|apply sim_ret].
    destruct (enumerable data) as [m|]; [|apply sim_unmodelled].
    apply sim_update. intros t t' Ht.
    destruct (alike_fields t t' Ht) as (_ & _ & _ & _ & <- & _).
    by apply (alike_set (set_pendingData _)).
  - (* [alike] does not look at [pendingErr] *)
    destruct (truthy err), (truthy err'); apply sim_ret.
  - apply sim_reading. intros s s' H.
    destruct (alike_fields s s' H) as (_ & _ & _ & _ & _ & <-).
    destruct (_ =? _); [|apply sim_ret]. by apply sim_handleSequenceFunctionComplete.
Qed.

Lemma sim_run_body next next' body body' :
  sim next next' → Forall2 same_action body body' →
  sim (run_body next body) (run_body next' body').
Proof.
  intros Hnext Hb. induction Hb as [|a a' rest rest' Ha _ IH]; simpl; [apply sim_ret|].
  destruct a, a'; try done; simpl in Ha.
  - apply sim_seq; [apply sim_terminate | exact IH].
  - subst. apply sim_seq; [by apply sim_handlePartialSequenceComplete | exact IH].
Qed.

Lemma sim_call_task next next' stage f opts :
  sim next next' →
  sim (call_task behaviour next stage f opts) (call_task behaviour' next' stage f opts).
Proof.
  intros Hnext. destruct f; simpl; try apply sim_throw.
  apply sim_seq; [by apply sim_emit | by apply sim_run_body].
Qed.

Lemma sim_dispatch next next' stage fs opts :
  sim next next' →
  sim (dispatch behaviour next stage fs opts) (dispatch behaviour' next' stage fs opts).
Proof.
  intros Hnext. induction fs as [|f rest IH]; simpl; [apply sim_ret|].
  apply sim_seq; [by apply sim_call_task | exact IH].
Qed.

Lemma sim_processNextSequenceFunction fuel :
  sim (processNextSequenceFunction behaviour fuel) (processNextSequenceFunction behaviour' fuel).
Proof.
  induction fuel as [|fuel IH]; simpl; [by intros w w' H|].
  unfold processNext_body. apply sim_reading. intros s s' H.
  destruct (alike_fields s s' H) as (<- & _ & Har & <- & Hpd & _).
  unfold build_opts. rewrite <- Har, <- Hpd.
  destruct (base_opts (args s)) as [base|]; simpl; [|apply sim_unmodelled].
  apply sim_seq; [by apply sim_emit|].
  apply sim_seq.
  { apply sim_update. intros t t' Ht. by apply (alike_set (set_pendingData _)). }
  destruct (stages_of (sequence s)); [|apply sim_unmodelled].
  destruct (nth _ _ _) as [| | | | |g src|fs| | |] eqn:Hnth; try apply sim_throw.
  { by apply (sim_call_task _ _ _ (VFun g src)). }
  apply sim_seq; [|by apply sim_dispatch].
  apply sim_update. intros t t' Ht. by apply (alike_set (set_concurrentFunctions _)).
Qed.

Lemma sim_go : sim (go behaviour) (go behaviour').
Proof.
  apply sim_reading. intros s s' H. unfold fuel_of.
  destruct (alike_fields s s' H) as (<- & _). apply sim_processNextSequenceFunction.
Qed.

Lemma sim_input i i' : same_input i i' → sim (input behaviour i) (input behaviour' i').
Proof.
  destruct i, i'; try done; simpl; [|intros _; apply sim_terminate].
  intros <-. apply sim_reading. intros s s' H. unfold fuel_of.
  destruct (alike_fields s s' H) as (<- & _).
  apply sim_handlePartialSequenceComplete, sim_processNextSequenceFunction.
Qed.

Lemma alike_inputs ins ins' : Forall2 same_input ins ins' → ∀ w w',
  alike w w' → alike (inputs behaviour ins w) (inputs behaviour' ins' w').
Proof.
  induction 1 as [|i i' rest rest' Hi _ IH]; intros w w' H; simpl; [done|].
  apply IH. by apply sim_input.
Qed.

(** Errors have no say in what a run does. *)
Lemma errors_have_no_say s ins ins' :
  Forall2 same_input ins ins' →
  map blind (trace (inputs behaviour ins (go behaviour (mkWorld s [])).2)) =
  map blind (trace (inputs behaviour' ins' (go behaviour' (mkWorld s [])).2)).
Proof.
  intros Hins. apply alike_inputs; [done|]. by apply sim_go.
Qed.

End Errors.

Lemma same_but_errors_hushed b : same_but_errors b (hushed b).
Proof.
  intros id opts. unfold hushed. induction (b id opts) as [|[|err data] rest IH]; simpl.
  - constructor.
  - by constructor.
  - by constructor.
Qed.

(** * Properties of the object that bodies keep *)

Lemma steady_seq Q a b : steady Q a → steady Q b → steady Q (a >> b).
Proof. apply keeps_seq. Qed.

Lemma steady_ret Q : steady Q ret.
Proof. by apply hoare_ret. Qed.

Lemma steady_throw Q v : steady Q (throw v).
Proof. by apply hoare_throw. Qed.

Lemma steady_unmodelled Q : steady Q unmodelled.
Proof. by apply hoare_unmodelled. Qed.

Lemma steady_emit Q e : steady Q (emit e).
Proof. by apply hoare_emit. Qed.

Lemma steady_update (Q : Sequencer → Prop) f : (∀ s, Q s → Q (f s)) → steady Q (update f).
Proof. intros Hf. apply hoare_update. intros w. apply Hf. Qed.

Lemma steady_reading Q k : (∀ s, steady Q (k s)) → steady Q (reading k).
Proof.
  intros H. apply hoare_reading. intros s.
  eapply hoare_weaken; [apply (H s) | by intros ? [] | done].
Qed.

Lemma steady_call_callback Q f a b : steady Q (call_callback f a b).
Proof. unfold call_callback. destruct (isFunction f); [apply steady_emit | apply steady_throw]. Qed.

(** * What a run leaves alone *)

Section Running.

Variable behaviour : nat → gmap string Value → list Action.

(** A property of the object that assigning [currentSequenceIdx],
    [pendingData], [concurrentFunctions] or [pendingErr] does not touch. *)
Variable Q : Sequencer → Prop.
Hypothesis Q_currentSequenceIdx : ∀ n s, Q s → Q (set_currentSequenceIdx n s).
Hypothesis Q_pendingData : ∀ m s, Q s → Q (set_pendingData m s).
Hypothesis Q_concurrentFunctions : ∀ n s, Q s → Q (set_concurrentFunctions n s).
Hypothesis Q_pendingErr : ∀ v s, Q s → Q (set_pendingErr v s).

Lemma steady_terminate : steady Q terminate.
Proof.
  apply steady_reading. intros s. destruct (stages_of _); [|apply steady_unmodelled].
  apply steady_update. by auto.
Qed.

Lemma steady_handleSequenceFunctionComplete next :
  steady Q next → steady Q (handleSequenceFunctionComplete next).
Proof.
  intros Hnext. apply steady_reading. intros s.
  destruct (stages_of _); [|apply steady_unmodelled].
  destruct (_ <=? _).
  - destruct (truthy _); [apply steady_call_callback | apply steady_ret].
  - apply steady_seq; [apply steady_update; by auto | exact Hnext].
Qed.

Lemma steady_handlePartialSequenceComplete next err data :
  steady Q next → steady Q (handlePartialSequenceComplete next err data).
Proof.
  intros Hnext. unfold handlePartialSequenceComplete. repeat apply steady_seq.
  - apply steady_emit.
  - apply steady_update. intros s Hs. destruct (_ =? _); by auto.
  - destruct (truthy data); [|apply steady_ret].
    destruct (enumerable data); [apply steady_update; by auto | apply steady_unmodelled].
  - destruct (truthy err); [apply steady_update; by auto | apply steady_ret].
  - apply steady_reading. intros s. destruct (_ =? _); [|apply steady_ret].
    by apply steady_handleSequenceFunctionComplete.
Qed.

Lemma steady_run_body next body : steady Q next → steady Q (run_body next body).
Proof.
  intros Hnext. induction body as [|[|err data] rest IH]; simpl.
  - apply steady_ret.
  - apply steady_seq; [apply steady_terminate | exact IH].
  - apply steady_seq; [by apply steady_handlePartialSequenceComplete | exact IH].
Qed.

Lemma steady_call_task next stage f opts :
  steady Q next → steady Q (call_task behaviour next stage f opts).
Proof.
  intros Hnext. destruct f; simpl; try apply steady_throw.
  apply steady_seq; [apply steady_emit | by apply steady_run_body].
Qed.

Lemma steady_dispatch next stage fs opts :
  steady Q next → steady Q (dispatch behaviour next stage fs opts).
Proof.
  intros Hnext. induction fs as [|f rest IH]; simpl; [apply steady_ret|].
  apply steady_seq; [by apply steady_call_task | exact IH].
Qed.

Lemma steady_processNextSequenceFunction fuel :
  steady Q (processNextSequenceFunction behaviour fuel).
Proof.
  induction fuel as [|fuel IH]; simpl; [by intros w|].
  unfold processNext_body. apply steady_reading. intros s.
  destruct (build_opts s); [|apply steady_unmodelled].
  apply steady_seq; [apply steady_emit|].
  apply steady_seq; [apply steady_update; by auto|].
  destruct (stages_of _); [|apply steady_unmodelled].
  destruct (nth _ _ _) as [| | | | |fn src|fs| | |]; try apply steady_throw.
  - by apply (steady_call_task _ _ (VFun fn src)).
  - apply steady_seq; [apply steady_update; by auto | by apply steady_dispatch].
Qed.

Lemma steady_go : steady Q (go behaviour).
Proof. apply steady_reading. intros s. apply steady_processNextSequenceFunction. Qed.

Lemma steady_input i : steady Q (input behaviour i).
Proof.
  destruct i as [err data|]; simpl; [|apply steady_terminate].
  apply steady_reading. intros s.
  apply steady_handlePartialSequenceComplete, steady_processNextSequenceFunction.
Qed.

Lemma steady_inputs ins w : Q (this w) → Q (this (inputs behaviour ins w)).
Proof.
  revert w. induction ins as [|i rest IH]; intros w Hw; simpl; [done|].
  apply IH. by apply steady_input.
Qed.

End Running.

(** * Completions one by one *)

(** A completion while more than one is awaited: it is counted, merged
    and joined, and nothing else happens. *)
Lemma complete_awaited next err data ic sq cb ar se idx pd n pe tr :
  readable data = true →
  handlePartialSequenceComplete next err data
    (mkWorld (mkSequencer ic sq cb ar se idx pd (S (S n)) pe) tr) =
  (Returned,
   mkWorld (mkSequencer ic sq cb ar se idx (results data ∪ pd) (S n) (join_err pe err))
           (tr ++ [EComplete err data])).
Proof.
  unfold readable, results, handlePartialSequenceComplete, andThen, emit, update, reading, join_err.
  cbn -[truthy to_string String.append enumerable].
  destruct (truthy data); [destruct (enumerable data) as [m|]; [|done]|]; intros _;
    destruct (truthy err); cbn -[truthy to_string String.append];
    rewrite ?truthy_joined, ?(left_id_L ∅ (∪)); reflexivity.
Qed.

(** The last completion awaited: it is counted, merged and joined, and
    the stage is complete. *)
Lemma complete_last next err data ic sq cb ar se idx pd n pe tr :
  readable data = true → n ≤ 1 →
  handlePartialSequenceComplete next err data
    (mkWorld (mkSequencer ic sq cb ar se idx pd n pe) tr) =
  handleSequenceFunctionComplete next
    (mkWorld (mkSequencer ic sq cb ar se idx (results data ∪ pd) 0 (join_err pe err))
             (tr ++ [EComplete err data])).
Proof.
  unfold readable, results, handlePartialSequenceComplete, andThen, emit, update, reading, join_err.
  intros Hr Hn. assert (n = 0 ∨ n = 1) as [-> | ->] by lia;
    cbn -[truthy to_string String.append enumerable handleSequenceFunctionComplete];
    (destruct (truthy data); [destruct (enumerable data) as [m|]; [|done]|]);
    destruct (truthy err); cbn -[truthy to_string String.append handleSequenceFunctionComplete];
    rewrite ?truthy_joined, ?(left_id_L ∅ (∪)); reflexivity.
Qed.

Lemma prints_join_err pe err : prints pe = true → prints (join_err pe err) = true.
Proof. intros Hpe. unfold join_err. by destruct (truthy err). Qed.

(** The method starts the stage at the current index before anything
    else. *)
Lemma stage_is_started behaviour fuel (s : Sequencer) tr base :
  base_opts (args s) = Some base →
  ∃ rest, trace (processNextSequenceFunction behaviour (S fuel) (mkWorld s tr)).2 =
          tr ++ EStage (currentSequenceIdx s) (pendingData s ∪ base) :: rest.
Proof.
  intros Hbase.
  set (P := λ tr' : list Event,
              ∃ rest, tr' = tr ++ EStage (currentSequenceIdx s) (pendingData s ∪ base) :: rest).
  assert (∀ tr' e, P tr' → P (tr' ++ [e])) as Hlast.
  { intros tr' e [rest ->]. exists (rest ++ [e]). by rewrite <- app_assoc. }
  cbn [processNextSequenceFunction].
  unfold processNext_body, reading, build_opts. cbn [this]. rewrite Hbase. cbn [mbind option_bind].
  unfold andThen at 1. unfold emit at 1. cbn [this trace].
  match goal with |- ∃ rest, trace (?a ?w).2 = _ => assert (lasting P a) as Hrest end.
  { apply lasting_seq; [by apply lasting_update|].
    destruct (stages_of (sequence s)); [|by apply hoare_unmodelled].
    destruct (nth _ _ _) as [| | | | |fn src|fs| | |]; try (by apply hoare_throw).
    - apply (lasting_call_task behaviour P Hlast _ _ (VFun fn src)).
      by apply lasting_processNextSequenceFunction.
    - apply lasting_seq; [by apply lasting_update|].
      apply lasting_dispatch; [done|]. by apply lasting_processNextSequenceFunction. }
  apply Hrest. by exists [].
Qed.

(** * The order of the stage starts *)

Lemma faithful_prefix s0 t u : faithful s0 (t ++ u) → faithful s0 t.
Proof.
  intros H t1 e t2 ->. apply (H t1 e (t2 ++ u)). by rewrite <- app_assoc.
Qed.

Lemma last_start_indices tr : last_start tr = last (stage_starts tr).*1.
Proof. unfold last_start. by rewrite fmap_last. Qed.

(** In a faithful trace that begins with the start of stage [k], the
    stages started are [k], [k+1], [k+2], ... *)
Lemma starts_in_a_row s0 k o tr :
  faithful s0 (EStage k o :: tr) →
  (stage_starts (EStage k o :: tr)).*1 = seq k (S (length (stage_starts tr))).
Proof.
  induction tr as [|e tr IH] using rev_ind; intros Hf; [done|].
  rewrite app_comm_cons in Hf. pose proof (faithful_prefix _ _ _ Hf) as Hf'.
  specialize (IH Hf'). rewrite app_comm_cons, !stage_starts_snoc.
  destruct e as [j o'| | |]; rewrite ?app_nil_r; try exact IH.
  rewrite fmap_app, IH, length_app. simpl length. rewrite Nat.add_1_r.
  rewrite (seq_S (S (length (stage_starts tr))) k). f_equal. simpl. f_equal.
  destruct (Hf (EStage k o :: tr) (EStage j o') []) as [_ Hnum]; [done|].
  rewrite (Hnum (k + length (stage_starts tr))); [lia|].
  by rewrite last_start_indices, IH, seq_S, last_snoc.
Qed.

(** The last completion since the last stage start that writes a key
    decides its value. *)
Lemma received_last pd0 t0 err data seg x v :
  stage_starts seg = [] → results data !! x = Some v →
  (∀ e d, EComplete e d ∈ seg → results d !! x = None) →
  received pd0 (t0 ++ EComplete err data :: seg) !! x = Some v.
Proof.
  intros Hq Hx. induction seg as [|e seg IH] using rev_ind; intros Hlater.
  - rewrite received_snoc. simpl. by apply lookup_union_Some_l.
  - rewrite stage_starts_snoc in Hq. apply app_eq_nil in Hq as [Hq He].
    rewrite app_comm_cons, app_assoc, received_snoc.
    assert (received pd0 (t0 ++ EComplete err data :: seg) !! x = Some v) as Hseg.
    { apply IH; [done|]. intros e' d Hin. apply (Hlater e' d), elem_of_app. by left. }
    destruct e as [| |e' d|]; try done. simpl.
    rewrite lookup_union_r; [done|].
    apply (Hlater e' d), elem_of_app. right. apply list_elem_of_here.
Qed.

(** * Well-behaved runs from a configuration object *)

Lemma base_opts_results ar :
  acceptable_args ar → base_opts ar = Some (base_of (results ar)).
Proof.
  intros [Hp|Ht]; unfold base_opts, results, base_of.
  - by destruct ar.
  - by rewrite Ht.
Qed.

Lemma results_or_null ar : results (or_null ar) = results ar.
Proof. unfold or_null, results. by destruct (truthy ar) eqn:E; [rewrite E|]. Qed.

Lemma acceptable_or_null ar : acceptable_args ar → acceptable_args (or_null ar).
Proof. intros [Hp|Ht]; unfold or_null; [left; by destruct ar|right; by rewrite Ht]. Qed.

(** The run of a configuration whose stages are [init], then [final], then
    whatever [post] holds: its trace is that of [play], followed by the
    terminal call unless [final] is an empty group. *)
Lemma go_plays behaviour init final post ar cb :
  acceptable_callback cb → acceptable_args ar →
  Forall passes init →
  Forall (obeys behaviour) ((init ++ [final]) ≫= stage_tasks) →
  post = [] ∨ stops final = true ∨ is_empty_group final = true →
  trace (run behaviour
           [config (VArr (map stage_value init ++ stage_value final :: post)) ar cb]
           []) =
  play 0 (base_of (results ar)) ∅ (init ++ [final]) ++
  (if is_empty_group final then []
   else terminal_events (or_null cb) (joined VUndefined ((init ++ [final]) ≫= stage_tasks))
          (merged (stage_tasks final))).
Proof.
  intros Hcb Har Hpass Hobey Hend.
  rewrite run_config; [|done..].
  set (l := map stage_value init ++ stage_value final :: post).
  destruct (play_run behaviour (or_null cb) (or_null ar) (base_of (results ar)) init final post []
              (S (length l)) false VNull ∅ VUndefined [])
    as (_ & Htr & _); [|done..| |].
  { rewrite <- results_or_null. by apply base_opts_results, acceptable_or_null. }
  { subst l. rewrite length_app, length_map. lia. }
  cbv zeta in Htr. simpl app in Htr. change (length (@nil Value)) with 0 in Htr.
  fold l in Htr. rewrite <- Htr. reflexivity.
Qed.

(** And as long as the contract is respected, nothing that arrives later
    adds to it. *)
Lemma run_plays behaviour init final post ar cb ins :
  acceptable_callback cb → acceptable_args ar →
  Forall passes init →
  Forall (obeys behaviour) ((init ++ [final]) ≫= stage_tasks) →
  post = [] ∨ stops final = true ∨ is_empty_group final = true →
  respects_contract
    (trace (run behaviour
              [config (VArr (map stage_value init ++ stage_value final :: post)) ar cb]
              ins)) →
  trace (run behaviour
           [config (VArr (map stage_value init ++ stage_value final :: post)) ar cb]
           ins) =
  play 0 (base_of (results ar)) ∅ (init ++ [final]) ++
  (if is_empty_group final then []
   else terminal_events (or_null cb) (joined VUndefined ((init ++ [final]) ≫= stage_tasks))
          (merged (stage_tasks final))).
Proof.
  intros Hcb Har Hpass Hobey Hend.
  pose proof (go_plays behaviour init final post ar cb Hcb Har Hpass Hobey Hend) as Hnow.
  revert Hnow. unfold run.
  generalize (bsync_sequence behaviour
    [config (VArr (map stage_value init ++ stage_value final :: post)) ar cb]
    (mkWorld fresh [])).2.
  intros w Hnow Hok. change (inputs behaviour [] w) with w in Hnow.
  rewrite <- Hnow. apply (quiet_run_is_over behaviour ins); [|exact Hok].
  rewrite Hnow. unfold outstanding. rewrite foldl_app, balance_play.
  destruct (is_empty_group final); [done|]. apply balance_terminal_events.
Qed.

Lemma bind_singles ts : map Single ts ≫= stage_tasks = ts.
Proof. induction ts as [|t ts IH]; [done|]. simpl. f_equal. exact IH. Qed.

Lemma passes_singles ts :
  Forall (λ t, t_stop t = false) ts → Forall passes (map Single ts).
Proof.
  intros H. apply Forall_fmap. eapply Forall_impl; [exact H|].
  intros t Ht. split; [done|]. unfold stops. simpl. by rewrite Ht.
Qed.

(** * The count of completions *)

Lemma legible_snoc tr e :
  legible (tr ++ [e]) =
  legible tr && match e with EComplete _ data => readable data | _ => true end.
Proof. unfold legible. rewrite forallb_app. simpl. by rewrite andb_true_r. Qed.

Lemma good_snoc tr e : good (tr ++ [e]) → good tr.
Proof.
  intros [Hc Hl]. split.
  - intros Hn. apply Hc. by apply broken_lasts.
  - rewrite legible_snoc in Hl. by apply andb_true_iff in Hl as [? _].
Qed.

Lemma runnable_nth l i :
  forallb runnable l = true → i < length l → runnable (nth i l VUndefined) = true.
Proof.
  intros Hall Hi. rewrite forallb_forall in Hall. apply Hall, nth_In, Hi.
Qed.

Section Tally.

Variable behaviour : nat → gmap string Value → list Action.
Variable l : list Value.
Variable cb ar : Value.
Variable base : gmap string Value.
Hypothesis l_runnable : forallb runnable l = true.
Hypothesis cb_function : isFunction cb = true.
Hypothesis ar_base : base_opts ar = Some base.

Lemma held_seq S0 S1 S2 a b :
  hoare (held l cb ar S0 Returned) a (held l cb ar S1) →
  hoare (held l cb ar S1 Returned) b (held l cb ar S2) →
  hoare (held l cb ar S0 Returned) (a >> b) (held l cb ar S2).
Proof.
  intros Ha Hb. eapply hoare_seq with (R := held l cb ar S1); [exact Ha| |exact Hb].
  intros o w Ho [Hfix H]. split; [exact Hfix|]. intros Hf Hg. by destruct (H Hf Hg).
Qed.

Lemma held_update (S S' : World → Prop) f :
  (∀ s, sequence (f s) = sequence s ∧ callback (f s) = callback s ∧ args (f s) = args s) →
  (∀ w, fixed l cb ar w → S w → S' (mkWorld (f (this w)) (trace w))) →
  hoare (held l cb ar S Returned) (update f) (held l cb ar S').
Proof.
  intros Hkeep Hf. apply hoare_update. intros w [Hfix H]. split.
  - destruct Hfix as (? & ? & ?). destruct (Hkeep (this w)) as (? & ? & ?).
    unfold fixed. simpl. split; [congruence|]. split; congruence.
  - intros _ Hg. split; [done|]. apply Hf; [done|]. by apply H.
Qed.

Lemma held_emit (S S' : World → Prop) e :
  (∀ w, fixed l cb ar w → good (trace w ++ [e]) → S w →
        S' (mkWorld (this w) (trace w ++ [e]))) →
  hoare (held l cb ar S Returned) (emit e) (held l cb ar S').
Proof.
  intros He. apply hoare_emit. intros w [Hfix H]. split; [exact Hfix|].
  intros _ Hg. split; [done|].
  apply He; [done..|]. apply H; [done|]. by eapply good_snoc.
Qed.

Lemma held_ret (S S' : World → Prop) :
  (∀ w, fixed l cb ar w → S w → S' w) → hoare (held l cb ar S Returned) ret (held l cb ar S').
Proof.
  intros HS. apply hoare_ret. intros w [Hfix H]. split; [exact Hfix|].
  intros _ Hg. split; [done|]. by apply HS, H.
Qed.

(** A branch that no good run takes, where the body leaves the world as
    it is. *)
Lemma held_throw (S S' : World → Prop) v :
  (∀ w, fixed l cb ar w → S w → False) → hoare (held l cb ar S Returned) (throw v) (held l cb ar S').
Proof.
  intros HS. apply hoare_throw. intros w [Hfix H]. split; [exact Hfix|].
  intros _ Hg. destruct (HS w Hfix). by apply H.
Qed.

Lemma held_unmodelled (S S' : World → Prop) :
  (∀ w, fixed l cb ar w → S w → False) → hoare (held l cb ar S Returned) unmodelled (held l cb ar S').
Proof.
  intros HS. apply hoare_unmodelled. intros w [Hfix H]. split; [exact Hfix|].
  intros _ Hg. destruct (HS w Hfix). by apply H.
Qed.

Lemma held_reading (S : World → Prop) Q k :
  (∀ s, sequence s = VArr l → callback s = cb → args s = ar →
        hoare (held l cb ar (λ w, S w ∧ this w = s) Returned) (k s) Q) →
  hoare (held l cb ar S Returned) (reading k) Q.
Proof.
  intros H. apply hoare_reading. intros s w [[Hfix Hc] <-].
  destruct Hfix as (Hsq & Hcb & Har). apply (H (this w) Hsq Hcb Har).
  split; [done|]. intros _ Hg. split; [done|]. split; [by apply Hc|done].
Qed.

Lemma held_weaken (S S' : World → Prop) Q a :
  hoare (held l cb ar S' Returned) a Q → (∀ w, fixed l cb ar w → S w → S' w) →
  hoare (held l cb ar S Returned) a Q.
Proof.
  intros Ha HS w [Hfix H]. apply Ha. split; [exact Hfix|].
  intros _ Hg. split; [done|]. apply HS; [done|]. by apply H.
Qed.

Lemma tally_terminate p : hoare (held l cb ar (live l p) Returned) terminate (held l cb ar (live l p)).
Proof.
  unfold terminate. apply held_reading. intros s Hsq _ _. rewrite Hsq. simpl.
  apply held_update; [done|]. intros w _ [Hlive _].
  destruct Hlive as [Hb | (? & ? & ? & ? & ? & ?)]; [by left|].
  right. repeat split; try done. simpl. lia.
Qed.

Lemma tally_handleSequenceFunctionComplete next p :
  next_tally l cb ar next →
  hoare (held l cb ar (complete_stage p) Returned) (handleSequenceFunctionComplete next)
        (held l cb ar (live l p)).
Proof.
  intros Hnext. unfold handleSequenceFunctionComplete.
  apply held_reading. intros s Hsq Hcb _. rewrite Hsq, Hcb. simpl.
  destruct (length l <=? currentSequenceIdx s + 1) eqn:Hlast.
  - apply Nat.leb_le in Hlast. unfold call_callback. rewrite cb_function.
    assert (truthy cb = true) as -> by (by destruct cb).
    apply held_emit. intros w _ Hg [(Ho & -> & Hc & Hcf) <-]. right.
    unfold over. simpl. rewrite outstanding_snoc, callbacks_snoc, Ho, Hc.
    repeat split; try done. by eexists _, _, _.
  - apply Nat.leb_gt in Hlast.
    eapply held_seq; [|apply Hnext].
    apply held_update; [done|]. intros w _ [(Ho & -> & Hc & Hcf) <-].
    unfold idle. simpl. repeat split; try done.
Qed.

Lemma tally_handlePartialSequenceComplete next p err data :
  next_tally l cb ar next →
  hoare (held l cb ar (live l p) Returned) (handlePartialSequenceComplete next err data)
        (held l cb ar (live l p)).
Proof.
  intros Hnext. unfold handlePartialSequenceComplete.
  apply held_seq with (S1 := landed data p).
  { apply held_emit. intros w _ Hg Hlive.
    destruct Hg as [Hc Hleg]. rewrite legible_snoc in Hleg.
    apply andb_true_iff in Hleg as [_ Hr]. split; [exact Hr|].
    unfold respects_contract in Hc. rewrite outstanding_snoc in Hc.
    simpl. rewrite outstanding_snoc, callbacks_snoc.
    destruct Hlive as [(o & Ho & Hcal & Hpos & Hcf) | (Ho & _)]; rewrite Ho in *; simpl in *.
    - destruct o as [|o]; [done|]. exists o. split; [done|]. split; [lia|].
      destruct Hcf as [?|[? ?]]; [left|right]; lia.
    - done. }
  apply held_seq with (S1 := taken data p).
  { apply held_update; [by intros s; destruct (_ =? _)|].
    intros w _ (Hr & o & Ho & Hcal & Hcf).
    destruct (concurrentFunctions (this w) =? 0) eqn:E.
    - apply Nat.eqb_eq in E. split; [exact Hr|]. exists o.
      cbn [trace this]. split; [done|]. split; [done|]. lia.
    - apply Nat.eqb_neq in E. split; [exact Hr|]. exists o.
      cbn [trace this]. split; [done|]. split; [done|]. simpl. lia. }
  apply held_seq with (S1 := taken data p).
  { destruct (truthy data) eqn:Ht; [|by apply held_ret].
    destruct (enumerable data) eqn:He; [by apply held_update|].
    apply held_unmodelled. intros w _ (Hr & _).
    unfold readable in Hr. by rewrite Ht, He in Hr. }
  apply held_seq with (S1 := taken data p).
  { destruct (truthy err); [by apply held_update | by apply held_ret]. }
  apply held_reading. intros s _ _ _.
  destruct (concurrentFunctions s =? 0) eqn:Hcf.
  - apply Nat.eqb_eq in Hcf.
    eapply held_weaken; [by apply (tally_handleSequenceFunctionComplete next p)|].
    intros w _ [(_ & o & Ho & Hcal & Hsum) <-]. unfold complete_stage.
    assert (o = 0 ∧ p = 0) as [-> ->] by lia. done.
  - apply Nat.eqb_neq in Hcf. apply held_ret.
    intros w _ [(_ & o & Ho & Hcal & Hsum) <-].
    left. exists o. split; [done|]. split; [done|]. split; [lia|by left].
Qed.

Lemma tally_run_body next p body :
  next_tally l cb ar next →
  hoare (held l cb ar (live l p) Returned) (run_body next body) (held l cb ar (live l p)).
Proof.
  intros Hnext. induction body as [|[|err data] rest IH]; simpl.
  - by apply held_ret.
  - eapply held_seq; [apply tally_terminate | exact IH].
  - eapply held_seq; [by apply tally_handlePartialSequenceComplete | exact IH].
Qed.

Lemma tally_call_task next p stage f opts :
  next_tally l cb ar next → isFunction f = true →
  hoare (held l cb ar (live l (S p)) Returned) (call_task behaviour next stage f opts)
        (held l cb ar (live l p)).
Proof.
  intros Hnext Hf. destruct f; try done. simpl.
  eapply held_seq; [|by apply tally_run_body].
  apply held_emit. intros w _ Hg Hlive.
  destruct Hlive as [(o & Ho & Hcal & Hpos & Hcf) | (_ & ? & _)]; [|done].
  left. exists (S o). simpl. rewrite outstanding_snoc, callbacks_snoc, Ho. simpl.
  split; [done|]. split; [lia|]. split; [lia|]. destruct Hcf as [?|[? ?]]; [left|right]; lia.
Qed.

Lemma tally_dispatch next p stage fs opts :
  next_tally l cb ar next → forallb isFunction fs = true →
  hoare (held l cb ar (live l (length fs + p)) Returned) (dispatch behaviour next stage fs opts)
        (held l cb ar (live l p)).
Proof.
  intros Hnext. induction fs as [|f rest IH]; intros Hfs; simpl.
  - by apply held_ret.
  - simpl in Hfs. apply andb_true_iff in Hfs as [Hf Hrest].
    eapply held_seq; [by apply tally_call_task | by apply IH].
Qed.

Lemma tally_processNext_body next :
  next_tally l cb ar next → next_tally l cb ar (processNext_body behaviour next).
Proof.
  intros Hnext p. unfold processNext_body.
  apply held_reading. intros s Hsq _ Har. unfold build_opts. rewrite Har, ar_base, Hsq.
  cbn [mbind option_bind stages_of].
  set (S0 := λ w, idle l p w ∧ currentSequenceIdx s < length l).
  eapply held_weaken with (S' := S0).
  2: { intros w _ [Hidle <-]. split; [done|]. by destruct Hidle as (_ & _ & _ & _ & ?). }
  apply held_seq with (S1 := S0).
  { apply held_emit. intros w _ Hg [Hidle Hs]. split; [|done].
    revert Hidle. unfold idle. simpl. rewrite outstanding_snoc, callbacks_snoc.
    intros (-> & ? & -> & ? & ?). done. }
  apply held_seq with (S1 := S0).
  { apply held_update; [done|]. by intros w _ [Hidle Hs]. }
  assert (∀ f opts, isFunction f = true →
               hoare (held l cb ar S0 Returned)
                 (call_task behaviour next (currentSequenceIdx s) f opts)
                 (held l cb ar (live l p))) as Hsingle.
  { intros f opts Hf. eapply held_weaken; [by apply (tally_call_task next p)|].
    intros w _ [Hidle _]. left. exists 0.
    destruct Hidle as (? & -> & ? & ? & _).
    split; [done|]. split; [done|]. split; [lia|]. right. lia. }
  assert (∀ v, runnable (nth (currentSequenceIdx s) l VUndefined) = false →
               hoare (held l cb ar S0 Returned) (throw v) (held l cb ar (live l p))) as Hnever.
  { intros v Hno. apply held_throw. intros w _ [_ Hidx].
    by rewrite runnable_nth in Hno. }
  destruct (nth (currentSequenceIdx s) l VUndefined) as [| | | | |fn src|fs| | |] eqn:Hnth;
    try (by apply Hnever); [by apply Hsingle|].
  assert (runnable (VArr fs) = true) as Hrun.
  { rewrite <- Hnth. apply runnable_nth; [done|].
    destruct (Nat.lt_ge_cases (currentSequenceIdx s) (length l)) as [?|Hge]; [done|].
    by rewrite nth_overflow in Hnth. }
  simpl in Hrun. apply andb_true_iff in Hrun as [Hne Hfs].
  apply negb_true_iff, Nat.eqb_neq in Hne.
  apply held_seq with (S1 := live l (length fs + p)); [|by apply tally_dispatch].
  apply held_update; [done|]. intros w _ [Hidle _]. left. exists 0.
  destruct Hidle as (? & -> & ? & ? & _). simpl.
  split; [done|]. split; [done|]. split; [lia|]. left. lia.
Qed.

Lemma tally_processNextSequenceFunction fuel :
  next_tally l cb ar (processNextSequenceFunction behaviour fuel).
Proof.
  induction fuel as [|fuel IH]; simpl.
  - intros p w [Hfix _]. split; [exact Hfix|]. by intros Hf.
  - by apply tally_processNext_body.
Qed.

Lemma tally_go : hoare (held l cb ar (idle l 0) Returned) (go behaviour) (held l cb ar (live l 0)).
Proof.
  unfold go. apply hoare_reading. intros s.
  eapply hoare_weaken; [apply tally_processNextSequenceFunction | by intros w [? _] | done].
Qed.

Lemma tally_input i :
  hoare (held l cb ar (live l 0) Returned) (input behaviour i) (held l cb ar (live l 0)).
Proof.
  destruct i as [err data|]; simpl.
  - unfold complete. apply hoare_reading. intros s.
    eapply hoare_weaken;
      [apply (tally_handlePartialSequenceComplete _ 0), tally_processNextSequenceFunction
      | by intros w [? _] | done].
  - apply tally_terminate.
Qed.

Lemma tally_inputs ins : ∀ w,
  held l cb ar (live l 0) Returned w → held l cb ar (live l 0) Returned (inputs behaviour ins w).
Proof.
  induction ins as [|i ins IH]; intros w Hw; [done|]. simpl. apply IH.
  pose proof (tally_input i w Hw) as [Hfix H]. split; [exact Hfix|].
  intros _ Hg. split; [done|]. apply H; [|done].
  destruct i as [err data|]; simpl.
  - apply complete_fuel_enough. destruct Hw as [(Hsq & _) _]. by rewrite Hsq.
  - unfold terminate, reading. by destruct (stages_of _).
Qed.

(** In a good run that [go()] starts inside a sequence of runnable
    stages, with a function as callback: as long as a task is
    outstanding the callback has not been called, and once none is it
    has been called, once. *)
Lemma tally_run (s : Sequencer) ins :
  sequence s = VArr l → callback s = cb → args s = ar →
  concurrentFunctions s = 0 → currentSequenceIdx s < length l →
  good (trace (inputs behaviour ins (go behaviour (mkWorld s [])).2)) →
  live l 0 (inputs behaviour ins (go behaviour (mkWorld s [])).2).
Proof.
  intros Hsq Hcb Har Hcf Hidx Hg.
  assert (held l cb ar (live l 0) Returned (inputs behaviour ins (go behaviour (mkWorld s [])).2))
    as [_ H].
  { apply tally_inputs.
    assert (held l cb ar (idle l 0) Returned (mkWorld s [])) as H0.
    { split; [done|]. intros _ _. split; [done|]. by repeat split. }
    pose proof (tally_go _ H0) as [Hfix H]. split; [exact Hfix|].
    intros _ Hg'. split; [done|]. apply H; [|done].
    apply go_fuel_enough. simpl. by rewrite Hsq. }
  by apply H.
Qed.

End Tally.

(** * After a task that calls [terminate()] *)

Section Halt.

Variable behaviour : nat → gmap string Value → list Action.
Variable l : list Value.

Lemma halted_snoc tr e :
  halted behaviour (tr ++ [e]) = halted behaviour tr || terminating behaviour e.
Proof. unfold halted. rewrite existsb_app. simpl. by rewrite orb_false_r. Qed.

Lemma halts_snoc tr e :
  halts behaviour tr → (∀ j opts, e = EStage j opts → halted behaviour tr = false) →
  halts behaviour (tr ++ [e]).
Proof.
  intros Htr He t1 j opts t2. destruct t2 as [|x t2 _] using rev_ind; intros Heq.
  - apply app_inj_tail in Heq as [-> ->]. by apply (He j opts).
  - rewrite app_comm_cons, app_assoc in Heq. apply app_inj_tail in Heq as [-> _].
    by apply (Htr t1 j opts t2).
Qed.

(** An event that neither starts a stage nor invokes a task. *)
Lemma halt_emit e :
  terminating behaviour e = false → (∀ j opts, e ≠ EStage j opts) →
  keeps (halt behaviour l) (emit e).
Proof.
  intros Hno Hns. apply hoare_emit. intros w (Hsq & Hh & Hflag).
  split; [done|]. simpl. split.
  - apply halts_snoc; [done|]. intros j opts ->. by destruct (Hns j opts).
  - rewrite halted_snoc, Hno, orb_false_r. exact Hflag.
Qed.

Lemma halt_update f :
  (∀ s, sequence (f s) = sequence s ∧ currentSequenceIdx s ≤ currentSequenceIdx (f s)) →
  keeps (halt behaviour l) (update f).
Proof.
  intros Hf. apply hoare_update. intros w (Hsq & Hh & Hflag).
  destruct (Hf (this w)) as [Hs Hi]. split; [simpl; congruence|]. split; [done|].
  simpl. intros Hy. specialize (Hflag Hy). lia.
Qed.

Lemma halt_terminate : keeps (halt behaviour l) terminate.
Proof.
  unfold terminate. apply hoare_reading. intros s.
  destruct (stages_of (sequence s)) as [l'|] eqn:Hl'.
  - apply hoare_update. intros w [(Hsq & Hh & Hflag) <-].
    rewrite Hsq in Hl'. injection Hl' as <-. split; [done|]. split; [done|]. by intros _.
  - apply hoare_unmodelled. by intros w [? _].
Qed.

Lemma halt_handleSequenceFunctionComplete next :
  next_halt behaviour l next → keeps (halt behaviour l) (handleSequenceFunctionComplete next).
Proof.
  intros Hnext. unfold handleSequenceFunctionComplete. apply hoare_reading. intros s.
  destruct (stages_of (sequence s)) as [l'|] eqn:Hl'.
  2: { apply hoare_unmodelled. by intros w [? _]. }
  destruct (length l' <=? currentSequenceIdx s + 1) eqn:Hlast.
  - destruct (truthy (callback s)); [|apply hoare_ret; by intros w [? _]].
    unfold call_callback. destruct (isFunction (callback s)).
    + eapply hoare_weaken; [by apply (halt_emit (ECallback _ _))|by intros w [? _]|done].
    + apply hoare_throw. by intros w [? _].
  - apply Nat.leb_gt in Hlast.
    eapply hoare_seq with
      (R := λ _ w, halt behaviour l w ∧ halted behaviour (trace w) = false);
      [|by intros o w _ [? _]|exact Hnext].
    apply hoare_update. intros w [(Hsq & Hh & Hflag) <-].
    rewrite Hsq in Hl'. injection Hl' as <-.
    assert (halted behaviour (trace w) = false) as Hno.
    { destruct (halted behaviour (trace w)); [|done]. specialize (Hflag eq_refl). lia. }
    split; [|done]. split; [done|]. split; [done|]. simpl. by rewrite Hno.
Qed.

Lemma halt_handlePartialSequenceComplete next err data :
  next_halt behaviour l next → keeps (halt behaviour l) (handlePartialSequenceComplete next err data).
Proof.
  intros Hnext. unfold handlePartialSequenceComplete. repeat apply keeps_seq.
  - by apply halt_emit.
  - apply halt_update. intros s. by destruct (_ =? _).
  - destruct (truthy data); [|by apply hoare_ret].
    destruct (enumerable data); [by apply halt_update | by apply hoare_unmodelled].
  - destruct (truthy err); [by apply halt_update | by apply hoare_ret].
  - apply hoare_reading. intros s. destruct (_ =? _).
    + eapply hoare_weaken;
        [by apply halt_handleSequenceFunctionComplete | by intros w [? _] | done].
    + apply hoare_ret. by intros w [? _].
Qed.

Lemma halt_run_body next body :
  next_halt behaviour l next → keeps (halt behaviour l) (run_body next body).
Proof.
  intros Hnext. induction body as [|[|err data] rest IH]; simpl.
  - by apply hoare_ret.
  - apply keeps_seq; [apply halt_terminate | exact IH].
  - apply keeps_seq; [by apply halt_handlePartialSequenceComplete | exact IH].
Qed.

Lemma halt_call_task next stage f opts :
  next_halt behaviour l next → keeps (halt behaviour l) (call_task behaviour next stage f opts).
Proof.
  intros Hnext. destruct f as [| | | | |id src| | | |]; simpl; try (by apply hoare_throw).
  destruct (stops_first (behaviour id opts)) eqn:Hstop.
  - destruct (behaviour id opts) as [|[|err data] body] eqn:Hbody; try done. simpl.
    eapply hoare_then with (R := λ w, sequence (this w) = VArr l ∧ halts behaviour (trace w)).
    + apply hoare_emit. intros w (Hsq & Hh & Hflag). split; [done|]. split; [done|]. simpl.
      apply halts_snoc; [done|]. by intros j o.
    + eapply hoare_seq with (R := λ _, halt behaviour l);
        [|by intros o w Ho|by apply halt_run_body].
      unfold terminate. apply hoare_reading. intros s.
      destruct (stages_of (sequence s)) as [l'|] eqn:Hl'.
      * apply hoare_update. intros w [(Hsq & Hh) <-].
        rewrite Hsq in Hl'. injection Hl' as <-. split; [done|]. split; [done|]. by intros _.
      * intros w [(Hsq & Hh) <-]. by rewrite Hsq in Hl'.
  - apply keeps_seq; [|by apply halt_run_body].
    apply halt_emit; [|done]. simpl. exact Hstop.
Qed.

Lemma halt_dispatch next stage fs opts :
  next_halt behaviour l next → keeps (halt behaviour l) (dispatch behaviour next stage fs opts).
Proof.
  intros Hnext. induction fs as [|f rest IH]; simpl.
  - by apply hoare_ret.
  - apply keeps_seq; [by apply halt_call_task | exact IH].
Qed.

Lemma halt_processNext_body next :
  next_halt behaviour l next → next_halt behaviour l (processNext_body behaviour next).
Proof.
  intros Hnext. unfold processNext_body. apply hoare_reading. intros s.
  destruct (build_opts s) as [opts|]; [|apply hoare_unmodelled; by intros w [[? _] _]].
  eapply hoare_seq with (R := λ _, halt behaviour l); [|by intros o w Ho|].
  { apply hoare_emit. intros w [[(Hsq & Hh & Hflag) Hno] _]. split; [done|]. simpl. split.
    - apply halts_snoc; [done|]. by intros j o _.
    - rewrite halted_snoc, Hno. done. }
  apply keeps_seq; [by apply halt_update|].
  destruct (stages_of (sequence s)) as [l'|]; [|by apply hoare_unmodelled].
  destruct (nth (currentSequenceIdx s) l' VUndefined) as [| | | | |fn src|fs| | |];
    try (by apply hoare_throw).
  - by apply (halt_call_task next _ (VFun fn src)).
  - apply keeps_seq; [by apply halt_update | by apply halt_dispatch].
Qed.

Lemma halt_processNextSequenceFunction fuel :
  next_halt behaviour l (processNextSequenceFunction behaviour fuel).
Proof.
  induction fuel as [|fuel IH]; simpl.
  - by intros w [? _].
  - by apply halt_processNext_body.
Qed.

Lemma halt_input i : keeps (halt behaviour l) (input behaviour i).
Proof.
  destruct i as [err data|]; simpl.
  - unfold complete. apply hoare_reading. intros s.
    eapply hoare_weaken;
      [apply halt_handlePartialSequenceComplete, halt_processNextSequenceFunction
      | by intros w [? _] | done].
  - apply halt_terminate.
Qed.

Lemma halt_inputs ins w : halt behaviour l w → halt behaviour l (inputs behaviour ins w).
Proof.
  revert w. induction ins as [|i rest IH]; intros w Hw; simpl; [done|].
  apply IH. by apply halt_input.
Qed.

(** In a run, no stage is started after the invocation of a task that
    begins by calling [terminate()]. *)
Lemma halt_run (s : Sequencer) ins t1 e t2 :
  sequence s = VArr l →
  trace (inputs behaviour ins (go behaviour (mkWorld s [])).2) = t1 ++ e :: t2 →
  terminating behaviour e = true →
  stage_starts t2 = [].
Proof.
  intros Hsq Htr He.
  assert (halt behaviour l (inputs behaviour ins (go behaviour (mkWorld s [])).2))
    as (_ & Hh & _).
  { apply halt_inputs. unfold go, reading.
    apply (halt_processNextSequenceFunction (fuel_of (this (mkWorld s [])))).
    split; [|done]. split; [done|]. split; [|done].
    intros u j o v Heq. by destruct u. }
  destruct (stage_starts t2) as [|[j o] r] eqn:E; [done|].
  assert ((j, o) ∈ stage_starts t2) as Hin by (rewrite E; apply list_elem_of_here).
  apply elem_of_stage_starts, list_elem_of_split in Hin as (u & v & ->).
  rewrite Htr in Hh.
  specialize (Hh (t1 ++ e :: u) j o v). rewrite <- app_assoc in Hh. specialize (Hh eq_refl).
  unfold halted in Hh. rewrite existsb_app in Hh. simpl in Hh. rewrite He in Hh.
  by rewrite orb_true_r in Hh.
Qed.

End Halt.

(** * After [terminate()] *)

Section Stopped.

Variable behaviour : nat → gmap string Value → list Action.
Variable l : list Value.
Variable inv : list (nat * nat * gmap string Value).
Variable sts : list (nat * gmap string Value).

Lemma stopped_emit e :
  (∀ k f opts, e ≠ EInvoke k f opts) → (∀ j opts, e ≠ EStage j opts) →
  keeps (stopped l inv sts) (emit e).
Proof.
  intros Hi Hs. apply hoare_emit. intros w (Hsq & Hidx & Hinv & Hsts).
  split; [done|]. split; [done|]. simpl.
  rewrite invocations_app, stage_starts_snoc, Hinv, Hsts.
  destruct e; simpl; rewrite ?app_nil_r; try done.
  - by destruct (Hs stage opts).
  - by destruct (Hi stage f opts).
Qed.

Lemma stopped_update f :
  (∀ s, sequence (f s) = sequence s ∧ currentSequenceIdx s ≤ currentSequenceIdx (f s)) →
  keeps (stopped l inv sts) (update f).
Proof.
  intros Hf. apply hoare_update. intros w (Hsq & Hidx & Hinv & Hsts).
  destruct (Hf (this w)) as [Hs Hi]. split; [simpl; by rewrite Hs|].
  split; [simpl; lia|done].
Qed.

Lemma stopped_terminate : keeps (stopped l inv sts) terminate.
Proof.
  unfold terminate. apply hoare_reading. intros s.
  destruct (stages_of (sequence s)) as [l'|] eqn:Hl'.
  - apply hoare_update. intros w [(Hsq & Hidx & Hinv & Hsts) <-].
    rewrite Hsq in Hl'. injection Hl' as <-. split; [done|]. split; [simpl; lia|done].
  - apply hoare_unmodelled. by intros w [? _].
Qed.

(** The method [processNextSequenceFunction] is not reached. *)
Lemma stopped_handleSequenceFunctionComplete next :
  keeps (stopped l inv sts) (handleSequenceFunctionComplete next).
Proof.
  unfold handleSequenceFunctionComplete. apply hoare_reading. intros s.
  destruct (stages_of (sequence s)) as [l'|] eqn:Hl'.
  2: { apply hoare_unmodelled. by intros w [? _]. }
  destruct (length l' <=? currentSequenceIdx s + 1) eqn:Hlast.
  - destruct (truthy (callback s)); [|apply hoare_ret; by intros w [? _]].
    unfold call_callback. destruct (isFunction (callback s)).
    + eapply hoare_weaken; [by apply (stopped_emit (ECallback _ _))|by intros w [? _]|done].
    + apply hoare_throw. by intros w [? _].
  - apply Nat.leb_gt in Hlast. intros w [(Hsq & Hidx & _) <-].
    rewrite Hsq in Hl'. injection Hl' as <-. lia.
Qed.

Lemma stopped_handlePartialSequenceComplete next err data :
  keeps (stopped l inv sts) (handlePartialSequenceComplete next err data).
Proof.
  unfold handlePartialSequenceComplete. repeat apply keeps_seq.
  - by apply stopped_emit.
  - apply stopped_update. intros s. by destruct (_ =? _).
  - destruct (truthy data); [|by apply hoare_ret].
    destruct (enumerable data); [by apply stopped_update | by apply hoare_unmodelled].
  - destruct (truthy err); [by apply stopped_update | by apply hoare_ret].
  - apply hoare_reading. intros s. destruct (_ =? _).
    + eapply hoare_weaken;
        [by apply stopped_handleSequenceFunctionComplete | by intros w [? _] | done].
    + apply hoare_ret. by intros w [? _].
Qed.

Lemma stopped_input i : keeps (stopped l inv sts) (input behaviour i).
Proof.
  destruct i as [err data|]; simpl.
  - unfold complete. apply hoare_reading. intros s.
    eapply hoare_weaken;
      [apply stopped_handlePartialSequenceComplete | by intros w [? _] | done].
  - apply stopped_terminate.
Qed.

Lemma stopped_inputs ins w :
  stopped l inv sts w → stopped l inv sts (inputs behaviour ins w).
Proof.
  revert w. induction ins as [|i rest IH]; intros w Hw; simpl; [done|].
  apply IH. by apply stopped_input.
Qed.

End Stopped.

(** Once the index is at the end of the sequence, no task is invoked and
    no stage is started any more, whatever arrives. *)
Lemma terminated_inputs behaviour l ins w :
  stages_of (sequence (this w)) = Some l →
  length l ≤ currentSequenceIdx (this w) →
  invocations (trace (inputs behaviour ins w)) = invocations (trace w) ∧
  stage_starts (trace (inputs behaviour ins w)) = stage_starts (trace w).
Proof.
  intros Hsq Hidx.
  by destruct (stopped_inputs behaviour l (invocations (trace w)) (stage_starts (trace w))
                 ins w) as (_ & _ & ? & ?).
Qed.

(** * Without [terminate()] *)

Section Calm.

Variable behaviour : nat → gmap string Value → list Action.
Variable l : list Value.

Lemma calm_snoc tr e :
  calm behaviour (tr ++ [e]) =
  calm behaviour tr &&
  match e with EInvoke _ f opts => quiet_body (behaviour f opts) | _ => true end.
Proof. unfold calm. rewrite forallb_app. simpl. by rewrite andb_true_r. Qed.

Lemma inside_emit phi e :
  (∀ k f opts, e ≠ EInvoke k f opts) → keeps (inside behaviour l phi) (emit e).
Proof.
  intros He. apply hoare_emit. intros w [Hsq H]. split; [done|]. simpl.
  rewrite calm_snoc. intros [Hc _]%andb_true_iff. by apply H.
Qed.

Lemma inside_update phi f :
  (∀ s, sequence (f s) = sequence s ∧ currentSequenceIdx (f s) = currentSequenceIdx s) →
  keeps (inside behaviour l phi) (update f).
Proof.
  intros Hf. apply hoare_update. intros w [Hsq H]. destruct (Hf (this w)) as [Hs Hi].
  split; [simpl; congruence|]. simpl. rewrite Hi. exact H.
Qed.

Lemma inside_weaken (phi psi : Prop) w :
  (phi → psi) → inside behaviour l phi w → inside behaviour l psi w.
Proof.
  intros Himp [Hsq H]. split; [done|]. intros Hc. destruct (H Hc). split; [by apply Himp|done].
Qed.

Lemma inside_handleSequenceFunctionComplete phi next :
  next_inside behaviour l next → keeps (inside behaviour l phi) (handleSequenceFunctionComplete next).
Proof.
  intros Hnext. unfold handleSequenceFunctionComplete. apply hoare_reading. intros s.
  destruct (stages_of (sequence s)) as [l'|] eqn:Hl'.
  2: { apply hoare_unmodelled. by intros w [? _]. }
  destruct (length l' <=? currentSequenceIdx s + 1) eqn:Hlast.
  - destruct (truthy (callback s)); [|apply hoare_ret; by intros w [? _]].
    unfold call_callback. destruct (isFunction (callback s)).
    + eapply hoare_weaken; [by apply (inside_emit phi (ECallback _ _))|by intros w [? _]|done].
    + apply hoare_throw. by intros w [? _].
  - apply Nat.leb_gt in Hlast.
    eapply hoare_seq with (R := λ _, inside behaviour l phi); [|done|apply Hnext].
    apply hoare_update. intros w [[Hsq H] <-].
    rewrite Hsq in Hl'. injection Hl' as <-. split; [done|]. simpl.
    intros Hc. destruct (H Hc) as [? _]. done.
Qed.

Lemma inside_handlePartialSequenceComplete phi next err data :
  next_inside behaviour l next → keeps (inside behaviour l phi) (handlePartialSequenceComplete next err data).
Proof.
  intros Hnext. unfold handlePartialSequenceComplete. repeat apply keeps_seq.
  - by apply inside_emit.
  - apply inside_update. intros s. by destruct (_ =? _).
  - destruct (truthy data); [|by apply hoare_ret].
    destruct (enumerable data); [by apply inside_update | by apply hoare_unmodelled].
  - destruct (truthy err); [by apply inside_update | by apply hoare_ret].
  - apply hoare_reading. intros s. destruct (_ =? _).
    + eapply hoare_weaken;
        [by apply inside_handleSequenceFunctionComplete | by intros w [? _] | done].
    + apply hoare_ret. by intros w [? _].
Qed.

(** A body that calls [terminate()] is not run as long as the trace is
    calm. *)
Lemma inside_run_body next body : ∀ phi,
  next_inside behaviour l next →
  hoare (inside behaviour l (phi ∧ quiet_body body = true)) (run_body next body)
        (λ _, inside behaviour l phi).
Proof.
  induction body as [|[|err data] rest IH]; intros phi Hnext; simpl.
  - apply hoare_ret. intros w. apply inside_weaken. by intros [? _].
  - eapply hoare_seq with (R := λ _, inside behaviour l (False ∧ quiet_body rest = true)).
    + unfold terminate. apply hoare_reading. intros s.
      destruct (stages_of (sequence s)) as [l'|] eqn:Hl'.
      * apply hoare_update. intros w [[Hsq H] <-]. split; [done|]. simpl.
        intros Hc. by destruct (H Hc) as [[_ ?] _].
      * apply hoare_unmodelled. intros w [[Hsq H] <-]. split; [done|].
        intros Hc. by destruct (H Hc) as [[_ ?] _].
    + intros o w _. apply inside_weaken. by intros [[] _].
    + eapply hoare_weaken; [by apply (IH False)|done|].
      intros o w. apply inside_weaken. by intros [].
  - eapply hoare_seq with (R := λ _, inside behaviour l (phi ∧ quiet_body rest = true)).
    + by apply inside_handlePartialSequenceComplete.
    + intros o w _. apply inside_weaken. by intros [? _].
    + by apply IH.
Qed.

Lemma inside_call_task phi next stage f opts :
  next_inside behaviour l next → keeps (inside behaviour l phi) (call_task behaviour next stage f opts).
Proof.
  intros Hnext. destruct f as [| | | | |id src| | | |]; simpl; try (by apply hoare_throw).
  eapply hoare_seq with
    (R := λ _, inside behaviour l (phi ∧ quiet_body (behaviour id opts) = true)).
  - apply hoare_emit. intros w [Hsq H]. split; [done|]. simpl. rewrite calm_snoc.
    intros [Hc Hq]%andb_true_iff. destruct (H Hc). done.
  - intros o w _. apply inside_weaken. by intros [? _].
  - by apply inside_run_body.
Qed.

Lemma inside_dispatch phi next stage fs opts :
  next_inside behaviour l next → keeps (inside behaviour l phi) (dispatch behaviour next stage fs opts).
Proof.
  intros Hnext. induction fs as [|f rest IH]; simpl.
  - by apply hoare_ret.
  - apply keeps_seq; [by apply inside_call_task | exact IH].
Qed.

Lemma inside_processNext_body next :
  next_inside behaviour l next → next_inside behaviour l (processNext_body behaviour next).
Proof.
  intros Hnext phi. unfold processNext_body. apply hoare_reading. intros s.
  destruct (build_opts s) as [opts|]; [|apply hoare_unmodelled; by intros w [? _]].
  eapply hoare_weaken with (P' := inside behaviour l phi) (Q' := λ _, inside behaviour l phi);
    [|by intros w [? _]|done].
  apply keeps_seq; [by apply inside_emit|].
  apply keeps_seq; [by apply inside_update|].
  destruct (stages_of (sequence s)) as [l'|]; [|by apply hoare_unmodelled].
  destruct (nth (currentSequenceIdx s) l' VUndefined) as [| | | | |fn src|fs| | |];
    try (by apply hoare_throw).
  - by apply (inside_call_task phi next _ (VFun fn src)).
  - apply keeps_seq; [by apply inside_update | by apply inside_dispatch].
Qed.

Lemma inside_processNextSequenceFunction fuel :
  next_inside behaviour l (processNextSequenceFunction behaviour fuel).
Proof.
  induction fuel as [|fuel IH]; simpl.
  - by intros phi w.
  - by apply inside_processNext_body.
Qed.

Lemma inside_inputs ins : ∀ w,
  unstopped ins = true →
  inside behaviour l True w → inside behaviour l True (inputs behaviour ins w).
Proof.
  induction ins as [|[err data|] rest IH]; intros w Hins Hw; simpl; [done| |done].
  apply IH; [done|]. unfold complete, reading.
  exact (inside_handlePartialSequenceComplete True _ err data
           (inside_processNextSequenceFunction _) w Hw).
Qed.

(** In a run in which [terminate()] is never called, the index stays
    inside the sequence. *)
Lemma calm_run (s : Sequencer) ins :
  sequence s = VArr l → currentSequenceIdx s < length l →
  unstopped ins = true →
  calm behaviour (trace (inputs behaviour ins (go behaviour (mkWorld s [])).2)) = true →
  currentSequenceIdx (this (inputs behaviour ins (go behaviour (mkWorld s [])).2)) < length l.
Proof.
  intros Hsq Hidx Hins Hc.
  assert (inside behaviour l True (inputs behaviour ins (go behaviour (mkWorld s [])).2))
    as [_ H].
  { apply inside_inputs; [done|]. unfold go, reading.
    by apply (inside_processNextSequenceFunction (fuel_of s) True (mkWorld s [])). }
  by destruct (H Hc).
Qed.

End Calm.

(** * The end of a run *)

Lemma append_assoc (a b c : string) : (a +:+ b) +:+ c = a +:+ (b +:+ c).
Proof.
  induction a as [|x a IH]; [done|].
  change (String x ((a +:+ b) +:+ c) = String x (a +:+ (b +:+ c))). by rewrite IH.
Qed.

Lemma append_nil_r (a : string) : a +:+ "" = a.
Proof.
  induction a as [|x a IH]; [done|]. change (String x (a +:+ "") = String x a). by rewrite IH.
Qed.

Lemma texts_snoc es e : texts (es ++ [e]) = texts es +:+ " " +:+ to_string e.
Proof.
  unfold texts. induction es as [|x es IH]; cbn [foldr app].
  - by rewrite append_nil_r.
  - rewrite IH. by rewrite !append_assoc.
Qed.

Lemma errors_snoc tr e :
  errors (tr ++ [e]) =
  errors tr ++ match e with
               | EComplete err _ => if truthy err then [err] else []
               | _ => []
               end.
Proof.
  unfold errors. rewrite omap_app. f_equal. destruct e as [| |err data|]; try done.
  simpl. by destruct (truthy err).
Qed.

Lemma errors_app tr1 tr2 : errors (tr1 ++ tr2) = errors tr1 ++ errors tr2.
Proof. unfold errors. by rewrite omap_app. Qed.

(** [pendingErr] after the completions of a trace whose data are all
    read: the text it had, then the texts of the errors reported. *)
Lemma reported_texts pe tr :
  legible tr = true →
  reported pe tr = match errors tr with
                   | [] => pe
                   | es => VStr (to_string pe +:+ texts es)
                   end.
Proof.
  induction tr as [|e tr IH] using rev_ind; intros Hl; [done|].
  rewrite legible_snoc in Hl. apply andb_true_iff in Hl as [Hl He].
  rewrite reported_snoc, errors_snoc, (IH Hl).
  destruct e as [| |err data|]; simpl; rewrite ?app_nil_r; try done.
  rewrite He. unfold join_err. destruct (truthy err); [|by rewrite app_nil_r].
  destruct (errors tr) as [|x es] eqn:E.
  - cbn [app]. unfold texts. cbn [foldr]. by rewrite append_nil_r.
  - change ((x :: es) ++ [err]) with (x :: (es ++ [err])).
    cbn [to_string]. f_equal.
    change (x :: (es ++ [err])) with ((x :: es) ++ [err]).
    by rewrite texts_snoc, !append_assoc.
Qed.

Lemma ledger_end behaviour (s : Sequencer) base ins :
  base_opts (args s) = Some base → isArray (sequence s) = true →
  ledger s [] (inputs behaviour ins (go behaviour (mkWorld s [])).2).
Proof.
  intros Hbase Harr.
  assert (ledger s [] (mkWorld s [])) as H0.
  { split; [|split]; [|done|done]. split; [done|]. split; [done|].
    split; [apply faithful_nil|done]. }
  assert (ledger s [] (go behaviour (mkWorld s [])).2) as H1.
  { apply (ledger_go behaviour s base Hbase); [done|]. by apply go_fuel_enough. }
  by apply (ledger_inputs behaviour s base Hbase).
Qed.

Lemma terminal_calls_snoc tr e :
  terminal_calls (tr ++ [e]) =
  terminal_calls tr ++ match e with ECallback err data => [(err, data)] | _ => [] end.
Proof. unfold terminal_calls. rewrite omap_app. by destruct e. Qed.

(** The end of a good run that [go()] starts inside a sequence of
    runnable stages, with a function as callback: once every task
    invoked has completed, the terminal callback has been called, once,
    and that call is the last event; its arguments are [pendingErr] and
    [pendingData] as the events before it leave them. *)
Lemma run_over behaviour (s : Sequencer) l ins :
  sequence s = VArr l → forallb runnable l = true → isFunction (callback s) = true →
  acceptable_args (args s) →
  concurrentFunctions s = 0 → currentSequenceIdx s < length l →
  good (trace (inputs behaviour ins (go behaviour (mkWorld s [])).2)) →
  outstanding (trace (inputs behaviour ins (go behaviour (mkWorld s [])).2)) = Some 0 →
  ∃ t1,
    trace (inputs behaviour ins (go behaviour (mkWorld s [])).2) =
      t1 ++ [ECallback (reported (pendingErr s) t1) (VObj (received (pendingData s) t1))] ∧
    terminal_calls t1 = [] ∧
    length l ≤ currentSequenceIdx (this (inputs behaviour ins (go behaviour (mkWorld s [])).2)) + 1.
Proof.
  intros Hsq Hrun Hcb Har Hcf Hidx Hg Ho.
  destruct (base_opts_acceptable _ Har) as [base Hbase].
  pose proof (tally_run behaviour l (callback s) (args s) base Hrun Hcb Hbase s ins
                Hsq eq_refl eq_refl Hcf Hidx Hg) as [Hbusy|Hover].
  - destruct Hbusy as (o & Ho' & _ & Hpos & _). rewrite Ho in Ho'. injection Ho' as <-. lia.
  - destruct Hover as (_ & _ & Hcal & _ & Hlast & t1 & err & data & Htr).
    assert (isArray (sequence s) = true) as Harr by (by rewrite Hsq).
    pose proof (ledger_run behaviour s base Hbase ins Harr) as Hf.
    destruct (Hf t1 (ECallback err data) []) as [-> ->]; [done|].
    exists t1. split; [done|]. split; [|done].
    rewrite Htr in Hcal. unfold callbacks in Hcal.
    rewrite terminal_calls_snoc, length_app in Hcal. simpl in Hcal.
    destruct (terminal_calls t1); [done|]. simpl in Hcal. lia.
Qed.

Lemma inputs_app behaviour ins1 ins2 w :
  inputs behaviour (ins1 ++ ins2) w = inputs behaviour ins2 (inputs behaviour ins1 w).
Proof. revert w. induction ins1 as [|i ins1 IH]; intros w; [done|]. simpl. apply IH. Qed.

Lemma received_from_start pd0 t0 k opts seg :
  received pd0 (t0 ++ EStage k opts :: seg) = received ∅ seg.
Proof. unfold received. by rewrite foldl_app. Qed.

(** In a faithful trace no stage started has an index above that of the
    stage started last. *)
Lemma starts_below s0 tr : faithful s0 tr →
  ∀ i j o, last_start tr = Some i → (j, o) ∈ stage_starts tr → j ≤ i.
Proof.
  induction tr as [|e tr IH] using rev_ind; intros Hf i j o Hlast Hin; [done|].
  pose proof (faithful_prefix _ _ _ Hf) as Hf'.
  rewrite last_start_snoc in Hlast. rewrite stage_starts_snoc in Hin.
  destruct e as [k o'| | |]; rewrite ?app_nil_r in Hin; try (by apply (IH Hf' i j o)).
  injection Hlast as <-. apply elem_of_app in Hin as [Hin|Hin].
  - destruct (last_start tr) as [i'|] eqn:Hl'.
    + destruct (Hf tr (EStage k o') []) as [_ Hnum]; [done|].
      rewrite (Hnum i' Hl'). specialize (IH Hf' i' j o eq_refl Hin). lia.
    + unfold last_start in Hl'. apply fmap_None, last_None in Hl'.
      rewrite Hl' in Hin. by apply elem_of_nil in Hin.
  - apply list_elem_of_singleton in Hin. by injection Hin as -> _.
Qed.

(** The sequence of a run stays the one it started with. *)
Lemma sequence_stays behaviour (s : Sequencer) ins :
  sequence (this (inputs behaviour ins (go behaviour (mkWorld s [])).2)) = sequence s.
Proof.
  apply (steady_inputs behaviour (λ s', sequence s' = sequence s)); try (by intros ? ? ?).
  by apply (steady_go behaviour (λ s', sequence s' = sequence s)).
Qed.

(** * A group under way after [terminate()] *)

Section Ended.

Variable behaviour : nat → gmap string Value → list Action.
Variable l : list Value.
Variable cb : Value.
Variable sts : list (nat * gmap string Value).
Hypothesis cb_acceptable : acceptable_callback cb.

Lemma ended_handlePartialSequenceComplete inv next err data :
  readable data = true →
  hoare (ended l cb inv sts Returned) (handlePartialSequenceComplete next err data)
        (ended l cb inv sts).
Proof.
  intros Hr [s tr] (_ & (Hsq & Hidx & Hinv & Hsts) & Hc).
  destruct s as [ic sq cb' ar se idx pd n pe]. simpl in *. subst cb'.
  assert (n ≤ 1 ∨ ∃ m, n = S (S m)) as [Hn | [m ->]].
  { destruct n as [|[|m]]; [left; lia | left; lia | right; by exists m]. }
  - rewrite complete_last by done.
    unfold handleSequenceFunctionComplete, reading. cbn [this sequence currentSequenceIdx callback].
    rewrite Hsq. assert ((length l <=? idx + 1) = true) as -> by (apply Nat.leb_le; lia).
    destruct (truthy cb) eqn:Ht.
    + destruct cb_acceptable as [Hf|Hf]; [|congruence].
      unfold call_callback. rewrite Hf. unfold emit. simpl.
      split; [done|]. split; [|done]. split; [done|]. split; [done|]. simpl.
      rewrite !invocations_app, !stage_starts_snoc. simpl. by rewrite !app_nil_r.
    + split; [done|]. split; [|done]. split; [done|]. split; [done|]. simpl.
      rewrite invocations_app, stage_starts_snoc. simpl. by rewrite !app_nil_r.
  - rewrite complete_awaited by done. simpl.
    split; [done|]. split; [|done]. split; [done|]. split; [done|]. simpl.
    rewrite invocations_app, stage_starts_snoc. simpl. by rewrite !app_nil_r.
Qed.

Lemma ended_terminate inv :
  hoare (ended l cb inv sts Returned) terminate (ended l cb inv sts).
Proof.
  intros w (_ & (Hsq & Hidx & Hinv & Hsts) & Hc). unfold terminate, reading. rewrite Hsq.
  by split.
Qed.

Lemma ended_run_body inv next body :
  forallb (λ a, match a with AComplete _ data => readable data | ATerminate => true end) body
    = true →
  hoare (ended l cb inv sts Returned) (run_body next body) (ended l cb inv sts).
Proof.
  induction body as [|[|err data] rest IH]; simpl; intros Hb.
  - by intros w Hw.
  - eapply hoare_seq; [apply ended_terminate | by intros o w Ho [? _] | by apply IH].
  - apply andb_true_iff in Hb as [Hr Hb].
    eapply hoare_seq;
      [by apply ended_handlePartialSequenceComplete | by intros o w Ho [? _] | by apply IH].
Qed.

Lemma ended_dispatch inv next k fs opts :
  forallb (able behaviour opts) fs = true →
  hoare (ended l cb inv sts Returned) (dispatch behaviour next k fs opts)
        (ended l cb (inv ++ map (λ f, (k, fun_id f, opts)) fs) sts).
Proof.
  revert inv. induction fs as [|f rest IH]; simpl; intros inv Hfs.
  - intros w Hw. by rewrite app_nil_r.
  - apply andb_true_iff in Hfs as [Hf Hrest]. unfold able in Hf.
    apply andb_true_iff in Hf as [Hfun Hbody].
    destruct f as [| | | | |id src| | | |]; try done. simpl in *.
    eapply hoare_seq with (R := ended l cb (inv ++ [(k, id, opts)]) sts);
      [|by intros o w Ho [? _]|].
    + eapply hoare_seq with (R := ended l cb (inv ++ [(k, id, opts)]) sts);
        [|by intros o w Ho [? _]|by apply ended_run_body].
      intros w (_ & (Hsq & Hidx & Hinv & Hsts) & Hc). unfold emit. simpl.
      split; [done|]. split; [|done]. split; [done|]. split; [done|]. simpl.
      rewrite invocations_app, stage_starts_snoc, Hinv, Hsts. simpl. by rewrite app_nil_r.
    + assert (inv ++ (k, id, opts) :: map (λ f, (k, fun_id f, opts)) rest =
              (inv ++ [(k, id, opts)]) ++ map (λ f, (k, fun_id f, opts)) rest) as ->
        by (by rewrite <- app_assoc).
      by apply IH.
Qed.

End Ended.

(** * The claims *)

(** The invocations of the scenario [taskA, taskB, taskC] with
    [initialArgs = {x: 1}]. *)
Lemma abc_invocations :
  invocations
    (trace (run scenario
              [config (VArr (map task_value [taskA; taskB; taskC])) (VObj x_is_1) onComplete]
              [])) =
  abc_contexts.
Proof. vm_compute. reflexivity. Qed.

(** ** C1 *)

(** C1, as stated, fails: a single task that invokes its complete
    callback twice makes the terminal callback fire twice. *)
Lemma C1_double_completion_fires_twice :
  ¬ (callbacks (trace (run scenario [config (VArr [twice]) VUndefined onComplete] [])) ≤ 1).
Proof. vm_compute. lia. Qed.

(** C1, amended: in every run in which no completion arrives but from a
    task that was invoked and has not completed before, the terminal
    callback is invoked at most once, whatever the tasks do inside their
    calls, whatever arrives later and however often [terminate()] is
    called.  The Sequencer keeps no "completed" flag. *)
Theorem C1_terminal_callback_at_most_once behaviour (s : Sequencer) ins :
  concurrentFunctions s = 0 →
  respects_contract (trace (inputs behaviour ins (go behaviour (mkWorld s [])).2)) →
  callbacks (trace (inputs behaviour ins (go behaviour (mkWorld s [])).2)) ≤ 1.
Proof.
  intros Hcf Hok.
  assert (settled 0 (inputs behaviour ins (go behaviour (mkWorld s [])).2)) as H.
  { apply settled_inputs, settled_go. unfold ready. simpl. by rewrite Hcf. }
  unfold settled in H. unfold respects_contract in Hok.
  destruct (outstanding _); [|done]. destruct H as (_ & [->|[-> _]] & _); lia.
Qed.

Lemma C1_terminal_callback_at_most_once_witness :
  concurrentFunctions C1_state = 0 ∧
  respects_contract (trace (inputs scenario C1_inputs (go scenario (mkWorld C1_state [])).2)) ∧
  callbacks (trace (inputs scenario C1_inputs (go scenario (mkWorld C1_state [])).2)) ≤ 1.
Proof.
  split; [reflexivity|]. split; [vm_compute; discriminate|].
  apply (C1_terminal_callback_at_most_once scenario C1_state C1_inputs);
    [reflexivity | vm_compute; discriminate].
Defined.

(** ** C2 *)




(** ** C3 *)

(** C3 is what the documentation of [sequence] promises and the code does
    not do: [arrConstructor] reads the callback and the args from its own
    [arguments] (which hold one element, [argArray]) instead of
    [argArray], so the positional form stores neither.  On the same three
    values the object form stores args and callback, hands [x] to the
    task and delivers the terminal call; the positional form stores
    [null] for both, hands the task no [x] and never calls the terminal
    callback. *)
Theorem C3_positional_form_drops_args_and_callback :
  let stages := VArr [task_value taskA] in
  let positional := (bsync_sequence scenario [stages; VObj x_is_1; onComplete] (mkWorld fresh [])).2 in
  let object := (bsync_sequence scenario [config stages (VObj x_is_1) onComplete] (mkWorld fresh [])).2 in
  sequence (this positional) = stages ∧ sequence (this object) = stages ∧
  args (this object) = VObj x_is_1 ∧ args (this positional) = VNull ∧
  callback (this object) = onComplete ∧ callback (this positional) = VNull ∧
  invocations (trace object) = [(0, 0, <["x" := VNum 1]> {["sequence" := VThis]})] ∧
  invocations (trace positional) = [(0, 0, {["sequence" := VThis]})] ∧
  terminal_calls (trace object) = [(VUndefined, VObj {["taskA" := VNum 1]})] ∧
  terminal_calls (trace positional) = [].
Proof. repeat split; vm_compute; reflexivity. Qed.

(** ** C4 *)




(** ** C5 *)




(** ** C6 *)

(** C6, as stated, fails in the error argument: the terminal call of
    the scenario is not [(null, {done: true})]. *)
Lemma C6_terminal_error_is_not_null :
  terminal_calls
    (trace (run scenario
              [config (VArr [VArr (map task_value [taskA; taskB; taskC]); mergeTask])
                      VUndefined onComplete] [])) ≠
  [(VNull, VObj {["done" := VBool true]})].
Proof. vm_compute. discriminate. Qed.

(** C6, amended: for [stages = [[taskA, taskB, taskC], mergeTask]],
    [mergeTask] is handed [taskA = 1], [taskB = 2], [taskC = 3] and the
    terminal callback is called once, with [{done: true}] alone as data:
    the keys of the group are not among them.  Its error argument is
    [undefined], the [pendingErr] that nothing has assigned. *)
Theorem C6_group_then_merge :
  let w := run scenario
             [config (VArr [VArr (map task_value [taskA; taskB; taskC]); mergeTask])
                     VUndefined onComplete] [] in
  terminal_calls (trace w) = [(VUndefined, VObj {["done" := VBool true]})] ∧
  invocations (trace w) =
    [(0, 0, {["sequence" := VThis]}); (0, 1, {["sequence" := VThis]});
     (0, 2, {["sequence" := VThis]});
     (1, 3, <["taskA" := VNum 1]> (<["taskB" := VNum 2]> (<["taskC" := VNum 3]>
               {["sequence" := VThis]})))].
Proof. repeat split; vm_compute; reflexivity. Qed.

(** ** C7 *)




(** ** C8 *)

(** Construction alone does what C8 says, in the object form: a
    malformed stage list or a malformed args mapping is recorded in
    [startupErrorText], the accepted callback is called once with
    [(errorText, null)], and no task is invoked. *)
Lemma construct_records_shape_error sq ar cb :
  isFunction cb = true →
  (isArray sq || isFunction sq = false ∨
   (truthy ar = true ∧ isPlainObject ar = false)) →
  ∃ text,
    construct [config sq ar cb] (mkWorld blank []) =
    (Returned,
     mkWorld (mkSequencer false (or_null sq) cb (or_null ar) (VStr text) 0 ∅ 0 VUndefined)
             [ECallback (VStr text) VNull]).
Proof.
  intros Hcb Hbad. unfold construct, blank, or_null.
  cbn [length Nat.eqb andb nth].
  change (isFunction (config sq ar cb)) with false.
  change (isPlainObject (config sq ar cb)) with true.
  cbn [negb andb]. unfold objConstructor.
  rewrite !prop_config_sequence, !prop_config_args, !prop_config_callback.
  assert (truthy cb = true) as Htcb by (by destruct cb). rewrite Htcb, Hcb.
  destruct (isArray sq || isFunction sq) eqn:Hsq.
  - destruct Hbad as [?|[Har Hnp]]; [done|]. exists invalidArgs.
    rewrite Har, Hnp. assert (truthy sq = true) as -> by (by destruct sq).
    unfold andThen, update, reading, call_callback; simpl. by rewrite Htcb, Hcb.
  - exists invalidSequence.
    unfold andThen, update, reading, call_callback; simpl. by rewrite Htcb, Hcb.
Qed.

(** C8 fails where it says that execution never starts: [go()] does not
    look at [startupErrorText], and [sequence(...)] calls it whatever
    [construct] found.  With a valid stage list and an array as args, the
    error is reported to the callback, then [taskA] is invoked (on the
    entries of the array) and the callback is called a second time, with
    the task's result.  With no stage list at all [go()] ends in the
    [TypeError] of calling [undefined]. *)
Theorem C8_go_runs_an_invalid_sequencer :
  let w := (bsync_sequence scenario
              [config (VArr [task_value taskA]) (VArr [VNum 7]) onComplete]
              (mkWorld fresh [])).2 in
  startupErrorText (this w) = VStr invalidArgs ∧
  invocations (trace w) = [(0, 0, <["0" := VNum 7]> {["sequence" := VThis]})] ∧
  terminal_calls (trace w) =
    [(VStr invalidArgs, VNull); (VUndefined, VObj {["taskA" := VNum 1]})] ∧
  (bsync_sequence scenario [VNum 5] (mkWorld fresh [])).1 = Threw TypeError ∧
  (bsync_sequence scenario [] (mkWorld fresh [])).1 = Threw TypeError.
Proof. repeat split; vm_compute; reflexivity. Qed.

(** ** C9 *)

(** In the object form the handler is checked as C9 says: a truthy value
    that is not a function makes [construct] throw, before the stage list
    and the args are looked at. *)
Lemma object_form_rejects_handler sq ar cb :
  truthy cb = true → isFunction cb = false →
  ∃ s, construct [config sq ar cb] (mkWorld blank []) =
         (Threw (VStr invalidCallback), mkWorld s []) ∧
       startupErrorText s = VNull.
Proof.
  intros Ht Hf. unfold construct, blank.
  cbn [length Nat.eqb andb nth].
  change (isFunction (config sq ar cb)) with false.
  change (isPlainObject (config sq ar cb)) with true.
  cbn [negb andb]. unfold objConstructor.
  rewrite !prop_config_sequence, !prop_config_args, !prop_config_callback.
  rewrite Ht, Hf. eexists. split; reflexivity.
Qed.

(** C9 fails in the positional form, by the slip of C3: the third
    argument is never read, so a handler that is not a function is
    neither rejected nor stored, nothing is thrown and the run proceeds
    without a terminal callback.  The same three values in the object
    form throw. *)
Theorem C9_positional_handler_is_not_checked :
  let stages := VArr [task_value taskA] in
  let positional := bsync_sequence scenario [stages; VNull; VNum 42] (mkWorld fresh []) in
  let object := bsync_sequence scenario [config stages VNull (VNum 42)] (mkWorld fresh []) in
  positional.1 = Returned ∧
  startupErrorText (this positional.2) = VNull ∧
  callback (this positional.2) = VNull ∧
  (invocations (trace positional.2)).*1 = [(0, 0)] ∧
  object.1 = Threw (VStr invalidCallback) ∧
  trace object.2 = [].
Proof. repeat split; vm_compute; reflexivity. Qed.

(** ** C10 *)



(** * Further properties of the code *)

(** ** Construction *)

Section Construction.

(** A property of the object that assigning [sequence], [args],
    [callback] or [startupErrorText] does not touch. *)
Variable Q : Sequencer → Prop.
Hypothesis Q_sequence : ∀ v s, Q s → Q (set_sequence v s).
Hypothesis Q_args : ∀ v s, Q s → Q (set_args v s).
Hypothesis Q_callback : ∀ v s, Q s → Q (set_callback v s).
Hypothesis Q_startupErrorText : ∀ v s, Q s → Q (set_startupErrorText v s).

Lemma steady_objConstructor argObj : steady Q (objConstructor argObj).
Proof.
  unfold objConstructor. repeat apply steady_seq;
    try (apply steady_update; intros s; by auto).
  - destruct (truthy _); [|apply steady_ret].
    destruct (isFunction _); [|apply steady_throw]. apply steady_update. by auto.
  - apply steady_reading. intros s. destruct (truthy _); [apply steady_ret|].
    destruct (_ || _); [|apply steady_update; by auto].
    apply steady_seq; [apply steady_update; by auto|].
    destruct (truthy _); [|apply steady_ret].
    destruct (isPlainObject _); apply steady_update; by auto.
Qed.

Lemma steady_arrConstructor arguments : steady Q (arrConstructor arguments).
Proof.
  unfold arrConstructor. repeat apply steady_seq.
  - apply steady_reading. intros s. destruct (_ && _); [|apply steady_ret].
    apply steady_update. by auto.
  - destruct (truthy _); [|apply steady_ret].
    destruct (isFunction _); [|apply steady_throw]. apply steady_update. by auto.
  - apply steady_reading. intros s. destruct (truthy _); [apply steady_ret|].
    destruct (_ || _); [|apply steady_update; by auto].
    apply steady_seq; [apply steady_update; by auto|].
    destruct (truthy _); [|apply steady_ret].
    destruct (isPlainObject _); apply steady_update; by auto.
Qed.

End Construction.

(** What [construct] resets and what it leaves alone. *)
Lemma construct_resets arguments (w : World) :
  let s' := this (construct arguments w).2 in
  currentSequenceIdx s' = 0 ∧ pendingData s' = ∅ ∧ concurrentFunctions s' = 0 ∧
  pendingErr s' = pendingErr (this w) ∧ isConstructing s' = isConstructing (this w).
Proof.
  set (Q := λ s, currentSequenceIdx s = 0 ∧ pendingData s = ∅ ∧ concurrentFunctions s = 0 ∧
                 pendingErr s = pendingErr (this w) ∧
                 isConstructing s = isConstructing (this w)).
  assert (∀ a, steady Q a → ∀ w', Q (this w') → Q (this (a w').2)) as Hrun.
  { intros a Ha w' Hw'. by apply Ha. }
  unfold construct, andThen, update. cbn [fst snd this trace].
  unfold reading at 1. cbn [this].
  match goal with |- context [(?a ?w0).2] => apply (Hrun a) end; [|by repeat split].
  clear Hrun.
  destruct (_ && _); [apply steady_ret|].
  repeat apply steady_seq.
  - destruct (_ =? _); [|apply steady_ret]. apply steady_update. by intros s.
  - destruct (_ && _); [apply steady_objConstructor | apply steady_arrConstructor];
      by intros v s.
  - apply steady_reading. intros s. destruct (truthy _); [|apply steady_ret].
    destruct (truthy _); [apply steady_call_callback | apply steady_ret].
Qed.

(** X3: [construct] sets the index, [pendingData] and the counter of
    concurrent functions back to their initial values whatever its
    arguments are, and whether it returns or throws; it leaves
    [pendingErr] as it finds it, so the error text of an earlier run
    stays in an object that is constructed again. *)
Theorem X3_construct_resets_all_but_pendingErr arguments (w : World) :
  let s' := this (construct arguments w).2 in
  currentSequenceIdx s' = 0 ∧ pendingData s' = ∅ ∧ concurrentFunctions s' = 0 ∧
  pendingErr s' = pendingErr (this w) ∧ isConstructing s' = isConstructing (this w).
Proof. apply construct_resets. Qed.

(** X1: called with two or three positional arguments, [construct] never
    reads the second and the third: whatever they are it returns, calls
    nothing, stores [null] as args and as callback, and stores the first
    argument as sequence when that is an array or a function (the empty
    array it starts from otherwise). *)
Theorem X1_positional_form_stores_the_stages_only sq ar cb (w : World) :
  construct [sq; ar; cb] w = construct [sq; VUndefined; VUndefined] w ∧
  construct [sq; ar] w = construct [sq; VUndefined] w ∧
  (construct [sq; ar; cb] w).1 = Returned ∧
  trace (construct [sq; ar; cb] w).2 = trace w ∧
  args (this (construct [sq; ar; cb] w).2) = VNull ∧
  callback (this (construct [sq; ar; cb] w).2) = VNull ∧
  sequence (this (construct [sq; ar; cb] w).2) =
    (if isArray sq || isFunction sq then sq else VArr []).
Proof.
  unfold construct, arrConstructor, andThen, update, reading.
  cbn -[truthy isArray isFunction isPlainObject].
  destruct (isFunction sq) eqn:Hf, (isArray sq) eqn:Ha; cbn; repeat split; reflexivity.
Qed.

(** X2: with more than three arguments [construct] records "No more than
    3 arguments can be passed" and stores nothing: the sequence stays the
    empty array, args and callback stay [null], and nothing is called or
    thrown. *)
Theorem X2_more_than_three_arguments arguments (w : World) :
  3 < length arguments →
  construct arguments w =
  (Returned,
   mkWorld (mkSequencer (isConstructing (this w)) (VArr []) VNull VNull
              (VStr tooManyArguments) 0 ∅ 0 (pendingErr (this w)))
           (trace w)).
Proof.
  intros Hlen. destruct arguments as [|a0 [|a1 [|a2 [|a3 rest]]]]; simpl in Hlen; try lia.
  unfold construct, arrConstructor, andThen, update, reading.
  cbn -[truthy isArray isFunction isPlainObject].
  rewrite andb_false_r. cbn. reflexivity.
Qed.

Lemma X2_more_than_three_arguments_witness :
  3 < length [VArr [task_value taskA]; VNull; onComplete; VNull] ∧
  construct [VArr [task_value taskA]; VNull; onComplete; VNull] (mkWorld blank []) =
  (Returned,
   mkWorld (mkSequencer false (VArr []) VNull VNull (VStr tooManyArguments) 0 ∅ 0 VUndefined) []).
Proof.
  split; [simpl; lia|].
  apply (X2_more_than_three_arguments
           [VArr [task_value taskA]; VNull; onComplete; VNull] (mkWorld blank [])).
  simpl. lia.
Defined.

(** X4: [construct] on a configuration object.  A callback that is
    truthy and not a function makes it throw the invalid-callback text
    before the stage list and the args are checked, with no error text
    recorded.  Otherwise it returns, having stored the three values
    (falsy ones as [null], malformed ones as they are), recorded the
    stage-list error when the sequence is neither an array nor a
    function, else the args error when the args are truthy and not a
    plain object, and called the callback once with [(errorText, null)]
    exactly when an error was recorded and a callback was given.  The
    args are taken to have no own [constructor] property, see
    [isPlainObject]. *)
Theorem X4_object_form_construct sq ar cb (w : World) :
  own ar "constructor" = false →
  construct [config sq ar cb] w =
  if truthy cb && negb (isFunction cb) then
    (Threw (VStr invalidCallback),
     mkWorld (mkSequencer (isConstructing (this w)) (or_null sq) cb (or_null ar) VNull
                0 ∅ 0 (pendingErr (this w)))
             (trace w))
  else
    (Returned,
     mkWorld (mkSequencer (isConstructing (this w)) (or_null sq) (or_null cb) (or_null ar)
                (shape_error sq ar) 0 ∅ 0 (pendingErr (this w)))
             (trace w ++
              if truthy (shape_error sq ar) && truthy cb
              then [ECallback (shape_error sq ar) VNull] else [])).
Proof.
  intros _. unfold construct, or_null, shape_error.
  cbn [length Nat.eqb andb nth].
  change (isFunction (config sq ar cb)) with false.
  change (isPlainObject (config sq ar cb)) with true.
  cbn [negb andb]. unfold objConstructor.
  rewrite !prop_config_sequence, !prop_config_args, !prop_config_callback.
  unfold andThen, update, reading, call_callback.
  cbn -[truthy isArray isFunction isPlainObject].
  destruct (truthy cb) eqn:Htcb, (isFunction cb) eqn:Hfcb; cbn -[truthy isArray isFunction isPlainObject];
    try reflexivity.
  all: destruct (isArray sq || isFunction sq) eqn:Hsq;
    cbn -[truthy isArray isFunction isPlainObject].
  all: try (assert (truthy sq = true) as Htsq
              by (destruct sq; try done); rewrite ?Htsq).
  all: destruct (truthy ar) eqn:Htar, (isPlainObject ar) eqn:Hpar;
    cbn -[truthy isArray isFunction isPlainObject]; rewrite ?Htcb, ?Hfcb, ?app_nil_r;
    try reflexivity.
  all: try (destruct (truthy sq); reflexivity).
  all: try (by destruct cb).
  all: try (by destruct ar).
Qed.

Lemma X4_object_form_construct_witness :
  own (VArr [VNum 7]) "constructor" = false ∧
  construct [config (VArr [task_value taskA]) (VArr [VNum 7]) onComplete] (mkWorld blank []) =
  (Returned,
   mkWorld (mkSequencer false (VArr [task_value taskA]) onComplete (VArr [VNum 7])
              (VStr invalidArgs) 0 ∅ 0 VUndefined)
           [ECallback (VStr invalidArgs) VNull]).
Proof.
  split; [reflexivity|].
  rewrite (X4_object_form_construct (VArr [task_value taskA]) (VArr [VNum 7]) onComplete
             (mkWorld blank []) eq_refl).
  vm_compute. reflexivity.
Defined.

(** X5: [construct] without arguments stores the empty sequence and no
    args or callback; inside [new Sequencer()] it records no error,
    called later on it records "arguments passed to
    Sequencer.constructor were null"; either way it calls nothing. *)
Theorem X5_construct_without_arguments (w : World) :
  construct [] w =
  (Returned,
   mkWorld (mkSequencer (isConstructing (this w)) (VArr []) VNull VNull
              (if isConstructing (this w) then VNull else VStr errNullArguments)
              0 ∅ 0 (pendingErr (this w)))
           (trace w)).
Proof.
  destruct w as [[ic sq cb ar se idx pd cf pe] tr]. by destruct ic.
Qed.

(** ** What a run leaves alone *)

(** X15: a run assigns the index, [pendingData], the counter and
    [pendingErr] only: [sequence], [args], [callback], the recorded
    [startupErrorText] and [isConstructing] stay as they were when
    [go()] was called, whatever the tasks do and whatever arrives. *)
Theorem X15_a_run_leaves_the_configuration_alone behaviour (s : Sequencer) tr ins :
  let s' := this (inputs behaviour ins (go behaviour (mkWorld s tr)).2) in
  sequence s' = sequence s ∧ args s' = args s ∧ callback s' = callback s ∧
  startupErrorText s' = startupErrorText s ∧ isConstructing s' = isConstructing s.
Proof.
  set (Q := λ s', sequence s' = sequence s ∧ args s' = args s ∧ callback s' = callback s ∧
                  startupErrorText s' = startupErrorText s ∧
                  isConstructing s' = isConstructing s).
  apply (steady_inputs behaviour Q); try (by intros ? ? ?).
  apply (steady_go behaviour Q); try (by intros ? ? ?). by repeat split.
Qed.

(** ** The two ways to start a run *)

(** With arguments, [construct] neither reads nor writes
    [isConstructing]. *)
Lemma construct_isConstructing a0 rest b (s : Sequencer) tr :
  construct (a0 :: rest) (mkWorld (set_isConstructing b s) tr) =
  ((construct (a0 :: rest) (mkWorld s tr)).1,
   mkWorld (set_isConstructing b (this (construct (a0 :: rest) (mkWorld s tr)).2))
           (trace (construct (a0 :: rest) (mkWorld s tr)).2)).
Proof.
  unfold construct, objConstructor, arrConstructor, andThen, update, reading, call_callback.
  cbn -[truthy isArray isFunction isPlainObject prop index Nat.ltb items_of].
  repeat match goal with
         | |- context [if ?c then _ else _] =>
             destruct c eqn:?; cbn -[truthy isArray isFunction isPlainObject prop index Nat.ltb items_of]
         end; reflexivity.
Qed.

(** Of the object it is called on, [construct] reads [isConstructing]
    and [pendingErr] alone. *)
Lemma construct_from arguments (s s' : Sequencer) tr :
  isConstructing s = isConstructing s' → pendingErr s = pendingErr s' →
  construct arguments (mkWorld s tr) = construct arguments (mkWorld s' tr).
Proof. destruct s, s'. simpl. intros -> ->. reflexivity. Qed.

(** X6: with arguments, [new Sequencer(...arguments)] followed by
    [go()] does what [sequence(...arguments)] does: the same outcome,
    the same events, and the same object but for [isConstructing], which
    [new] leaves set when [construct] throws. *)
Theorem X6_new_then_go_is_sequence behaviour arguments :
  arguments ≠ [] →
  let by_new := (constructor arguments >> go behaviour) (mkWorld fresh []) in
  let by_sequence := bsync_sequence behaviour arguments (mkWorld fresh []) in
  by_new.1 = by_sequence.1 ∧
  trace by_new.2 = trace by_sequence.2 ∧
  set_isConstructing false (this by_new.2) = this by_sequence.2.
Proof.
  intros Hne. destruct arguments as [|a0 rest]; [done|]. clear Hne. cbv zeta.
  assert (bsync_sequence behaviour (a0 :: rest) (mkWorld fresh []) =
          (construct (a0 :: rest) >> go behaviour) (mkWorld fresh [])) as ->.
  { unfold bsync_sequence. unfold andThen at 1. rewrite constructor_blank.
    unfold andThen. by rewrite (construct_from _ blank fresh). }
  unfold constructor, andThen, update. cbn [this trace].
  rewrite construct_isConstructing.
  pose proof (construct_resets (a0 :: rest) (mkWorld fresh [])) as (_ & _ & _ & _ & Hic).
  cbn [this isConstructing fresh] in Hic.
  destruct (construct (a0 :: rest) (mkWorld fresh [])) as [o [sC trC]].
  cbn [fst snd this trace] in *.
  assert (set_isConstructing false (set_isConstructing true sC) = sC) as Hback.
  { destruct sC. simpl in Hic. by subst. }
  destruct o; cbn [fst snd this trace]; rewrite ?Hback; try done.
  split; [done|]. split; [done|].
  assert (isConstructing (this (go behaviour (mkWorld sC trC)).2) = false) as Hgo.
  { by apply (steady_go behaviour (λ s, isConstructing s = false)). }
  by destruct (this (go behaviour (mkWorld sC trC)).2); simpl in Hgo; subst.
Qed.

Lemma X6_new_then_go_is_sequence_witness :
  [config (VArr [task_value taskA]) (VObj x_is_1) onComplete] ≠ [] ∧
  ((constructor [config (VArr [task_value taskA]) (VObj x_is_1) onComplete] >> go scenario)
     (mkWorld fresh [])).1 =
  (bsync_sequence scenario [config (VArr [task_value taskA]) (VObj x_is_1) onComplete]
     (mkWorld fresh [])).1.
Proof.
  split; [discriminate|].
  apply (X6_new_then_go_is_sequence scenario
           [config (VArr [task_value taskA]) (VObj x_is_1) onComplete]).
  discriminate.
Defined.

(** ** Completions one by one *)









(** ** Runs as a whole *)

(** X11: in a run that respects the task contract, once the terminal
    callback has been called no invoked task is left without its
    completion, whatever has arrived since: the callback is never
    delivered while a task is still out. *)
Theorem X11_no_terminal_call_leaves_a_task_behind behaviour (s : Sequencer) ins :
  concurrentFunctions s = 0 →
  respects_contract (trace (inputs behaviour ins (go behaviour (mkWorld s [])).2)) →
  terminal_calls (trace (inputs behaviour ins (go behaviour (mkWorld s [])).2)) ≠ [] →
  outstanding (trace (inputs behaviour ins (go behaviour (mkWorld s [])).2)) = Some 0.
Proof.
  intros Hcf Hok Hcalled.
  assert (settled 0 (inputs behaviour ins (go behaviour (mkWorld s [])).2)) as H.
  { apply settled_inputs, settled_go. unfold ready. simpl. by rewrite Hcf. }
  unfold settled in H. unfold respects_contract in Hok.
  destruct (outstanding _) as [o|]; [|done].
  destruct H as (_ & [H0|[_ Ho]] & _).
  - unfold callbacks in H0. by destruct (terminal_calls _).
  - f_equal. lia.
Qed.

Lemma X11_no_terminal_call_leaves_a_task_behind_witness :
  terminal_calls (trace (inputs scenario C1_inputs (go scenario (mkWorld C1_state [])).2)) ≠ [] ∧
  outstanding (trace (inputs scenario C1_inputs (go scenario (mkWorld C1_state [])).2)) = Some 0.
Proof.
  split; [vm_compute; discriminate|].
  apply (X11_no_terminal_call_leaves_a_task_behind scenario C1_state C1_inputs);
    [reflexivity | vm_compute; discriminate | vm_compute; discriminate].
Defined.

(** X12: the stages a run starts are numbered in a row from the index
    the Sequencer is started at: no stage is started twice and none is
    skipped, whatever the tasks do and whatever arrives. *)
Theorem X12_stages_start_in_a_row behaviour (s : Sequencer) ins :
  isArray (sequence s) = true → acceptable_args (args s) →
  (stage_starts (trace (inputs behaviour ins (go behaviour (mkWorld s [])).2))).*1 =
  seq (currentSequenceIdx s)
      (length (stage_starts (trace (inputs behaviour ins (go behaviour (mkWorld s [])).2)))).
Proof.
  intros Harr Hargs. destruct (base_opts_acceptable _ Hargs) as [base Hbase].
  pose proof (ledger_run behaviour s base Hbase ins Harr) as Hf.
  destruct (go_starts behaviour s base ins Hbase) as [rest Hrest].
  rewrite Hrest in *. by rewrite (starts_in_a_row s _ _ _ Hf).
Qed.

Lemma X12_stages_start_in_a_row_witness :
  (stage_starts (trace (inputs scenario [] (go scenario (mkWorld abc_state [])).2))).*1 =
  seq 0 (length (stage_starts (trace (inputs scenario [] (go scenario (mkWorld abc_state [])).2)))) ∧
  length (stage_starts (trace (inputs scenario [] (go scenario (mkWorld abc_state [])).2))) = 3.
Proof.
  split; [|vm_compute; reflexivity].
  apply (X12_stages_start_in_a_row scenario abc_state []); [reflexivity | by left].
Defined.



(** X14: on an array as sequence every call into the Sequencer ends:
    [go()], and each late completion or [terminate()] after it, returns
    or throws; the nesting of [processNextSequenceFunction] inside the
    completions of its tasks never exceeds the number of stages. *)
Theorem X14_every_call_ends behaviour (s : Sequencer) tr ins i :
  isArray (sequence s) = true →
  (go behaviour (mkWorld s tr)).1 ≠ OutOfFuel ∧
  (input behaviour i (inputs behaviour ins (go behaviour (mkWorld s tr)).2)).1 ≠ OutOfFuel.
Proof.
  intros Harr. split; [by apply go_fuel_enough|].
  assert (sequence (this (inputs behaviour ins (go behaviour (mkWorld s tr)).2)) = sequence s)
    as Hsq.
  { apply (steady_inputs behaviour (λ s', sequence s' = sequence s)); try (by intros ? ? ?).
    by apply (steady_go behaviour (λ s', sequence s' = sequence s)). }
  destruct i as [err data|]; simpl.
  - apply complete_fuel_enough. by rewrite Hsq.
  - unfold terminate, reading. by destruct (stages_of _).
Qed.

Lemma X14_every_call_ends_witness :
  (go scenario (mkWorld C1_state [])).1 ≠ OutOfFuel ∧
  (input scenario IStop (inputs scenario C1_inputs (go scenario (mkWorld C1_state [])).2)).1
    ≠ OutOfFuel.
Proof.
  apply (X14_every_call_ends scenario C1_state [] C1_inputs IStop). reflexivity.
Defined.



(** ** At most one terminal call for each completion *)

Lemma completions_snoc tr e :
  completions (tr ++ [e]) = completions tr + match e with EComplete _ _ => 1 | _ => 0 end.
Proof. unfold completions. rewrite omap_app, length_app. by destruct e. Qed.

Section Paid.

Variable behaviour : nat → gmap string Value → list Action.

Lemma paid_less c c' w : c' ≤ c → paid c w → paid c' w.
Proof. unfold paid. lia. Qed.

Lemma paid_update c f : keeps (paid c) (update f).
Proof. by apply hoare_update. Qed.

Lemma paid_emit c e : (∀ err data, e ≠ ECallback err data) → keeps (paid c) (emit e).
Proof.
  intros He. apply hoare_emit. intros w. unfold paid. simpl.
  rewrite callbacks_snoc, completions_snoc. destruct e; try lia. by destruct (He err data).
Qed.

Lemma paid_terminate c : keeps (paid c) terminate.
Proof.
  apply hoare_reading. intros s. destruct (stages_of _).
  - apply hoare_update. by intros w [? _].
  - apply hoare_unmodelled. by intros w [? _].
Qed.

Lemma paid_handleSequenceFunctionComplete c next :
  (∀ c', keeps (paid c') next) →
  hoare (paid (S c)) (handleSequenceFunctionComplete next) (λ _, paid c).
Proof.
  intros Hnext. apply hoare_reading. intros s.
  destruct (stages_of _); [|apply hoare_unmodelled; intros w [? _]; by apply (paid_less (S c)); [lia|]].
  destruct (_ <=? _).
  - destruct (truthy _).
    + apply hoare_call_callback; intros w [H _]; [|by apply (paid_less (S c)); [lia|]].
      revert H. unfold paid. simpl. rewrite callbacks_snoc, completions_snoc. lia.
    + apply hoare_ret. intros w [? _]. by apply (paid_less (S c)); [lia|].
  - eapply hoare_seq with (R := λ _, paid c).
    + apply hoare_update. intros w [? _]. by apply (paid_less (S c)); [lia|].
    + done.
    + apply Hnext.
Qed.

Lemma paid_handlePartialSequenceComplete c next err data :
  (∀ c', keeps (paid c') next) →
  keeps (paid c) (handlePartialSequenceComplete next err data).
Proof.
  intros Hnext. unfold handlePartialSequenceComplete.
  eapply hoare_seq with (R := λ _, paid (S c)).
  { apply hoare_emit. intros w. unfold paid. simpl.
    rewrite callbacks_snoc, completions_snoc. lia. }
  { intros o w _. apply paid_less. lia. }
  eapply hoare_seq with (R := λ _, paid (S c));
    [apply paid_update | intros o w _; apply paid_less; lia |].
  eapply hoare_seq with (R := λ _, paid (S c)); [|intros o w _; apply paid_less; lia|].
  { destruct (truthy data); [|by apply hoare_ret].
    destruct (enumerable data); [apply paid_update | by apply hoare_unmodelled]. }
  eapply hoare_seq with (R := λ _, paid (S c)); [|intros o w _; apply paid_less; lia|].
  { destruct (truthy err); [apply paid_update | by apply hoare_ret]. }
  apply hoare_reading. intros s. destruct (_ =? _).
  - eapply hoare_weaken; [by apply paid_handleSequenceFunctionComplete|by intros w [? _]|done].
  - apply hoare_ret. intros w [? _]. by apply (paid_less (S c)); [lia|].
Qed.

Lemma paid_run_body c next body :
  (∀ c', keeps (paid c') next) → keeps (paid c) (run_body next body).
Proof.
  intros Hnext. induction body as [|[|err data] rest IH]; simpl.
  - by apply hoare_ret.
  - apply keeps_seq; [apply paid_terminate | exact IH].
  - apply keeps_seq; [by apply paid_handlePartialSequenceComplete | exact IH].
Qed.

Lemma paid_call_task c next stage f opts :
  (∀ c', keeps (paid c') next) → keeps (paid c) (call_task behaviour next stage f opts).
Proof.
  intros Hnext. destruct f; simpl; try (by apply hoare_throw).
  apply keeps_seq; [by apply paid_emit | by apply paid_run_body].
Qed.

Lemma paid_dispatch c next stage fs opts :
  (∀ c', keeps (paid c') next) → keeps (paid c) (dispatch behaviour next stage fs opts).
Proof.
  intros Hnext. induction fs as [|f rest IH]; simpl; [by apply hoare_ret|].
  apply keeps_seq; [by apply paid_call_task | exact IH].
Qed.

Lemma paid_processNextSequenceFunction fuel :
  ∀ c, keeps (paid c) (processNextSequenceFunction behaviour fuel).
Proof.
  induction fuel as [|fuel IH]; intros c; simpl; [by intros w|].
  unfold processNext_body. apply hoare_reading. intros s.
  assert (∀ a, keeps (paid c) a → hoare (λ w, paid c w ∧ this w = s) a (λ _, paid c)) as Hw.
  { intros a Ha. eapply hoare_weaken; [exact Ha|by intros w [? _]|done]. }
  apply Hw. clear Hw.
  destruct (build_opts s); [|by apply hoare_unmodelled].
  apply keeps_seq; [by apply paid_emit|].
  apply keeps_seq; [apply paid_update|].
  destruct (stages_of _); [|by apply hoare_unmodelled].
  destruct (nth _ _ _) as [| | | | |fn src|fs| | |]; try (by apply hoare_throw).
  - by apply (paid_call_task c _ _ (VFun fn src)).
  - apply keeps_seq; [apply paid_update | by apply paid_dispatch].
Qed.

Lemma paid_input i : keeps (paid 0) (input behaviour i).
Proof.
  destruct i as [err data|]; simpl; [|apply paid_terminate].
  apply hoare_reading. intros s.
  eapply hoare_weaken;
    [apply paid_handlePartialSequenceComplete, paid_processNextSequenceFunction
    |by intros w [? _]|done].
Qed.

Lemma paid_inputs ins w : paid 0 w → paid 0 (inputs behaviour ins w).
Proof.
  revert w. induction ins as [|i rest IH]; intros w Hw; simpl; [done|].
  apply IH. by apply paid_input.
Qed.

Lemma paid_go : keeps (paid 0) (go behaviour).
Proof.
  apply hoare_reading. intros s.
  eapply hoare_weaken; [apply paid_processNextSequenceFunction|by intros w [? _]|done].
Qed.

End Paid.

(** X17: in every run the terminal callback is called at most once for
    each completion received: a run in which nothing has completed has
    not called it, and a task that completes twice causes two calls at
    most. *)
Theorem X17_one_terminal_call_per_completion_at_most behaviour (s : Sequencer) ins :
  callbacks (trace (inputs behaviour ins (go behaviour (mkWorld s [])).2)) ≤
  completions (trace (inputs behaviour ins (go behaviour (mkWorld s [])).2)).
Proof.
  assert (paid 0 (inputs behaviour ins (go behaviour (mkWorld s [])).2)) as H.
  { apply paid_inputs, paid_go. unfold paid. simpl. lia. }
  unfold paid in H. lia.
Qed.

